(** * A segmented, editable sequence of PCM samples

    Shallow embedding of [SoundSegment.cpp] (the shared-buffer chain of
    segments) and of the parts of [SoundSegment_Simple.cpp] that differ from
    it, followed by the properties of the specification that can be settled
    on the embedding.

    Modelling conventions
    - [size_t] is a [Z] in [0, 2^64); every [size_t] addition and
      subtraction of the source is written with its wrap-around ([⊕], [⊖]).
    - a [std::shared_ptr<std::vector<int16_t>>] is an index into a store of
      buffers; two nodes holding the same index alias the same samples.
    - the singly linked chain [head -> next -> ...] is the list of its nodes;
      a node pointer is the place it designates in that list.
    - a call either returns ([Ok]), raises the allocation exception
      ([Throw]) or has no defined behaviour ([Undefined]: a null pointer is
      dereferenced or a copy leaves its buffer). *)

From Stdlib Require Import ZArith Bool Lia String Ascii DecimalString.
From Stdlib Require Import Floats.PrimFloat Numbers.Cyclic.Int63.Uint63.
From stdpp Require Import base tactics option list numbers.

Local Open Scope Z_scope.

(** ** Outcomes of a call *)

Inductive outcome (A : Type) : Type :=
| Ok (a : A)
| Throw
| Undefined.

Arguments Ok {A} a.
Arguments Throw {A}.
Arguments Undefined {A}.

#[global] Instance outcome_ret : MRet outcome := fun A a => Ok a.
#[global] Instance outcome_bind : MBind outcome := fun A B f m =>
  match m with
  | Ok a => f a
  | Throw => Throw
  | Undefined => Undefined
  end.

(** ** [size_t] arithmetic *)

Definition SIZE_MAX : Z := 18446744073709551615.

Definition to_size_t (x : Z) : Z := x mod (SIZE_MAX + 1).

Definition add_sz (a b : Z) : Z := to_size_t (a + b).
Definition sub_sz (a b : Z) : Z := to_size_t (a - b).

Infix "⊕" := add_sz (at level 50, left associativity).
Infix "⊖" := sub_sz (at level 50, left associativity).

(** ** Sample buffers and the store *)

(** Samples are [int16_t] values; they are only ever copied, except in
    [identify], which converts them to [double]. *)
Abbreviation buffer := (list Z).
Abbreviation store := (list (list Z)).

(** No more than [MAX_SAMPLES] two-byte samples fit a 64-bit address space. *)
Definition MAX_SAMPLES : Z := 9223372036854775808.

Definition store_samples (st : store) : Z :=
  foldr (fun b acc => Z.of_nat (length b) + acc) 0 st.

(** [std::make_shared<std::vector<int16_t>>(n)]: a new zero-filled buffer.
    Released buffers stay in the store as unreachable entries, so the bound
    counts every sample allocated so far. *)
Definition alloc (st : store) (n : Z) : outcome (store * nat) :=
  if store_samples st + n <? MAX_SAMPLES
  then Ok (st ++ [replicate (Z.to_nat n) 0], length st)
  else Throw.

(** [std::memcpy(dst + doff, src + soff, n * BYTES_PER_SAMPLE)]; also
    [std::memmove] when [dst] and [src] are the same buffer. *)
Definition memcpy (dst : buffer) (doff : Z) (src : buffer) (soff n : Z)
  : outcome buffer :=
  if (0 <=? doff) && (0 <=? soff) && (0 <=? n)
     && (doff + n <=? Z.of_nat (length dst))
     && (soff + n <=? Z.of_nat (length src))
  then Ok (take (Z.to_nat doff) dst
           ++ take (Z.to_nat n) (drop (Z.to_nat soff) src)
           ++ drop (Z.to_nat (doff + n)) dst)
  else Undefined.

(** Copy into the buffer [id] of the store, from a buffer outside it. *)
Definition store_memcpy (st : store) (id : nat) (doff : Z)
    (src : buffer) (soff n : Z) : outcome store :=
  match st !! id with
  | Some buf => buf' ← memcpy buf doff src soff n; Ok (<[id := buf']> st)
  | None => Undefined
  end.

(** Move inside the buffer [id] of the store. *)
Definition store_memmove (st : store) (id : nat) (doff soff n : Z)
  : outcome store :=
  match st !! id with
  | Some buf => buf' ← memcpy buf doff buf soff n; Ok (<[id := buf']> st)
  | None => Undefined
  end.

(** Copy out of the buffer [id] of the store. *)
Definition store_read (st : store) (id : nat) (dst : buffer) (doff soff n : Z)
  : outcome buffer :=
  match st !! id with
  | Some buf => memcpy dst doff buf soff n
  | None => Undefined
  end.

(** ** Segment nodes *)

(** A [std::weak_ptr<SegmentNode>]: all the code asks of it is [expired()]. *)
Record weak_ptr := { expired : bool }.

Module SegmentNode.

Record t := mk {
  data : nat;
  offset : Z;
  length : Z;
  global_start : Z;
  parents : list weak_ptr;
  children : list weak_ptr;
  is_buffer_owner : bool
}.

(** [SegmentNode(data_ptr, offset, len)] *)
Definition make (data_ptr : nat) (off len : Z) : t :=
  mk data_ptr off len 0 [] [] false.

Definition set_length (n : t) (len : Z) : t :=
  mk (data n) (offset n) len (global_start n)
     (parents n) (children n) (is_buffer_owner n).

Definition set_global_start (n : t) (g : Z) : t :=
  mk (data n) (offset n) (length n) g
     (parents n) (children n) (is_buffer_owner n).

Definition set_is_buffer_owner (n : t) (b : bool) : t :=
  mk (data n) (offset n) (length n) (global_start n)
     (parents n) (children n) b.

Definition addChild (n : t) (child : weak_ptr) : t :=
  mk (data n) (offset n) (length n) (global_start n)
     (parents n) (children n ++ [child]) (is_buffer_owner n).

Definition addParent (n : t) (parent : weak_ptr) : t :=
  mk (data n) (offset n) (length n) (global_start n)
     (parents n ++ [parent]) (children n) (is_buffer_owner n).

Definition hasActiveChildren (n : t) : bool :=
  existsb (fun weak_child => negb (expired weak_child)) (children n).

End SegmentNode.

Abbreviation node := SegmentNode.t.

(** ** The main implementation ([SoundSegment.cpp]) *)

Module SoundSegment.

Import SegmentNode.

(** A track: the buffers its nodes refer to, the chain from [head], and
    the cached [total_length]. No buffer is shared between two tracks
    ([insert] copies), so each track carries its own store. *)
Record t := mk {
  heap : store;
  head : list node;
  total_length : Z
}.

(** [SoundSegment::SoundSegment()] and [SoundSegment::create()] *)
Definition create : t := mk [] [] 0.

Fixpoint updateGlobalIndices_from (global_pos : Z) (current : list node)
  : list node * Z :=
  match current with
  | [] => ([], global_pos)
  | cur :: next =>
      let '(next', total) :=
        updateGlobalIndices_from (global_pos ⊕ length cur) next in
      (set_global_start cur global_pos :: next', total)
  end.

Definition updateGlobalIndices (tr : t) : t :=
  let '(h, total) := updateGlobalIndices_from 0 (head tr) in
  mk (heap tr) h total.

(** [findSegmentAt(pos, local_offset)]: the node found is returned with
    the nodes before it and after it in the chain; [None] is [nullptr]
    (and [local_offset] is then left unset). *)
Fixpoint findSegmentAt_from (before current : list node) (pos : Z)
  : option (list node * node * list node * Z) :=
  match current with
  | [] => None
  | cur :: next =>
      if (global_start cur <=? pos)
         && (pos <? global_start cur ⊕ length cur)
      then Some (before, cur, next, pos ⊖ global_start cur)
      else findSegmentAt_from (before ++ [cur]) next pos
  end.

Definition findSegmentAt (tr : t) (pos : Z) :=
  findSegmentAt_from [] (head tr) pos.

(** [splitNode(node, local_offset)]: the truncated node and the new right
    node linked after it, or [None] for the [nullptr] result. *)
Definition splitNode (nd : node) (local_offset : Z) : option (node * node) :=
  if length nd <=? local_offset then None
  else
    let right_nd :=
      set_global_start
        (make (data nd) (offset nd ⊕ local_offset)
              (length nd ⊖ local_offset))
        (global_start nd ⊕ local_offset) in
    Some (set_length nd local_offset, right_nd).

Definition createSegment (data_ptr : nat) (off len : Z) : node :=
  make data_ptr off len.

(** The loop of [read(int16_t* dest, start_pos, len)]. *)
Fixpoint read_loop (st : store) (current : list node) (dest : buffer)
    (samples_copied start_pos len : Z) : outcome buffer :=
  match current with
  | [] => Ok dest
  | cur :: next =>
      if samples_copied <? len then
        if (global_start cur <=? start_pos)
           && (start_pos <? global_start cur ⊕ length cur)
        then
          let local_index := start_pos ⊖ global_start cur in
          let samples_in_node := length cur ⊖ local_index in
          let samples_remaining := len ⊖ samples_copied in
          let samples_to_copy := Z.min samples_remaining samples_in_node in
          dest' ← store_read st (data cur) dest samples_copied
                    (offset cur + local_index) samples_to_copy;
          read_loop st next dest' (samples_copied ⊕ samples_to_copy)
                    (start_pos ⊕ samples_to_copy) len
        else read_loop st next dest samples_copied start_pos len
      else Ok dest
  end.

(** [read(int16_t* dest, start_pos, len)]; [dest] is the caller's array. *)
Definition read_ptr (tr : t) (dest : buffer) (start_pos len : Z)
  : outcome buffer :=
  read_loop (heap tr) (head tr) dest 0 start_pos len.



Definition getAllSamples (tr : t) : outcome buffer :=
  read_ptr tr (replicate (Z.to_nat (total_length tr)) 0) 0 (total_length tr).

(** The copy loop of [write]. *)
Fixpoint write_loop (st : store) (current : list node) (src : buffer)
    (remaining global_index src_index : Z) : outcome store :=
  match current with
  | [] => Ok st
  | cur :: next =>
      if 0 <? remaining then
        if (global_start cur <=? global_index)
           && (global_index <? global_start cur ⊕ length cur)
        then
          let local_offset := global_index ⊖ global_start cur in
          let available := length cur ⊖ local_offset in
          let to_write := Z.min remaining available in
          st' ← store_memcpy st (data cur) (offset cur + local_offset)
                  src src_index to_write;
          write_loop st' next src (remaining ⊖ to_write)
                     (global_index ⊕ to_write) (src_index ⊕ to_write)
        else write_loop st next src remaining global_index src_index
      else Ok st
  end.

(** The extension step of [write]: runs when [end_pos > total_length]. *)
Definition extend (tr : t) (end_pos : Z) : outcome t :=
  match head tr with
  | [] =>
      '(st, data_buffer) ← alloc (heap tr) end_pos;
      let last := set_is_buffer_owner (make data_buffer 0 end_pos) true in
      Ok (updateGlobalIndices (mk st [last] (total_length tr)))
  | first :: rest =>
      let last := List.last rest first in
      let last_end := global_start last ⊕ length last in
      if last_end <? end_pos then
        let new_node_len := end_pos ⊖ last_end in
        '(st, data_buffer) ← alloc (heap tr) new_node_len;
        let new_node :=
          set_is_buffer_owner
            (set_global_start (make data_buffer 0 new_node_len) last_end)
            true in
        Ok (updateGlobalIndices
              (mk st (head tr ++ [new_node]) (total_length tr)))
      else Ok (updateGlobalIndices tr)
  end.

(** [write(const int16_t* src, pos, len)] with [src] an array of [len]
    samples, which is what [write(const std::vector<int16_t>&, pos)]
    passes. *)
Definition write (tr : t) (src : buffer) (pos : Z) : outcome t :=
  let len := Z.of_nat (List.length src) in
  if len =? 0 then Ok tr
  else
    let end_pos := pos ⊕ len in
    tr1 ← (if total_length tr <? end_pos then extend tr end_pos else Ok tr);
    st ← write_loop (heap tr1) (head tr1) src len pos 0;
    Ok (mk st (head tr1) (total_length tr1)).

(** First pass of [deleteRange]: [true] when a node of the range has a
    live child, in which case the call returns [false]. *)
Fixpoint check_children (current : list node) (to_check local_off : Z)
  : bool :=
  match current with
  | [] => false
  | cur :: next =>
      if 0 <? to_check then
        if hasActiveChildren cur then true
        else
          let available := length cur ⊖ local_off in
          if available <? to_check
          then check_children next (to_check ⊖ available) 0
          else false
      else false
  end.

(** Second pass of [deleteRange], from the node found at [pos] on. The
    result is the chain that replaces [current]: a node whose length
    drops to 0 is unlinked ([prev->next = current->next], or
    [head = current->next]). *)
Fixpoint delete_loop (st : store) (current : list node)
    (to_delete local_off : Z) : outcome (store * list node) :=
  match current with
  | [] => Ok (st, [])
  | cur :: next =>
      if 0 <? to_delete then
        let available := length cur ⊖ local_off in
        if to_delete <? available then
          st' ← store_memmove st (data cur)
                  (offset cur + local_off)
                  (offset cur + local_off + to_delete)
                  (available ⊖ to_delete);
          Ok (st', set_length cur (length cur ⊖ to_delete) :: next)
        else
          let to_delete' := to_delete ⊖ available in
          let cur' := set_length cur local_off in
          if length cur' =? 0 then delete_loop st next to_delete' 0
          else if 0 <? to_delete' then
            '(st', next') ← delete_loop st next to_delete' 0;
            Ok (st', cur' :: next')
          else Ok (st, cur' :: next)
      else Ok (st, current)
  end.

Definition deleteRange (tr : t) (pos len : Z) : outcome (bool * t) :=
  if total_length tr <? pos ⊕ len then Ok (false, tr)
  else
    let '(before, current, local_off) :=
      match findSegmentAt tr pos with
      | Some (before, cur, next, local_off) => (before, cur :: next, local_off)
      | None => (head tr, [], 0)
      end in
    if check_children current len local_off then Ok (false, tr)
    else
      '(st, current') ← delete_loop (heap tr) current len local_off;
      Ok (true,
          updateGlobalIndices (mk st (before ++ current') (total_length tr))).

(** The loop of [insert] that builds the chain to splice in. Each turn
    takes at least one sample from a node whose fields are [size_t]
    values, so [len] turns are enough ([fuel] is [len] in [insert]). *)
Fixpoint build_insertion (fuel : nat) (src_track : t) (st : store)
    (insertion : list node) (remaining current_global : Z)
  : outcome (store * list node) :=
  match fuel with
  | O => Ok (st, insertion)
  | S fuel' =>
      if 0 <? remaining then
        match findSegmentAt src_track current_global with
        | None => Ok (st, insertion)
        | Some (_, cur_node, _, local_off) =>
            let take_ := Z.min (length cur_node ⊖ local_off) remaining in
            '(st1, data_copy) ← alloc st take_;
            st2 ← match heap src_track !! data cur_node with
                  | Some from =>
                      store_memcpy st1 data_copy 0 from
                        (offset cur_node + local_off) take_
                  | None => Undefined
                  end;
            let clone :=
              set_is_buffer_owner (createSegment data_copy 0 take_) true in
            build_insertion fuel' src_track st2 (insertion ++ [clone])
              (remaining ⊖ take_) (current_global ⊕ take_)
        end
      else Ok (st, insertion)
  end.

(** Where [insert] splices: [dest_node] after the optional [splitNode],
    given as the nodes before it and the sub-chain it heads ([[]] for
    [nullptr]). *)
Definition find_dest (tr : t) (dest_pos : Z) : list node * list node :=
  match findSegmentAt tr dest_pos with
  | Some (before, dest_node, next, dest_local) =>
      if 0 <? dest_local then
        match splitNode dest_node dest_local with
        | Some (nd, right_nd) => (before ++ [nd], right_nd :: next)
        | None => (before ++ dest_node :: next, [])
        end
      else (before, dest_node :: next)
  | None => (head tr, [])
  end.

(** The relinking of [insert]. Without a [dest_node] the new chain goes
    after the tail (or becomes the head); otherwise it goes between the
    node before [dest_node] (or [head]) and [dest_node], through
    [insertion_tail->next], which is a null pointer when nothing was
    built. *)
Definition splice (before insertion dest_chain : list node)
  : outcome (list node) :=
  match dest_chain with
  | [] => Ok (before ++ insertion)
  | _ :: _ =>
      match insertion with
      | [] => Undefined
      | _ :: _ => Ok (before ++ insertion ++ dest_chain)
      end
  end.

(** [insert(src_track, dest_pos, src_pos, len)]. The source is read
    before the destination changes, and only through buffers that exist
    before the call, so [src_track] may be the destination itself. *)
Definition insert (tr src_track : t) (dest_pos src_pos len : Z)
  : outcome t :=
  if len =? 0 then Ok tr
  else
    '(st, insertion) ←
      build_insertion (Z.to_nat len) src_track (heap tr) [] len src_pos;
    let '(before, dest_chain) := find_dest tr dest_pos in
    chain ← splice before insertion dest_chain;
    Ok (updateGlobalIndices (mk st chain (total_length tr))).

(** [loadFromWav(filename)], given the samples [WavIO::load] returns. *)
Definition loadFromWav (tr : t) (samples : buffer) : outcome t :=
  write tr samples 0.

(** *** [identify] *)

(** [CORRELATION_THRESHOLD = 0.95], as the nearest [double]. *)
Definition CORRELATION_THRESHOLD : float := 0x1.e666666666666p-1%float.

(** [static_cast<double>] of an [int16_t] sample. *)
Definition to_double (x : Z) : float :=
  if x <? 0 then PrimFloat.opp (PrimFloat.of_uint63 (Uint63.of_Z (- x)))
  else PrimFloat.of_uint63 (Uint63.of_Z x).

Definition size (v : buffer) : Z := Z.of_nat (List.length v).

(** [v[i]] for an index the loop guards keep inside [v]. *)
Definition at_ (v : buffer) (i : Z) : Z := default 0 (v !! Z.to_nat i).

Definition auto_ref (ad_samples : buffer) : float :=
  fold_left
    (fun acc j =>
       PrimFloat.add acc
         (PrimFloat.mul (to_double (at_ ad_samples j))
                        (to_double (at_ ad_samples j))))
    (map Z.of_nat (seq 0 (List.length ad_samples))) PrimFloat.zero.

Definition corr (target_samples ad_samples : buffer) (i : Z) : float :=
  fold_left
    (fun acc j =>
       PrimFloat.add acc
         (PrimFloat.mul (to_double (at_ target_samples (i ⊕ j)))
                        (to_double (at_ ad_samples j))))
    (map Z.of_nat (seq 0 (List.length ad_samples))) PrimFloat.zero.

(** The scanning loop; [i] grows at every turn, so
    [target_samples.size() + 1] turns are enough. *)
Fixpoint identify_loop (fuel : nat) (target_samples ad_samples : buffer)
    (threshold : float) (i : Z) (occurrences : list (Z * Z))
  : list (Z * Z) :=
  match fuel with
  | O => occurrences
  | S fuel' =>
      if i <=? size target_samples ⊖ size ad_samples then
        if PrimFloat.leb threshold (corr target_samples ad_samples i) then
          identify_loop fuel' target_samples ad_samples threshold
            (i ⊕ size ad_samples)
            (occurrences ++ [(i, i ⊕ size ad_samples ⊖ 1)])
        else
          identify_loop fuel' target_samples ad_samples threshold
            (i ⊕ 1) occurrences
      else occurrences
  end.

(** The occurrences [identify] collects before formatting them; [[]]
    also stands for the early [return ""]. *)
Definition occurrences (tr ad : t) : outcome (list (Z * Z)) :=
  if (total_length tr =? 0) || (total_length ad =? 0)
     || (total_length tr <? total_length ad)
  then Ok []
  else
    target_samples ← getAllSamples tr;
    ad_samples ← getAllSamples ad;
    let threshold :=
      PrimFloat.mul CORRELATION_THRESHOLD (auto_ref ad_samples) in
    Ok (identify_loop (S (List.length target_samples))
          target_samples ad_samples threshold 0 []).

Definition print_size_t (n : Z) : string :=
  NilZero.string_of_uint (N.to_uint (Z.to_N n)).

Definition newline : string := String (ascii_of_nat 10) EmptyString.

Fixpoint format_occurrences (first : bool) (occ : list (Z * Z)) : string :=
  match occ with
  | [] => EmptyString
  | (a, b) :: rest =>
      ((if first then EmptyString else newline)
       ++ print_size_t a ++ "," ++ print_size_t b
       ++ format_occurrences false rest)%string
  end.

Definition identify (tr ad : t) : outcome string :=
  occ ← occurrences tr ad; Ok (format_occurrences true occ).

Definition length (tr : t) : Z := total_length tr.

End SoundSegment.

(** ** The second implementation ([SoundSegment_Simple.cpp])

    Its [updateGlobalIndices], [findSegmentAt], [read], [write],
    [getAllSamples] and [identify] are statement for statement those of
    the main implementation (raw [malloc]ed and zeroed buffers in place of
    shared vectors); [deleteRange] and [insert] are its own. *)

Module Simple.

Import SoundSegment.
Import SegmentNode.

Definition write := SoundSegment.write.
Definition getAllSamples := SoundSegment.getAllSamples.

(** The loop of [deleteRange]; [cur_pos] is never advanced and the
    global indices are only recomputed after the loop. Every turn removes
    at least one sample, so [len] turns are enough. *)
Fixpoint deleteRange_loop (fuel : nat) (st : store) (chain : list node)
    (remaining cur_pos : Z) : outcome (store * list node) :=
  match fuel with
  | O => Ok (st, chain)
  | S fuel' =>
      if 0 <? remaining then
        match findSegmentAt_from [] chain cur_pos with
        | None => Ok (st, chain)
        | Some (before, current, next, local_off) =>
            let available := length current ⊖ local_off in
            let to_delete := Z.min remaining available in
            st' ← store_memmove st (data current)
                    (offset current + local_off)
                    (offset current + local_off + to_delete)
                    (available ⊖ to_delete);
            deleteRange_loop fuel' st'
              (before
               ++ set_length current (length current ⊖ to_delete) :: next)
              (remaining ⊖ to_delete) cur_pos
        end
      else Ok (st, chain)
  end.

Definition deleteRange (tr : SoundSegment.t) (pos len : Z) : outcome (bool * SoundSegment.t) :=
  if total_length tr <? pos ⊕ len then Ok (false, tr)
  else
    '(st, chain) ←
      deleteRange_loop (Z.to_nat len) (heap tr) (head tr) len pos;
    Ok (true, updateGlobalIndices (SoundSegment.mk st chain (total_length tr))).

(** The three copying loops of [insert], on [SimpleVector]s, whose
    [operator[]] is unchecked: when [src_pos + len] wraps, [actual_len]
    stays [len] and [src_data[src_pos + i]] runs past the end. The old
    nodes are deleted, each freeing the buffer it owns, before the new
    data is written to the emptied track. *)
Definition insert (tr src_track : SoundSegment.t) (dest_pos src_pos len : Z)
  : outcome SoundSegment.t :=
  src_data ← getAllSamples src_track;
  if size src_data <=? src_pos then Ok tr
  else
    let actual_len :=
      if size src_data <? src_pos ⊕ len
      then size src_data ⊖ src_pos else len in
    if size src_data <? src_pos + actual_len then Undefined
    else
      let insert_data :=
        take (Z.to_nat actual_len) (drop (Z.to_nat src_pos) src_data) in
      dest_data ← getAllSamples tr;
      let new_data :=
        take (Z.to_nat dest_pos) dest_data
        ++ insert_data ++ drop (Z.to_nat dest_pos) dest_data in
      write (SoundSegment.mk [] [] 0) new_data 0.

End Simple.

(** ** Well-formed tracks *)

Section Invariant.

Import SoundSegment.
Import SegmentNode.

(** The slice of its buffer a node views. *)
Definition window (st : store) (n : node) : buffer :=
  match st !! data n with
  | Some buf => take (Z.to_nat (length n)) (drop (Z.to_nat (offset n)) buf)
  | None => []
  end.

(** The samples of a chain, segment after segment. *)
Definition contents (st : store) (chain : list node) : buffer :=
  concat (map (window st) chain).

Fixpoint sum_lengths (chain : list node) : Z :=
  match chain with
  | [] => 0
  | n :: rest => length n + sum_lengths rest
  end.

(** A node views a non-empty slice that lies inside its buffer. *)
Definition node_ok (st : store) (n : node) : Prop :=
  0 < length n ∧ 0 <= offset n ∧
  ∃ buf, st !! data n = Some buf
         ∧ offset n + length n <= Z.of_nat (List.length buf).

(** Two nodes never view the same sample of a buffer. *)
Definition disj (a b : node) : Prop :=
  data a ≠ data b
  ∨ offset a + length a <= offset b
  ∨ offset b + length b <= offset a.

Fixpoint pairwise_disj (chain : list node) : Prop :=
  match chain with
  | [] => True
  | n :: rest => Forall (disj n) rest ∧ pairwise_disj rest
  end.

(** The cached [global_start]s are the running sums of the lengths. *)
Fixpoint indexed_from (base : Z) (chain : list node) : Prop :=
  match chain with
  | [] => True
  | n :: rest =>
      global_start n = base ∧ indexed_from (base + length n) rest
  end.

Record wf (tr : SoundSegment.t) : Prop := {
  wf_nodes : Forall (node_ok (heap tr)) (head tr);
  wf_disj : pairwise_disj (head tr);
  wf_index : indexed_from 0 (head tr);
  wf_total : total_length tr = sum_lengths (head tr);
  wf_fit : sum_lengths (head tr) <= store_samples (heap tr);
  wf_mem : store_samples (heap tr) < MAX_SAMPLES
}.

(** The nodes the range [[pos, pos + len)] touches. *)
Definition touched (pos len : Z) (n : node) : Prop :=
  0 < len ∧ global_start n < pos + len ∧ pos < global_start n + length n.

(** A node the range touches still has a live child. *)
Definition blocks (pos len : Z) (n : node) : Prop :=
  touched pos len n ∧ hasActiveChildren n = true.

(** What [insert] splices in: [len] samples of [s] from [src_pos]. *)
Definition slice (l : buffer) (off n : Z) : buffer :=
  take (Z.to_nat n) (drop (Z.to_nat off) l).

(** [src] written over [dst] from [off] on. *)
Definition blit (dst : buffer) (off : Z) (src : buffer) : buffer :=
  take (Z.to_nat off) dst ++ src
  ++ drop (Z.to_nat off + List.length src)%nat dst.

(** Overwriting part of the buffer [id]. *)
Definition poke (st : store) (id : nat) (off : Z) (s : buffer) : store :=
  match st !! id with
  | Some buf => <[id := blit buf off s]> st
  | None => st
  end.

(** The buffer sizes of a store: what copies leave unchanged. *)
Definition shape (st : store) : list nat := map (@List.length Z) st.

(** The chain with its [global_start]s recomputed from [base]. *)
Fixpoint reindex (base : Z) (chain : list node) : list node :=
  match chain with
  | [] => []
  | n :: rest => set_global_start n base :: reindex (base + length n) rest
  end.

(** The tracks the public operations build from an empty one. Positions
    and lengths are [size_t] values, sample arrays have a [size_t]
    size. *)
Definition is_size_t (x : Z) : Prop := 0 <= x <= SIZE_MAX.

Inductive reachable : SoundSegment.t -> Prop :=
| reach_create : reachable create
| reach_write tr src pos tr' :
    reachable tr -> is_size_t pos -> is_size_t (size src) ->
    write tr src pos = Ok tr' -> reachable tr'
| reach_loadFromWav tr samples tr' :
    reachable tr -> is_size_t (size samples) ->
    loadFromWav tr samples = Ok tr' -> reachable tr'
| reach_deleteRange tr pos len b tr' :
    reachable tr -> is_size_t pos -> is_size_t len ->
    deleteRange tr pos len = Ok (b, tr') -> reachable tr'
| reach_insert tr src_track dest_pos src_pos len tr' :
    reachable tr -> reachable src_track ->
    is_size_t dest_pos -> is_size_t src_pos -> is_size_t len ->
    insert tr src_track dest_pos src_pos len = Ok tr' -> reachable tr'.

(** The track a fresh [create()] becomes after [write(samples, 0)]; used to
    name concrete tracks. *)
Definition track_of (samples : buffer) : SoundSegment.t :=
  match write create samples 0 with
  | Ok tr => tr
  | Throw | Undefined => create
  end.

(** The track built by writing each of [segs] at the end of the track so
    far: one node for each non-empty segment. *)
Fixpoint append_segments (tr : SoundSegment.t) (segs : list buffer)
  : SoundSegment.t :=
  match segs with
  | [] => tr
  | seg :: rest =>
      match write tr seg (total_length tr) with
      | Ok tr' => append_segments tr' rest
      | Throw | Undefined => tr
      end
  end.

Definition track_of_segments (segs : list buffer) : SoundSegment.t :=
  append_segments create segs.

(** Matches of a pattern of [m] samples, as [identify] lists them: each
    is [(s, s + m - 1)], they lie in [[lo, hi)], come in ascending order
    and do not overlap. *)
Fixpoint spaced (m lo hi : Z) (occ : list (Z * Z)) : Prop :=
  match occ with
  | [] => lo <= hi
  | (s, e) :: rest => lo <= s ∧ e = s + m - 1 ∧ spaced m (e + 1) hi rest
  end.

End Invariant.

(** * Properties *)

Import SoundSegment.
Import SegmentNode.

(** ** Sequencing *)

Lemma bind_ok {A B} (a : A) (f : A -> outcome B) : Ok a ≫= f = f a.
Proof. reflexivity. Qed.

(** ** [size_t] arithmetic without wrap-around *)

Ltac zlia := unfold is_size_t, SIZE_MAX, MAX_SAMPLES in *; lia.

Lemma to_size_t_small x : 0 <= x <= SIZE_MAX -> to_size_t x = x.
Proof. intros H. unfold to_size_t. apply Z.mod_small. zlia. Qed.

Lemma to_size_t_range x : 0 <= to_size_t x <= SIZE_MAX.
Proof.
  unfold to_size_t.
  pose proof (Z.mod_pos_bound x (SIZE_MAX + 1)). zlia.
Qed.

Lemma add_sz_small a b : 0 <= a + b <= SIZE_MAX -> a ⊕ b = a + b.
Proof. apply to_size_t_small. Qed.

Lemma sub_sz_small a b : 0 <= a - b <= SIZE_MAX -> a ⊖ b = a - b.
Proof. apply to_size_t_small. Qed.

Lemma add_sz_range a b : 0 <= a ⊕ b <= SIZE_MAX.
Proof. apply to_size_t_range. Qed.

Lemma sub_sz_range a b : 0 <= a ⊖ b <= SIZE_MAX.
Proof. apply to_size_t_range. Qed.

Lemma add_sz_wrap a b :
  SIZE_MAX < a + b <= 2 * SIZE_MAX + 1 -> a ⊕ b = a + b - (SIZE_MAX + 1).
Proof.
  intros H. unfold add_sz, to_size_t.
  symmetry. apply (Z.mod_unique _ _ 1); zlia.
Qed.

(** Rewrites every [⊕] and [⊖] whose operands are shown not to wrap. *)
Ltac unwrap :=
  repeat first
    [ rewrite add_sz_small by zlia
    | rewrite sub_sz_small by zlia ].

Ltac unwrap_in H :=
  repeat first
    [ rewrite add_sz_small in H by zlia
    | rewrite sub_sz_small in H by zlia ].

(** ** Slices and overwrites of sample lists *)

Lemma slice_length l off n :
  0 <= off -> 0 <= n -> off + n <= Z.of_nat (List.length l) ->
  Z.of_nat (List.length (slice l off n)) = n.
Proof.
  intros. unfold slice. rewrite length_take, length_drop. lia.
Qed.

Lemma slice_all l : slice l 0 (Z.of_nat (List.length l)) = l.
Proof.
  unfold slice. rewrite Nat2Z.id. simpl. apply firstn_all.
Qed.

Lemma slice_nil l off : slice l off 0 = [].
Proof. reflexivity. Qed.

Lemma slice_app_l l1 l2 off n :
  0 <= off -> 0 <= n -> off + n <= Z.of_nat (List.length l1) ->
  slice (l1 ++ l2) off n = slice l1 off n.
Proof.
  intros. unfold slice. rewrite drop_app.
  rewrite take_app.
  replace (Z.to_nat n - List.length (drop (Z.to_nat off) l1))%nat with 0%nat
    by (rewrite length_drop; lia).
  rewrite take_0. apply app_nil_r.
Qed.

Lemma slice_app_r l1 l2 off n :
  Z.of_nat (List.length l1) <= off ->
  slice (l1 ++ l2) off n = slice l2 (off - Z.of_nat (List.length l1)) n.
Proof.
  intros. unfold slice. rewrite drop_app.
  rewrite drop_ge by lia. simpl. do 2 f_equal. lia.
Qed.

Lemma slice_split l off n m :
  0 <= off -> 0 <= n -> 0 <= m ->
  slice l off (n + m) = slice l off n ++ slice l (off + n) m.
Proof.
  intros. unfold slice.
  rewrite Z2Nat.inj_add by lia.
  rewrite <- (take_drop (Z.to_nat n) (take (Z.to_nat n + Z.to_nat m) (drop (Z.to_nat off) l))) at 1.
  rewrite take_take. rewrite Nat.min_l by lia.
  f_equal. rewrite <- take_drop_commute. rewrite drop_drop.
  do 2 f_equal. lia.
Qed.

Lemma blit_length dst off src :
  0 <= off -> off + Z.of_nat (List.length src) <= Z.of_nat (List.length dst) ->
  List.length (blit dst off src) = List.length dst.
Proof.
  intros. unfold blit. rewrite !length_app, length_take, length_drop. lia.
Qed.

Lemma blit_nil dst off : blit dst off [] = dst.
Proof.
  unfold blit. simpl. rewrite Nat.add_0_r. apply take_drop.
Qed.

Lemma memcpy_ok dst doff src soff n :
  0 <= doff -> 0 <= soff -> 0 <= n ->
  doff + n <= Z.of_nat (List.length dst) ->
  soff + n <= Z.of_nat (List.length src) ->
  memcpy dst doff src soff n = Ok (blit dst doff (slice src soff n)).
Proof.
  intros. unfold memcpy.
  replace (0 <=? doff) with true by (symmetry; apply Z.leb_le; lia).
  replace (0 <=? soff) with true by (symmetry; apply Z.leb_le; lia).
  replace (0 <=? n) with true by (symmetry; apply Z.leb_le; lia).
  replace (doff + n <=? _) with true by (symmetry; apply Z.leb_le; lia).
  replace (soff + n <=? _) with true by (symmetry; apply Z.leb_le; lia).
  simpl. unfold blit.
  replace (Z.to_nat doff + List.length (slice src soff n))%nat
    with (Z.to_nat (doff + n)); [reflexivity|].
  pose proof (slice_length src soff n). lia.
Qed.

(** Lists cut into pieces of known lengths. *)
Lemma split3 (l : list Z) (a b : nat) :
  (a + b <= List.length l)%nat ->
  ∃ A B C, l = A ++ B ++ C ∧ List.length A = a ∧ List.length B = b.
Proof.
  intros H.
  exists (take a l), (take b (drop a l)), (drop b (drop a l)).
  split; [rewrite (take_drop b), (take_drop a); reflexivity|].
  split; [apply length_take_le; lia|].
  apply length_take_le. rewrite length_drop. lia.
Qed.

Lemma blit_pieces (A B C s : list Z) off :
  Z.to_nat off = List.length A -> List.length B = List.length s ->
  blit (A ++ B ++ C) off s = A ++ s ++ C.
Proof.
  intros Ha Hb. unfold blit. rewrite Ha.
  rewrite take_app_length, drop_app_add.
  rewrite <- Hb, drop_app_length. reflexivity.
Qed.

Lemma slice_pieces (A B C : list Z) off n :
  Z.to_nat off = List.length A -> Z.to_nat n = List.length B ->
  slice (A ++ B ++ C) off n = B.
Proof.
  intros Ha Hb. unfold slice. rewrite Ha, Hb.
  rewrite drop_app_length, take_app_length. reflexivity.
Qed.

Lemma blit_blit dst off s1 s2 :
  0 <= off ->
  off + Z.of_nat (List.length s1) + Z.of_nat (List.length s2)
    <= Z.of_nat (List.length dst) ->
  blit (blit dst off s1) (off + Z.of_nat (List.length s1)) s2
  = blit dst off (s1 ++ s2).
Proof.
  intros Hoff Hfit.
  destruct (split3 dst (Z.to_nat off) (List.length s1 + List.length s2))
    as (A & B & C & -> & HA & HB); [lia|].
  destruct (split3 B (List.length s1) (List.length s2))
    as (B1 & B2 & B3 & -> & HB1 & HB2); [lia|].
  assert (B3 = []) as ->.
  { apply length_zero_iff_nil. rewrite !length_app in HB. lia. }
  rewrite app_nil_r.
  rewrite (blit_pieces A (B1 ++ B2) C (s1 ++ s2))
    by (rewrite ?length_app; lia).
  rewrite <- (app_assoc B1 B2 C).
  rewrite (blit_pieces A B1 (B2 ++ C) s1) by lia.
  rewrite (app_assoc A s1 (B2 ++ C)).
  rewrite (blit_pieces (A ++ s1) B2 C s2) by (rewrite ?length_app; lia).
  rewrite <- !app_assoc. reflexivity.
Qed.

Lemma blit_app_l l1 l2 off s :
  0 <= off -> off + Z.of_nat (List.length s) <= Z.of_nat (List.length l1) ->
  blit (l1 ++ l2) off s = blit l1 off s ++ l2.
Proof.
  intros Hoff Hfit.
  destruct (split3 l1 (Z.to_nat off) (List.length s))
    as (A & B & C & -> & HA & HB); [lia|].
  rewrite (blit_pieces A B C s) by lia.
  rewrite <- !app_assoc.
  rewrite (blit_pieces A B (C ++ l2) s) by lia. reflexivity.
Qed.

Lemma blit_app_r l1 l2 off s :
  Z.of_nat (List.length l1) <= off ->
  off + Z.of_nat (List.length s) <= Z.of_nat (List.length (l1 ++ l2)) ->
  blit (l1 ++ l2) off s = l1 ++ blit l2 (off - Z.of_nat (List.length l1)) s.
Proof.
  intros Hoff Hfit. rewrite length_app in Hfit.
  destruct (split3 l2 (Z.to_nat (off - Z.of_nat (List.length l1)))
              (List.length s))
    as (A & B & C & -> & HA & HB); [lia|].
  rewrite (blit_pieces A B C s) by lia.
  rewrite (app_assoc l1 A (B ++ C)).
  rewrite (blit_pieces (l1 ++ A) B C s) by (rewrite ?length_app; lia).
  rewrite <- !app_assoc. reflexivity.
Qed.

Lemma blit_app_mid l1 l2 off s1 s2 :
  0 <= off -> off + Z.of_nat (List.length s1) = Z.of_nat (List.length l1) ->
  blit (l1 ++ l2) off (s1 ++ s2) = blit l1 off s1 ++ blit l2 0 s2.
Proof.
  intros Hoff Hfit.
  destruct (split3 l1 (Z.to_nat off) (List.length s1))
    as (A & B & C & -> & HA & HB); [lia|].
  assert (C = []) as ->.
  { apply length_zero_iff_nil. rewrite !length_app in Hfit. lia. }
  rewrite app_nil_r.
  unfold blit at 1. rewrite <- HA.
  replace (List.length A + List.length (s1 ++ s2))%nat
    with (List.length (A ++ B) + List.length s2)%nat
    by (rewrite !length_app; lia).
  rewrite drop_app_add. rewrite <- (app_assoc A B l2), take_app_length.
  replace (A ++ B) with (A ++ B ++ []) by (rewrite app_nil_r; reflexivity).
  rewrite (blit_pieces A B [] s1) by lia.
  unfold blit. simpl. rewrite <- !app_assoc. reflexivity.
Qed.

Lemma slice_blit_same dst off s :
  0 <= off -> off + Z.of_nat (List.length s) <= Z.of_nat (List.length dst) ->
  slice (blit dst off s) off (Z.of_nat (List.length s)) = s.
Proof.
  intros Hoff Hfit.
  destruct (split3 dst (Z.to_nat off) (List.length s))
    as (A & B & C & -> & HA & HB); [lia|].
  rewrite (blit_pieces A B C s) by lia.
  apply slice_pieces; lia.
Qed.

Lemma slice_blit_frame dst off s o n :
  0 <= off -> off + Z.of_nat (List.length s) <= Z.of_nat (List.length dst) ->
  0 <= o -> 0 <= n ->
  o + n <= off ∨ off + Z.of_nat (List.length s) <= o ->
  slice (blit dst off s) o n = slice dst o n.
Proof.
  intros Hoff Hfit Ho Hn Hdis.
  destruct (split3 dst (Z.to_nat off) (List.length s))
    as (A & B & C & -> & HA & HB); [lia|].
  rewrite (blit_pieces A B C s) by lia.
  destruct Hdis as [Hbefore|Hafter].
  - rewrite !(slice_app_l A) by lia. reflexivity.
  - rewrite (app_assoc A s C), (app_assoc A B C).
    rewrite !slice_app_r by (rewrite length_app; lia).
    rewrite !length_app, HB. reflexivity.
Qed.

Lemma slice_slice l off n o m :
  0 <= off -> 0 <= n -> 0 <= o -> 0 <= m -> o + m <= n ->
  slice (slice l off n) o m = slice l (off + o) m.
Proof.
  intros Hoff Hn Ho Hm Hfit. unfold slice.
  replace (Z.to_nat n) with (Z.to_nat o + (Z.to_nat n - Z.to_nat o))%nat by lia.
  rewrite <- take_drop_commute, take_take, drop_drop.
  f_equal; [lia|]. f_equal. lia.
Qed.

(** Writing inside a slice of a buffer, seen from the slice. *)
Lemma slice_blit_inside buf off len lo s :
  0 <= off -> 0 <= lo -> lo + Z.of_nat (List.length s) <= len ->
  off + len <= Z.of_nat (List.length buf) ->
  slice (blit buf (off + lo) s) off len = blit (slice buf off len) lo s.
Proof.
  intros Hoff Hlo Hfit Hbuf.
  destruct (split3 buf (Z.to_nat off) (Z.to_nat len))
    as (P & W & Q & -> & HP & HW); [lia|].
  rewrite (slice_pieces P W Q) by lia.
  destruct (split3 W (Z.to_nat lo) (List.length s))
    as (A & B & C & -> & HA & HB); [lia|].
  rewrite (blit_pieces A B C s) by lia.
  replace (P ++ (A ++ B ++ C) ++ Q) with ((P ++ A) ++ B ++ (C ++ Q))
    by (rewrite <- !app_assoc; reflexivity).
  rewrite (blit_pieces (P ++ A) B (C ++ Q) s) by (rewrite ?length_app; lia).
  replace ((P ++ A) ++ s ++ C ++ Q) with (P ++ (A ++ s ++ C) ++ Q)
    by (rewrite <- !app_assoc; reflexivity).
  apply slice_pieces; [lia|].
  rewrite !length_app in HW |- *. lia.
Qed.

Lemma take_slice l n : 0 <= n -> take (Z.to_nat n) l = slice l 0 n.
Proof. reflexivity. Qed.

(** ** The store *)

Lemma store_samples_nonneg (st : store) : 0 <= store_samples st.
Proof. induction st as [|b st IH]; simpl; lia. Qed.

Lemma store_samples_app (st1 st2 : store) :
  store_samples (st1 ++ st2) = store_samples st1 + store_samples st2.
Proof. induction st1 as [|b st1 IH]; simpl; lia. Qed.

Lemma store_samples_lookup (st : store) id buf :
  st !! id = Some buf -> Z.of_nat (List.length buf) <= store_samples st.
Proof.
  revert id. induction st as [|b st IH]; intros [|id] H; simpl in *;
    try discriminate.
  - injection H as ->. pose proof (store_samples_nonneg st). lia.
  - specialize (IH _ H). lia.
Qed.

Lemma store_samples_insert (st : store) id buf buf' :
  st !! id = Some buf -> List.length buf' = List.length buf ->
  store_samples (<[id := buf']> st) = store_samples st.
Proof.
  revert id. induction st as [|b st IH]; intros [|id] H Hlen; simpl in *;
    try discriminate.
  - injection H as ->. lia.
  - rewrite (IH _ H Hlen). reflexivity.
Qed.

Lemma store_memcpy_ok (st : store) id buf doff src soff n :
  st !! id = Some buf ->
  0 <= doff -> 0 <= soff -> 0 <= n ->
  doff + n <= Z.of_nat (List.length buf) ->
  soff + n <= Z.of_nat (List.length src) ->
  store_memcpy st id doff src soff n = Ok (poke st id doff (slice src soff n)).
Proof.
  intros Hid ?????. unfold store_memcpy, poke. rewrite Hid.
  rewrite memcpy_ok by assumption. reflexivity.
Qed.

Lemma store_memmove_ok (st : store) id buf doff soff n :
  st !! id = Some buf ->
  0 <= doff -> 0 <= soff -> 0 <= n ->
  doff + n <= Z.of_nat (List.length buf) ->
  soff + n <= Z.of_nat (List.length buf) ->
  store_memmove st id doff soff n = Ok (poke st id doff (slice buf soff n)).
Proof.
  intros Hid ?????. unfold store_memmove, poke. rewrite Hid.
  rewrite memcpy_ok by assumption. reflexivity.
Qed.

Lemma store_read_ok (st : store) id buf dst doff soff n :
  st !! id = Some buf ->
  0 <= doff -> 0 <= soff -> 0 <= n ->
  doff + n <= Z.of_nat (List.length dst) ->
  soff + n <= Z.of_nat (List.length buf) ->
  store_read st id dst doff soff n = Ok (blit dst doff (slice buf soff n)).
Proof.
  intros Hid ?????. unfold store_read. rewrite Hid.
  apply memcpy_ok; assumption.
Qed.

Lemma poke_lookup_same (st : store) id buf off s :
  st !! id = Some buf -> poke st id off s !! id = Some (blit buf off s).
Proof.
  intros H. unfold poke. rewrite H.
  apply list_lookup_insert_eq. eapply lookup_lt_Some; eassumption.
Qed.

Lemma poke_lookup_other (st : store) id id' off s :
  id ≠ id' -> poke st id off s !! id' = st !! id'.
Proof.
  intros H. unfold poke. destruct (st !! id); [|reflexivity].
  apply list_lookup_insert_ne. assumption.
Qed.

Lemma poke_samples (st : store) id buf off s :
  st !! id = Some buf ->
  0 <= off -> off + Z.of_nat (List.length s) <= Z.of_nat (List.length buf) ->
  store_samples (poke st id off s) = store_samples st.
Proof.
  intros H ??. unfold poke. rewrite H.
  eapply store_samples_insert; [eassumption|].
  apply blit_length; assumption.
Qed.

Lemma poke_length (st : store) id off s :
  List.length (poke st id off s) = List.length st.
Proof.
  unfold poke. destruct (st !! id); [apply length_insert | reflexivity].
Qed.

(** ** Windows and contents *)

Lemma window_slice (st : store) n buf :
  st !! data n = Some buf -> window st n = slice buf (offset n) (length n).
Proof. intros H. unfold window. rewrite H. reflexivity. Qed.

Lemma window_length (st : store) n :
  node_ok st n -> Z.of_nat (List.length (window st n)) = length n.
Proof.
  intros (Hl & Ho & buf & Hb & Hfit).
  rewrite (window_slice _ _ _ Hb). apply slice_length; lia.
Qed.

Lemma contents_cons (st : store) n l :
  contents st (n :: l) = window st n ++ contents st l.
Proof. reflexivity. Qed.

Lemma contents_app (st : store) l1 l2 :
  contents st (l1 ++ l2) = contents st l1 ++ contents st l2.
Proof. unfold contents. rewrite map_app, concat_app. reflexivity. Qed.

Lemma sum_lengths_app l1 l2 :
  sum_lengths (l1 ++ l2) = sum_lengths l1 + sum_lengths l2.
Proof. induction l1 as [|n l1 IH]; simpl; lia. Qed.

Lemma sum_lengths_nonneg (st : store) l :
  Forall (node_ok st) l -> 0 <= sum_lengths l.
Proof.
  induction 1 as [|n l Hn _ IH]; simpl; [lia|].
  destruct Hn as (? & _). lia.
Qed.

Lemma contents_length (st : store) l :
  Forall (node_ok st) l ->
  Z.of_nat (List.length (contents st l)) = sum_lengths l.
Proof.
  induction 1 as [|n l Hn _ IH]; [reflexivity|].
  rewrite contents_cons, length_app, Nat2Z.inj_add, IH.
  rewrite (window_length _ _ Hn). reflexivity.
Qed.

Lemma node_ok_fits (st : store) n :
  node_ok st n -> offset n + length n <= store_samples st.
Proof.
  intros (_ & _ & buf & Hb & Hfit).
  pose proof (store_samples_lookup _ _ _ Hb). lia.
Qed.

Lemma node_ok_poke (st : store) id buf off s m :
  st !! id = Some buf ->
  0 <= off -> off + Z.of_nat (List.length s) <= Z.of_nat (List.length buf) ->
  node_ok st m -> node_ok (poke st id off s) m.
Proof.
  intros Hid Hoff Hfit (Hl & Ho & b & Hb & Hw).
  split; [assumption|]. split; [assumption|].
  destruct (decide (id = data m)) as [->|Hne].
  - exists (blit buf off s). rewrite (poke_lookup_same _ _ _ _ _ Hid).
    split; [reflexivity|]. rewrite blit_length by assumption.
    rewrite Hid in Hb. injection Hb as ->. assumption.
  - exists b. rewrite poke_lookup_other by assumption. auto.
Qed.

(** Writing inside the window of [c] shows in that window only. *)
Lemma window_poke_same (st : store) c lo s :
  node_ok st c -> 0 <= lo -> lo + Z.of_nat (List.length s) <= length c ->
  window (poke st (data c) (offset c + lo) s) c = blit (window st c) lo s.
Proof.
  intros (Hl & Ho & buf & Hb & Hw) Hlo Hfit.
  unfold window. rewrite (poke_lookup_same _ _ _ _ _ Hb), Hb.
  apply (slice_blit_inside buf (offset c) (length c) lo s); lia.
Qed.

Lemma window_poke_frame (st : store) id buf off s m :
  st !! id = Some buf ->
  0 <= off -> off + Z.of_nat (List.length s) <= Z.of_nat (List.length buf) ->
  0 <= offset m -> 0 <= length m ->
  data m ≠ id ∨ offset m + length m <= off
  ∨ off + Z.of_nat (List.length s) <= offset m ->
  window (poke st id off s) m = window st m.
Proof.
  intros Hid Hoff Hfit Hom Hlm Hdis.
  destruct (decide (data m = id)) as [Heq|Hne].
  - destruct Hdis as [?|Hdis]; [contradiction|].
    unfold window. rewrite Heq, (poke_lookup_same _ _ _ _ _ Hid), Hid.
    apply (slice_blit_frame buf off s (offset m) (length m)); try lia.
  - unfold window. rewrite poke_lookup_other by congruence. reflexivity.
Qed.

(** The region [[offset c + lo, offset c + lo + k)] of the window of [c]
    is outside the window of every node disjoint from [c]. *)
Lemma contents_poke_frame (st : store) c lo s l :
  node_ok st c -> 0 <= lo -> lo + Z.of_nat (List.length s) <= length c ->
  Forall (node_ok st) l -> Forall (fun m => disj m c) l ->
  contents (poke st (data c) (offset c + lo) s) l = contents st l.
Proof.
  intros Hc Hlo Hfit Hok Hdis.
  induction l as [|m l IH]; [reflexivity|].
  inversion Hok as [|? ? Hm Hok']; subst.
  inversion Hdis as [|? ? Hd Hdis']; subst.
  rewrite !contents_cons, IH by assumption. f_equal.
  destruct Hc as (Hl & Ho & buf & Hb & Hw).
  destruct Hm as (Hlm & Hom & _).
  eapply window_poke_frame; try eassumption; try lia.
  unfold disj in Hd. destruct Hd as [?|[?|?]]; [left; assumption|right; lia..].
Qed.

Lemma disj_sym a b : disj a b -> disj b a.
Proof. unfold disj. intuition. Qed.

(** ** Shapes *)

Lemma shape_poke (st : store) id buf off s :
  st !! id = Some buf ->
  0 <= off -> off + Z.of_nat (List.length s) <= Z.of_nat (List.length buf) ->
  shape (poke st id off s) = shape st.
Proof.
  intros Hid Hoff Hfit. unfold poke, shape. rewrite Hid.
  change (map (@List.length Z)) with (fmap (M:=list) (@List.length Z)).
  rewrite list_fmap_insert. apply list_insert_id.
  rewrite list_lookup_fmap, Hid. simpl. f_equal.
  symmetry. apply blit_length; assumption.
Qed.

Lemma shape_lookup (st st' : store) id buf :
  shape st' = shape st -> st !! id = Some buf ->
  ∃ buf', st' !! id = Some buf' ∧ List.length buf' = List.length buf.
Proof.
  intros Hs Hid.
  assert (H : shape st' !! id = Some (List.length buf)).
  { rewrite Hs. unfold shape.
    change (map (@List.length Z)) with (fmap (M:=list) (@List.length Z)).
    rewrite list_lookup_fmap, Hid. reflexivity. }
  unfold shape in H.
  change (map (@List.length Z)) with (fmap (M:=list) (@List.length Z)) in H.
  rewrite list_lookup_fmap in H.
  destruct (st' !! id) as [buf'|]; simpl in H; [|discriminate].
  exists buf'. split; [reflexivity|]. congruence.
Qed.

Lemma shape_samples (st st' : store) :
  shape st' = shape st -> store_samples st' = store_samples st.
Proof.
  revert st'. induction st as [|b st IH]; intros [|b' st'] H;
    simpl in *; try discriminate; [reflexivity|].
  injection H as Hb Hrest. rewrite (IH _ Hrest). lia.
Qed.

Lemma shape_length (st st' : store) :
  shape st' = shape st -> List.length st' = List.length st.
Proof.
  intros H. apply (f_equal (@List.length nat)) in H.
  unfold shape in H. rewrite !length_map in H. assumption.
Qed.

Lemma node_ok_shape (st st' : store) n :
  shape st' = shape st -> node_ok st n -> node_ok st' n.
Proof.
  intros Hs (Hl & Ho & buf & Hb & Hw).
  destruct (shape_lookup _ _ _ _ Hs Hb) as (buf' & Hb' & Hlen).
  split; [assumption|]. split; [assumption|].
  exists buf'. split; [assumption|]. lia.
Qed.

Lemma Forall_node_ok_shape (st st' : store) l :
  shape st' = shape st -> Forall (node_ok st) l -> Forall (node_ok st') l.
Proof.
  intros Hs. apply Forall_impl. intros n. apply node_ok_shape. assumption.
Qed.

(** ** Re-indexing *)

Lemma updateGlobalIndices_from_spec (st : store) base l :
  Forall (node_ok st) l -> 0 <= base -> base + sum_lengths l <= SIZE_MAX ->
  updateGlobalIndices_from base l = (reindex base l, base + sum_lengths l).
Proof.
  intros Hok. revert base.
  induction Hok as [|n l Hn Hok IH]; intros base Hb Hs; simpl in *.
  - f_equal. lia.
  - pose proof (sum_lengths_nonneg _ _ Hok). destruct Hn as (Hl & _).
    rewrite add_sz_small by lia. rewrite IH by lia. f_equal. lia.
Qed.

Lemma reindex_indexed base l : indexed_from base (reindex base l).
Proof. revert base. induction l as [|n l IH]; intros base; simpl; auto. Qed.

Lemma reindex_id base l : indexed_from base l -> reindex base l = l.
Proof.
  revert base. induction l as [|n l IH]; intros base H; simpl in *;
    [reflexivity|].
  destruct H as [Hg H]. rewrite IH by assumption. f_equal.
  destruct n; simpl in *. subst. reflexivity.
Qed.

Lemma reindex_contents (st : store) base l :
  contents st (reindex base l) = contents st l.
Proof.
  revert base. induction l as [|n l IH]; intros base; simpl; [reflexivity|].
  rewrite !contents_cons, IH. reflexivity.
Qed.

Lemma reindex_sum base l : sum_lengths (reindex base l) = sum_lengths l.
Proof.
  revert base. induction l as [|n l IH]; intros base; simpl; [reflexivity|].
  rewrite IH. reflexivity.
Qed.

Lemma reindex_node_ok (st : store) base l :
  Forall (node_ok st) l -> Forall (node_ok st) (reindex base l).
Proof.
  intros H. revert base. induction H as [|n l Hn _ IH]; intros base; simpl;
    constructor; auto.
Qed.

Lemma reindex_disj_one a g base l :
  Forall (disj a) l -> Forall (disj (set_global_start a g)) (reindex base l).
Proof.
  intros H. revert base. induction H as [|n l Hn _ IH]; intros base; simpl;
    constructor; auto.
Qed.

Lemma reindex_disj base l : pairwise_disj l -> pairwise_disj (reindex base l).
Proof.
  revert base. induction l as [|n l IH]; intros base H; simpl in *; [exact I|].
  destruct H as [H1 H2]. split; [|auto].
  apply reindex_disj_one. assumption.
Qed.

Lemma reindex_length_pos base l :
  Forall (fun n => length n ≠ 0) l ->
  Forall (fun n => length n ≠ 0) (reindex base l).
Proof.
  intros H. revert base. induction H as [|n l Hn _ IH]; intros base; simpl;
    constructor; auto.
Qed.

(** ** Locating a position *)

Lemma findSegmentAt_from_spec (st : store) before cur base pos :
  Forall (node_ok st) cur -> indexed_from base cur ->
  0 <= base -> base + sum_lengths cur <= SIZE_MAX ->
  base <= pos <= SIZE_MAX ->
  match findSegmentAt_from before cur pos with
  | Some (b, c, nx, lo) =>
      ∃ mid, cur = mid ++ c :: nx ∧ b = before ++ mid
             ∧ lo = pos - (base + sum_lengths mid) ∧ 0 <= lo < length c
  | None => base + sum_lengths cur <= pos
  end.
Proof.
  intros Hok. revert before base.
  induction Hok as [|c cur Hc Hok IH]; intros before base Hidx Hb Hs Hp;
    simpl in *; [lia|].
  destruct Hidx as [Hg Hidx]. destruct Hc as (Hl & _).
  pose proof (sum_lengths_nonneg _ _ Hok) as Hnn.
  rewrite Hg. rewrite add_sz_small by lia.
  destruct (Z.leb_spec base pos) as [_|?]; [|lia].
  destruct (Z.ltb_spec pos (base + length c)) as [Hin|Hout]; simpl.
  - exists []. simpl. rewrite app_nil_r. rewrite sub_sz_small by zlia.
    repeat split; lia.
  - specialize (IH (before ++ [c]) (base + length c) Hidx).
    destruct (findSegmentAt_from (before ++ [c]) cur pos)
      as [[[[b c'] nx] lo]|].
    + destruct IH as (mid & -> & -> & -> & Hlo); try lia.
      exists (c :: mid). simpl. rewrite <- app_assoc. simpl.
      repeat split; lia.
    + lia.
Qed.

(** ** Reading *)

Lemma slice_of_nil off n : slice [] off n = [].
Proof. unfold slice. rewrite drop_nil, take_nil. reflexivity. Qed.

Lemma slice_length_le l off n :
  0 <= n -> Z.of_nat (List.length (slice l off n)) <= n.
Proof. intros. unfold slice. rewrite length_take. lia. Qed.

Lemma slice_nonpos l off n : n <= 0 -> slice l off n = [].
Proof.
  intros. unfold slice. replace (Z.to_nat n) with 0%nat by lia. reflexivity.
Qed.

Lemma blit_full dst s : List.length s = List.length dst -> blit dst 0 s = s.
Proof.
  intros H. unfold blit. simpl. rewrite H, drop_all. apply app_nil_r.
Qed.

Lemma window_sub_slice (st : store) c buf lo n :
  st !! data c = Some buf -> 0 <= offset c -> 0 <= lo -> 0 <= n ->
  lo + n <= length c ->
  slice (window st c) lo n = slice buf (offset c + lo) n.
Proof.
  intros Hb ? ? ? ?. rewrite (window_slice _ _ _ Hb).
  apply slice_slice; lia.
Qed.

Lemma read_loop_spec (st : store) cur base dest copied start len :
  Forall (node_ok st) cur -> indexed_from base cur ->
  0 <= base -> base + sum_lengths cur <= SIZE_MAX ->
  0 <= copied <= len -> len <= SIZE_MAX ->
  (copied < len -> base <= start) ->
  len <= Z.of_nat (List.length dest) ->
  read_loop st cur dest copied start len
  = Ok (blit dest copied
          (slice (contents st cur) (start - base) (len - copied))).
Proof.
  intros Hok. revert base dest copied start.
  induction Hok as [|c cur Hc Hok IH];
    intros base dest copied start Hidx Hb Hs Hcp Hlen Hst Hd; simpl.
  - unfold contents. simpl. rewrite slice_of_nil, blit_nil. reflexivity.
  - destruct Hidx as [Hg Hidx].
    pose proof (sum_lengths_nonneg _ _ Hok) as Hnn.
    pose proof (window_length _ _ Hc) as HW.
    destruct Hc as (Hl & Ho & buf & Hbuf & Hw).
    destruct (Z.ltb_spec copied len) as [Hlt|Hge].
    2:{ rewrite slice_nonpos by lia. rewrite blit_nil. reflexivity. }
    specialize (Hst Hlt). rewrite Hg. rewrite add_sz_small by (simpl in Hs; lia).
    simpl in Hs.
    destruct (Z.leb_spec base start) as [_|?]; [|lia].
    destruct (Z.ltb_spec start (base + length c)) as [Hin|Hout]; simpl.
    + rewrite (sub_sz_small start) by zlia.
      rewrite (sub_sz_small (length c)) by zlia.
      rewrite (sub_sz_small len) by zlia.
      set (k := start - base) in *.
      set (tc := Z.min (len - copied) (length c - k)).
      assert (Htc : 0 < tc <= len - copied ∧ tc <= length c - k)
        by (unfold tc; lia).
      rewrite (store_read_ok _ _ buf) by (try assumption; lia).
      rewrite bind_ok.
      rewrite (add_sz_small copied) by zlia.
      rewrite (add_sz_small start) by zlia.
      rewrite (IH (base + length c)); try assumption; try lia.
      2:{ rewrite blit_length; [lia|lia|].
          pose proof (slice_length_le buf (offset c + k) tc). lia. }
      f_equal. rewrite contents_cons.
      assert (Hs1 : slice buf (offset c + k) tc = slice (window st c) k tc).
      { symmetry. apply window_sub_slice; try assumption; lia. }
      rewrite Hs1.
      assert (Hl1 : Z.of_nat (List.length (slice (window st c) k tc)) = tc)
        by (apply slice_length; lia).
      destruct (Z.le_gt_cases (len - copied) (length c - k)) as [Hfew|Hmany].
      * assert (tc = len - copied) as Htc' by (unfold tc; lia).
        rewrite (slice_nonpos _ _ (len - (copied + tc))) by lia.
        rewrite blit_nil. rewrite <- Htc'.
        rewrite slice_app_l by lia. reflexivity.
      * assert (tc = length c - k) as Htc' by (unfold tc; lia).
        replace (len - copied) with (tc + (len - copied - tc)) by lia.
        rewrite slice_split by lia.
        rewrite (slice_app_l (window st c)) by lia.
        rewrite (slice_app_r (window st c)) by lia.
        replace (k + tc - Z.of_nat (List.length (window st c))) with 0 by lia.
        replace (start + tc - (base + length c)) with 0 by lia.
        replace (len - (copied + tc)) with (len - copied - tc) by lia.
        rewrite <- Hl1 at 2.
        apply blit_blit; [lia|].
        pose proof (slice_length_le (contents st cur) 0 (len - copied - tc)).
        lia.
    + rewrite (IH (base + length c)); try assumption; try lia.
      f_equal. f_equal. rewrite contents_cons.
      rewrite slice_app_r by lia. f_equal. lia.
Qed.

Lemma getAllSamples_contents tr :
  wf tr -> getAllSamples tr = Ok (contents (heap tr) (head tr)).
Proof.
  intros [Hok Hdis Hidx Htot Hfit Hmem].
  unfold getAllSamples, read_ptr.
  pose proof (sum_lengths_nonneg _ _ Hok) as Hnn.
  pose proof (contents_length _ _ Hok) as HL.
  rewrite (read_loop_spec _ _ 0); try assumption; try zlia.
  2:{ rewrite length_replicate. lia. }
  f_equal. rewrite Htot, !Z.sub_0_r. rewrite <- HL at 2.
  rewrite slice_all. apply blit_full. rewrite length_replicate. lia.
Qed.

(** ** Writing *)

Lemma Forall_disj_sym c l : Forall (disj c) l -> Forall (fun m => disj m c) l.
Proof. apply Forall_impl. intros m. apply disj_sym. Qed.

Lemma window_poke_disj (st : store) c lo s m :
  node_ok st c -> 0 <= lo -> lo + Z.of_nat (List.length s) <= length c ->
  node_ok st m -> disj m c ->
  window (poke st (data c) (offset c + lo) s) m = window st m.
Proof.
  intros Hc Hlo Hfit Hm Hd.
  destruct Hc as (Hl & Ho & buf & Hb & Hw).
  destruct Hm as (Hlm & Hom & _).
  eapply window_poke_frame; try eassumption; try lia.
  unfold disj in Hd. destruct Hd as [?|[?|?]]; [left; assumption|right; lia..].
Qed.

Lemma node_ok_poke_in (st : store) c lo s m :
  node_ok st c -> 0 <= lo -> lo + Z.of_nat (List.length s) <= length c ->
  node_ok st m -> node_ok (poke st (data c) (offset c + lo) s) m.
Proof.
  intros (Hl & Ho & buf & Hb & Hw) Hlo Hfit Hm.
  eapply node_ok_poke; try eassumption; lia.
Qed.

Lemma shape_poke_in (st : store) c lo s :
  node_ok st c -> 0 <= lo -> lo + Z.of_nat (List.length s) <= length c ->
  shape (poke st (data c) (offset c + lo) s) = shape st.
Proof.
  intros (Hl & Ho & buf & Hb & Hw) Hlo Hfit.
  eapply shape_poke; try eassumption; lia.
Qed.

Lemma write_loop_spec (st : store) cur base src remaining gi si :
  Forall (node_ok st) cur -> pairwise_disj cur -> indexed_from base cur ->
  0 <= base -> base + sum_lengths cur <= SIZE_MAX ->
  0 <= remaining -> 0 <= si -> si + remaining <= size src ->
  size src <= SIZE_MAX -> gi <= SIZE_MAX ->
  (0 < remaining -> base <= gi) ->
  ∃ st', write_loop st cur src remaining gi si = Ok st'
    ∧ shape st' = shape st
    ∧ contents st' cur
      = blit (contents st cur) (gi - base)
          (slice src si (Z.min remaining (base + sum_lengths cur - gi)))
    ∧ ∀ m, node_ok st m -> Forall (disj m) cur -> window st' m = window st m.
Proof.
  intros Hok. revert st Hok base remaining gi si.
  induction cur as [|c cur IH];
    intros st Hok base remaining gi si Hdis Hidx Hb Hs Hrem Hsi Hsrc Hmax Hgi Hst;
    simpl.
  - exists st. repeat split; auto.
    unfold contents. simpl. rewrite slice_nonpos by lia. rewrite blit_nil.
    reflexivity.
  - inversion Hok as [|? ? Hc Hok']; subst.
    destruct Hdis as [Hdc Hdis]. destruct Hidx as [Hg Hidx].
    pose proof (sum_lengths_nonneg _ _ Hok') as Hnn.
    pose proof (window_length _ _ Hc) as HW.
    pose proof Hc as (Hl & Ho & buf & Hbuf & Hw).
    simpl in Hs. unfold size in *.
    destruct (Z.ltb_spec 0 remaining) as [Hpos|Hzero].
    2:{ exists st. repeat split; auto.
        rewrite slice_nonpos by lia. rewrite blit_nil. reflexivity. }
    specialize (Hst Hpos). rewrite Hg. rewrite add_sz_small by lia.
    destruct (Z.leb_spec base gi) as [_|?]; [|lia].
    destruct (Z.ltb_spec gi (base + length c)) as [Hin|Hout]; simpl.
    + rewrite (sub_sz_small gi) by zlia.
      rewrite (sub_sz_small (length c)) by zlia.
      set (k := gi - base) in *.
      set (tw := Z.min remaining (length c - k)).
      assert (Htw : 0 < tw <= remaining ∧ tw <= length c - k)
        by (unfold tw; lia).
      rewrite (store_memcpy_ok _ _ buf) by (try assumption; lia).
      rewrite bind_ok.
      rewrite (sub_sz_small remaining) by zlia.
      rewrite (add_sz_small gi) by zlia.
      rewrite (add_sz_small si) by zlia.
      assert (Hl1 : Z.of_nat (List.length (slice src si tw)) = tw)
        by (apply slice_length; lia).
      set (st1 := poke st (data c) (offset c + k) (slice src si tw)).
      assert (Hsh1 : shape st1 = shape st)
        by (apply shape_poke_in; [assumption|lia|lia]).
      destruct (IH st1 (Forall_node_ok_shape _ _ _ Hsh1 Hok')
                  (base + length c) (remaining - tw) (gi + tw) (si + tw))
        as (st' & Hrun & Hsh & Hcont & Hframe);
        try assumption; try lia.
      exists st'. split; [exact Hrun|]. split; [congruence|]. split.
      * rewrite !contents_cons. rewrite Hcont.
        rewrite (Hframe c); [| apply (node_ok_shape _ _ _ Hsh1 Hc) | assumption].
        unfold st1 at 1. rewrite window_poke_same by (try assumption; lia).
        unfold st1. rewrite contents_poke_frame;
          [| assumption | lia | lia | assumption | apply Forall_disj_sym; assumption].
        destruct (Z.le_gt_cases remaining (length c - k)) as [Hfew|Hmany].
        -- assert (tw = remaining) as Htw' by (unfold tw; lia).
           rewrite (slice_nonpos _ _ (Z.min (remaining - tw) _)) by lia.
           rewrite blit_nil.
           replace (Z.min remaining (base + (length c + sum_lengths cur) - gi))
             with tw by lia.
           symmetry. apply blit_app_l; lia.
        -- assert (tw = length c - k) as Htw' by (unfold tw; lia).
           replace (Z.min remaining (base + (length c + sum_lengths cur) - gi))
             with (tw + Z.min (remaining - tw)
                         (base + length c + sum_lengths cur - (gi + tw)))
             by lia.
           rewrite slice_split by lia.
           replace (gi + tw - (base + length c)) with 0 by lia.
           symmetry. apply blit_app_mid; lia.
      * intros m Hm Hdm. inversion Hdm as [|? ? Hd1 Hd2]; subst.
        rewrite Hframe; [| apply (node_ok_shape _ _ _ Hsh1 Hm) | assumption].
        apply window_poke_disj; try assumption; lia.
    + destruct (IH st Hok' (base + length c) remaining gi si)
        as (st' & Hrun & Hsh & Hcont & Hframe);
        try assumption; try lia.
      exists st'. split; [exact Hrun|]. split; [assumption|]. split.
      * rewrite !contents_cons. rewrite Hcont.
        rewrite (Hframe c) by assumption.
        replace (base + (length c + sum_lengths cur) - gi)
          with (base + length c + sum_lengths cur - gi) by lia.
        set (cnt := Z.min remaining (base + length c + sum_lengths cur - gi)).
        destruct (Z.le_gt_cases cnt 0) as [Hnone|Hsome].
        -- rewrite (slice_nonpos _ _ cnt) by assumption.
           rewrite !blit_nil. reflexivity.
        -- rewrite blit_app_r.
           ++ f_equal. f_equal. lia.
           ++ lia.
           ++ rewrite length_app.
              pose proof (slice_length_le src si cnt).
              pose proof (contents_length _ _ Hok'). lia.
      * intros m Hm Hdm. inversion Hdm; subst. apply Hframe; assumption.
Qed.

(** ** Growing the store *)

Lemma node_ok_data_lt (st : store) n :
  node_ok st n -> (data n < List.length st)%nat.
Proof.
  intros (_ & _ & buf & Hb & _). eapply lookup_lt_Some. eassumption.
Qed.

Lemma node_ok_app (st ext : store) n : node_ok st n -> node_ok (st ++ ext) n.
Proof.
  intros (Hl & Ho & buf & Hb & Hw). split; [assumption|].
  split; [assumption|]. exists buf. split; [|assumption].
  apply lookup_app_l_Some. assumption.
Qed.

Lemma window_app (st ext : store) n :
  node_ok st n -> window (st ++ ext) n = window st n.
Proof.
  intros (Hl & Ho & buf & Hb & Hw). unfold window.
  rewrite (lookup_app_l_Some _ _ _ _ Hb), Hb. reflexivity.
Qed.

Lemma contents_app_store (st ext : store) l :
  Forall (node_ok st) l -> contents (st ++ ext) l = contents st l.
Proof.
  induction 1 as [|n l Hn _ IH]; [reflexivity|].
  rewrite !contents_cons, IH, window_app by assumption. reflexivity.
Qed.

Lemma pairwise_disj_app l1 l2 :
  pairwise_disj (l1 ++ l2)
  <-> pairwise_disj l1 ∧ pairwise_disj l2
      ∧ Forall (fun a => Forall (disj a) l2) l1.
Proof.
  induction l1 as [|a l1 IH]; simpl.
  - intuition.
  - split.
    + intros [Ha Hr]. apply Forall_app in Ha. destruct Ha as [Ha1 Ha2].
      apply IH in Hr. destruct Hr as (H1 & H2 & H3).
      repeat split; try assumption. constructor; assumption.
    + intros ([Ha1 H1] & H2 & H3).
      inversion H3 as [|? ? Ha2 H3']; subst.
      split; [apply Forall_app; split; assumption|].
      apply IH. repeat split; assumption.
Qed.

Lemma disj_fresh (st : store) a b :
  node_ok st a -> (List.length st <= data b)%nat -> disj a b.
Proof.
  intros Ha Hb. left. pose proof (node_ok_data_lt _ _ Ha). lia.
Qed.

Lemma indexed_from_app base l1 l2 :
  indexed_from base (l1 ++ l2)
  <-> indexed_from base l1 ∧ indexed_from (base + sum_lengths l1) l2.
Proof.
  revert base. induction l1 as [|a l1 IH]; intros base; simpl.
  - rewrite Z.add_0_r. intuition.
  - rewrite IH. rewrite Z.add_assoc. intuition.
Qed.

Lemma last_cons_default {A} (rest : list A) a d :
  List.last (a :: rest) d = List.last rest a.
Proof.
  revert a d. induction rest as [|b rest IH]; intros a d; [reflexivity|].
  change (List.last (a :: b :: rest) d) with (List.last (b :: rest) d).
  rewrite !IH. reflexivity.
Qed.

Lemma indexed_last base first rest :
  indexed_from base (first :: rest) ->
  global_start (List.last rest first) + length (List.last rest first)
  = base + sum_lengths (first :: rest).
Proof.
  revert base first. induction rest as [|n rest IH]; intros base first H.
  - simpl in *. lia.
  - destruct H as [Hg H]. specialize (IH _ _ H).
    rewrite last_cons_default.
    rewrite IH. simpl. lia.
Qed.

Lemma alloc_spec (st : store) n :
  alloc st n
  = if store_samples st + n <? MAX_SAMPLES
    then Ok (st ++ [replicate (Z.to_nat n) 0], List.length st)
    else Throw.
Proof. reflexivity. Qed.

Lemma node_ok_fresh (st : store) n :
  0 < n ->
  node_ok (st ++ [replicate (Z.to_nat n) 0])
          (set_is_buffer_owner (make (List.length st) 0 n) true).
Proof.
  intros Hn. split; [exact Hn|]. split; [simpl; lia|].
  exists (replicate (Z.to_nat n) 0). simpl. split.
  - apply list_lookup_middle. reflexivity.
  - rewrite length_replicate. lia.
Qed.

Lemma window_fresh (st : store) buf nd :
  data nd = List.length st -> offset nd = 0 ->
  length nd = Z.of_nat (List.length buf) ->
  window (st ++ [buf]) nd = buf.
Proof.
  intros Hd Ho Hl. unfold window. rewrite Hd.
  rewrite list_lookup_middle by reflexivity.
  rewrite Ho, Hl, Nat2Z.id. simpl. apply firstn_all.
Qed.

(** ** Extension and [write] preserve well-formedness *)

Lemma updateGlobalIndices_wf (st : store) chain total :
  Forall (node_ok st) chain -> pairwise_disj chain ->
  sum_lengths chain <= store_samples st -> store_samples st < MAX_SAMPLES ->
  updateGlobalIndices (SoundSegment.mk st chain total)
  = SoundSegment.mk st (reindex 0 chain) (sum_lengths chain)
  ∧ wf (SoundSegment.mk st (reindex 0 chain) (sum_lengths chain)).
Proof.
  intros Hok Hdis Hfit Hmem. unfold updateGlobalIndices. simpl.
  rewrite (updateGlobalIndices_from_spec st) by (try assumption; zlia).
  split; [reflexivity|].
  constructor; simpl.
  - apply reindex_node_ok. assumption.
  - apply reindex_disj. assumption.
  - apply reindex_indexed.
  - rewrite reindex_sum. reflexivity.
  - rewrite reindex_sum. assumption.
  - assumption.
Qed.

Lemma extend_spec tr end_pos :
  wf tr -> total_length tr < end_pos <= SIZE_MAX ->
  match extend tr end_pos with
  | Ok tr' =>
      wf tr' ∧ total_length tr' = end_pos
      ∧ contents (heap tr') (head tr')
        = contents (heap tr) (head tr)
          ++ replicate (Z.to_nat (end_pos - total_length tr)) 0
      ∧ store_samples (heap tr')
        = store_samples (heap tr) + (end_pos - total_length tr)
  | Throw =>
      MAX_SAMPLES <= store_samples (heap tr) + (end_pos - total_length tr)
  | Undefined => False
  end.
Proof.
  intros [Hok Hdis Hidx Htot Hfit Hmem] He. unfold extend.
  pose proof (sum_lengths_nonneg _ _ Hok) as Hnn.
  destruct (head tr) as [|first rest] eqn:Hhead.
  - simpl in Htot. rewrite Htot in *. rewrite alloc_spec.
    destruct (Z.ltb_spec (store_samples (heap tr) + end_pos) MAX_SAMPLES)
      as [Hroom|Hfull]; [|simpl; lia].
    rewrite bind_ok. cbv beta iota.
    set (nd := set_is_buffer_owner (make (List.length (heap tr)) 0 end_pos) true).
    set (st := heap tr ++ [replicate (Z.to_nat end_pos) 0]).
    assert (Hnd : node_ok st nd) by (apply node_ok_fresh; lia).
    assert (Hst : store_samples st = store_samples (heap tr) + end_pos).
    { unfold st. rewrite store_samples_app. simpl.
      rewrite length_replicate. lia. }
    destruct (updateGlobalIndices_wf st [nd] 0) as [-> Hwf].
    + constructor; [assumption|constructor].
    + simpl. auto.
    + simpl. lia.
    + lia.
    + split; [exact Hwf|]. simpl. split; [lia|]. split; [|lia].
      unfold contents. simpl. rewrite app_nil_r, Z.sub_0_r.
      apply window_fresh; try reflexivity.
      simpl. rewrite length_replicate. lia.
  - rewrite <- Hhead in *.
    assert (Hlast : global_start (List.last rest first)
                    + length (List.last rest first) = total_length tr).
    { rewrite Htot, Hhead. rewrite Hhead in Hidx.
      rewrite (indexed_last 0 first rest Hidx). lia. }
    rewrite add_sz_small by zlia. rewrite Hlast.
    destruct (Z.ltb_spec (total_length tr) end_pos) as [_|?]; [|lia].
    rewrite sub_sz_small by zlia.
    set (len := end_pos - total_length tr) in *.
    rewrite alloc_spec.
    destruct (Z.ltb_spec (store_samples (heap tr) + len) MAX_SAMPLES)
      as [Hroom|Hfull]; [|simpl; lia].
    rewrite bind_ok. cbv beta iota.
    set (nd := set_is_buffer_owner
                 (set_global_start (make (List.length (heap tr)) 0 len)
                    (total_length tr)) true).
    set (st := heap tr ++ [replicate (Z.to_nat len) 0]).
    assert (Hnd : node_ok st nd) by (apply (node_ok_fresh (heap tr) len); lia).
    assert (Hst : store_samples st = store_samples (heap tr) + len).
    { unfold st. rewrite store_samples_app. simpl.
      rewrite length_replicate. lia. }
    assert (Hok' : Forall (node_ok st) (head tr)).
    { eapply Forall_impl; [|exact Hok]. intros n. apply node_ok_app. }
    destruct (updateGlobalIndices_wf st (head tr ++ [nd]) (total_length tr))
      as [-> Hwf].
    + apply Forall_app. split; [assumption|]. constructor; [assumption|constructor].
    + apply pairwise_disj_app. split; [assumption|]. split; [simpl; auto|].
      eapply Forall_impl; [|exact Hok]. intros n Hn.
      constructor; [|constructor]. apply (disj_fresh _ _ _ Hn). simpl. lia.
    + rewrite sum_lengths_app. simpl. lia.
    + lia.
    + split; [exact Hwf|]. simpl.
      rewrite sum_lengths_app. simpl. split; [lia|]. split; [|lia].
      rewrite reindex_contents, contents_app.
      unfold st. rewrite contents_app_store by assumption. f_equal.
      unfold contents. simpl. rewrite app_nil_r.
      apply window_fresh; try reflexivity.
      simpl. rewrite length_replicate. lia.
Qed.

Lemma wf_reshape tr (st : store) :
  wf tr -> shape st = shape (heap tr) ->
  wf (SoundSegment.mk st (head tr) (total_length tr)).
Proof.
  intros [Hok Hdis Hidx Htot Hfit Hmem] Hsh.
  pose proof (shape_samples _ _ Hsh) as Hsam.
  constructor; simpl; try assumption.
  - eapply Forall_node_ok_shape; eassumption.
  - lia.
  - lia.
Qed.

(** What [write] does to a well-formed track, wrap-around included: the
    track grows to [new_len], zero-filled, and as much of [src] as fits
    between [pos] and [new_len] is copied. *)
Lemma write_spec tr src pos :
  wf tr -> is_size_t pos -> is_size_t (size src) ->
  let new_len := Z.max (total_length tr) (pos ⊕ size src) in
  match write tr src pos with
  | Ok tr' =>
      wf tr'
      ∧ (size src = 0 -> tr' = tr)
      ∧ (0 < size src ->
         total_length tr' = new_len
         ∧ contents (heap tr') (head tr')
           = blit (contents (heap tr) (head tr)
                   ++ replicate (Z.to_nat (new_len - total_length tr)) 0)
               pos (slice src 0 (Z.min (size src) (new_len - pos)))
         ∧ store_samples (heap tr')
           = store_samples (heap tr) + (new_len - total_length tr))
  | Throw =>
      0 < size src
      ∧ MAX_SAMPLES <= store_samples (heap tr) + (new_len - total_length tr)
  | Undefined => False
  end.
Proof.
  intros Hwf Hpos Hsz new_len. unfold write.
  fold (size src).
  destruct (Z.eqb_spec (size src) 0) as [Hz|Hnz].
  { split; [assumption|]. split; [reflexivity|lia]. }
  assert (Hn : 0 < size src) by (unfold size in *; lia).
  pose proof (add_sz_range pos (size src)) as He.
  set (end_pos := pos ⊕ size src) in *.
  assert (Hstep :
    match (if total_length tr <? end_pos then extend tr end_pos else Ok tr) with
    | Ok tr1 =>
        wf tr1 ∧ total_length tr1 = new_len
        ∧ contents (heap tr1) (head tr1)
          = contents (heap tr) (head tr)
            ++ replicate (Z.to_nat (new_len - total_length tr)) 0
        ∧ store_samples (heap tr1)
          = store_samples (heap tr) + (new_len - total_length tr)
    | Throw =>
        MAX_SAMPLES <= store_samples (heap tr) + (new_len - total_length tr)
    | Undefined => False
    end).
  { destruct (Z.ltb_spec (total_length tr) end_pos) as [Hgrow|Hstay].
    - pose proof (extend_spec tr end_pos Hwf) as Hext.
      replace new_len with end_pos by (unfold new_len; lia).
      destruct (extend tr end_pos); apply Hext; lia.
    - replace new_len with (total_length tr) by (unfold new_len; lia).
      rewrite Z.sub_diag. simpl. rewrite app_nil_r.
      split; [assumption|]. split; [reflexivity|].
      split; [reflexivity|lia]. }
  destruct (if total_length tr <? end_pos then extend tr end_pos else Ok tr)
    as [tr1| |]; [|simpl; auto|simpl; auto].
  destruct Hstep as (Hwf1 & Htot1 & Hcont1 & Hsam1).
  rewrite bind_ok.
  pose proof Hwf1 as [Hok Hdis Hidx Htot Hfit Hmem].
  destruct (write_loop_spec (heap tr1) (head tr1) 0 src (size src) pos 0)
    as (st' & Hrun & Hsh & Hcont & _); try assumption; try zlia.
  unfold size in Hrun |- *. rewrite Hrun. rewrite bind_ok.
  split; [apply wf_reshape; assumption|].
  split; [unfold size in *; lia|]. intros _. simpl.
  split; [assumption|].
  split; [| rewrite (shape_samples _ _ Hsh); assumption].
  rewrite Hcont, Hcont1. rewrite Z.sub_0_r.
  replace (0 + sum_lengths (head tr1) - pos) with (new_len - pos) by lia.
  reflexivity.
Qed.

(** ** Deleting *)

Lemma node_ok_set_length (st : store) c len' :
  node_ok st c -> 0 < len' <= length c -> node_ok st (set_length c len').
Proof.
  intros (Hl & Ho & buf & Hb & Hw) Hlen.
  split; [simpl; lia|]. split; [assumption|].
  exists buf. simpl. split; [assumption|lia].
Qed.

Lemma window_set_length (st : store) c len' :
  0 <= len' <= length c ->
  window st (set_length c len') = take (Z.to_nat len') (window st c).
Proof.
  intros Hlen. unfold window. simpl.
  destruct (st !! data c) as [buf|]; [|rewrite take_nil; reflexivity].
  rewrite take_take. f_equal. lia.
Qed.

Lemma disj_set_length m c len' :
  0 <= len' <= length c -> disj m c -> disj m (set_length c len').
Proof. unfold disj. simpl. intros ? [?|[?|?]]; [left|right; left|right; right]; auto; lia. Qed.

Lemma disj_set_length_l m c len' :
  0 <= len' <= length c -> disj c m -> disj (set_length c len') m.
Proof. intros ? H. apply disj_sym, disj_set_length, disj_sym; assumption. Qed.

Lemma delete_within (W Fn : list Z) lo td :
  0 <= lo -> 0 < td -> lo + td < Z.of_nat (List.length W) ->
  take (Z.to_nat (Z.of_nat (List.length W) - td))
    (blit W lo (slice W (lo + td) (Z.of_nat (List.length W) - lo - td)))
  ++ Fn
  = take (Z.to_nat lo) (W ++ Fn) ++ drop (Z.to_nat (lo + td)) (W ++ Fn).
Proof.
  intros Hlo Htd Hfit.
  destruct (split3 W (Z.to_nat lo) (Z.to_nat td))
    as (A & D & R & -> & HA & HD); [lia|].
  assert (HR : Z.of_nat (List.length (A ++ D ++ R)) - lo - td
               = Z.of_nat (List.length R)) by (rewrite !length_app; lia).
  rewrite HR.
  replace (slice (A ++ D ++ R) (lo + td) (Z.of_nat (List.length R))) with R.
  2:{ rewrite (app_assoc A D R).
      replace ((A ++ D) ++ R) with ((A ++ D) ++ R ++ [])
        by (rewrite app_nil_r; reflexivity).
      symmetry. apply slice_pieces; rewrite ?length_app; lia. }
  destruct (split3 (D ++ R) (List.length R) (Z.to_nat td))
    as (X & Y & Z0 & HXY & HX & HY); [rewrite length_app; lia|].
  assert (Z0 = []) as ->.
  { apply length_zero_iff_nil.
    apply (f_equal (@List.length Z)) in HXY. rewrite !length_app in HXY. lia. }
  rewrite app_nil_r in HXY.
  replace (Z.of_nat (List.length (A ++ D ++ R)) - td)
    with (Z.of_nat (List.length (A ++ R))) by (rewrite !length_app; lia).
  rewrite HXY at 1.
  rewrite (blit_pieces A X Y R) by lia.
  rewrite (app_assoc A R Y), Nat2Z.id, take_app_length.
  rewrite <- (app_assoc A (D ++ R) Fn), <- HA, take_app_length.
  replace (Z.to_nat (lo + td)) with (List.length (A ++ D))%nat
    by (rewrite length_app; lia).
  rewrite <- (app_assoc D R Fn), (app_assoc A D (R ++ Fn)), drop_app_length.
  rewrite <- app_assoc. reflexivity.
Qed.

Lemma delete_tail (W Fn : list Z) lo td :
  0 <= lo <= Z.of_nat (List.length W) -> 0 <= td ->
  Z.of_nat (List.length W) <= lo + td ->
  take (Z.to_nat lo) (W ++ Fn) ++ drop (Z.to_nat (lo + td)) (W ++ Fn)
  = take (Z.to_nat lo) W
    ++ drop (Z.to_nat (lo + td - Z.of_nat (List.length W))) Fn.
Proof.
  intros Hlo Htd Hfit.
  rewrite take_app_le by lia. rewrite drop_app_ge by lia.
  do 2 f_equal. lia.
Qed.

Lemma delete_loop_spec (st : store) cur to_delete lo :
  Forall (node_ok st) cur -> pairwise_disj cur ->
  store_samples st < MAX_SAMPLES ->
  0 <= to_delete <= SIZE_MAX ->
  match cur with c :: _ => 0 <= lo < length c | [] => True end ->
  ∃ st' cur', delete_loop st cur to_delete lo = Ok (st', cur')
    ∧ shape st' = shape st
    ∧ Forall (node_ok st') cur' ∧ pairwise_disj cur'
    ∧ contents st' cur'
      = take (Z.to_nat lo) (contents st cur)
        ++ drop (Z.to_nat (lo + to_delete)) (contents st cur)
    ∧ ∀ m, node_ok st m -> Forall (disj m) cur ->
           window st' m = window st m ∧ Forall (disj m) cur'.
Proof.
  intros Hok. revert st Hok to_delete lo.
  induction cur as [|c cur IH]; intros st Hok to_delete lo Hdis Hmem Htd Hlo;
    simpl.
  { exists st, []. repeat split; auto.
    unfold contents. simpl. rewrite take_nil, drop_nil. reflexivity. }
  inversion Hok as [|? ? Hc Hok']; subst.
  destruct Hdis as [Hdc Hdis].
  pose proof (window_length _ _ Hc) as HW.
  pose proof (node_ok_fits _ _ Hc) as Hcfit.
  pose proof Hc as (Hl & Ho & buf & Hbuf & Hw).
  destruct (Z.ltb_spec 0 to_delete) as [Hpos|Hzero].
  2:{ exists st, (c :: cur). repeat split; auto; try (constructor; assumption).
      replace (lo + to_delete) with lo by lia. symmetry. apply take_drop. }
  rewrite (sub_sz_small (length c)) by zlia.
  destruct (Z.ltb_spec to_delete (length c - lo)) as [Hin|Hover].
  - (* the range ends inside [c] *)
    rewrite (sub_sz_small (length c - lo)) by zlia.
    rewrite (sub_sz_small (length c)) by zlia.
    rewrite (store_memmove_ok _ _ buf) by (try assumption; lia).
    rewrite bind_ok.
    set (s := slice buf (offset c + lo + to_delete) (length c - lo - to_delete)).
    assert (Hs : Z.of_nat (List.length s) = length c - lo - to_delete)
      by (apply slice_length; lia).
    set (st' := poke st (data c) (offset c + lo) s).
    assert (Hsh : shape st' = shape st)
      by (apply shape_poke_in; [assumption|lia|lia]).
    set (c' := set_length c (length c - to_delete)).
    assert (Hc' : node_ok st c') by (apply node_ok_set_length; [assumption|lia]).
    exists st', (c' :: cur).
    split; [reflexivity|]. split; [assumption|].
    split; [constructor;
            [apply (node_ok_shape _ _ _ Hsh Hc')
            |apply (Forall_node_ok_shape _ _ _ Hsh Hok')]|].
    split.
    { split; [|assumption].
      eapply Forall_impl; [|exact Hdc]. intros m.
      apply disj_set_length_l. lia. }
    split.
    + rewrite !contents_cons. unfold c'.
      rewrite window_set_length by lia.
      unfold st' at 1. rewrite window_poke_same by (try assumption; lia).
      unfold st'. rewrite contents_poke_frame;
        [| assumption | lia | lia | assumption
         | apply Forall_disj_sym; assumption].
      unfold s.
      replace (offset c + lo + to_delete) with (offset c + (lo + to_delete))
        by lia.
      rewrite <- (window_sub_slice st c buf (lo + to_delete))
        by (try assumption; lia).
      rewrite <- HW. apply delete_within; lia.
    + intros m Hm Hdm. inversion Hdm as [|? ? Hd1 Hd2]; subst. split.
      * apply window_poke_disj; try assumption; lia.
      * constructor; [|assumption]. apply disj_set_length; [lia|assumption].
  - (* the range reaches the end of [c] *)
    rewrite (sub_sz_small to_delete) by zlia.
    set (td' := to_delete - (length c - lo)).
    assert (Hhead : match cur with c0 :: _ => 0 <= 0 < length c0 | [] => True end).
    { destruct cur as [|c0 cur0]; [exact I|].
      inversion Hok' as [|? ? (? & _) _]; subst. lia. }
    simpl.
    destruct (Z.eqb_spec lo 0) as [Hlo0|Hlo0].
    + (* [c] is unlinked *)
      destruct (IH st Hok' td' 0) as (st' & cur' & Hrun & Hsh & Hok1 & Hdis1
                                      & Hcont & Hframe);
        try assumption; try (unfold td'; lia).
      exists st', cur'. split; [exact Hrun|]. split; [assumption|].
      split; [assumption|]. split; [assumption|]. split.
      * rewrite Hcont, contents_cons. subst lo.
        rewrite (delete_tail (window st c) (contents st cur) 0 to_delete)
          by lia.
        simpl. f_equal. unfold td'. lia.
      * intros m Hm Hdm. inversion Hdm; subst. apply Hframe; assumption.
    + set (c' := set_length c lo).
      assert (Hc' : node_ok st c')
        by (apply node_ok_set_length; [assumption|lia]).
      assert (Hdc' : Forall (disj c') cur).
      { eapply Forall_impl; [|exact Hdc]. intros m.
        apply disj_set_length_l. lia. }
      assert (Hwc' : window st c' = take (Z.to_nat lo) (window st c))
        by (apply window_set_length; lia).
      destruct (Z.ltb_spec 0 td') as [Hmore|Hdone].
      * destruct (IH st Hok' td' 0) as (st' & cur' & Hrun & Hsh & Hok1 & Hdis1
                                        & Hcont & Hframe);
          try assumption; try (unfold td'; lia).
        rewrite Hrun, bind_ok.
        destruct (Hframe c' Hc' Hdc') as [Hw' Hd'].
        exists st', (c' :: cur'). split; [reflexivity|].
        split; [assumption|].
        split; [constructor; [apply (node_ok_shape _ _ _ Hsh Hc')|assumption]|].
        split; [split; assumption|]. split.
        -- rewrite !contents_cons, Hw', Hwc', Hcont. simpl.
           rewrite (delete_tail (window st c) (contents st cur) lo to_delete)
             by lia.
           f_equal. f_equal. unfold td'. lia.
        -- intros m Hm Hdm. inversion Hdm as [|? ? Hd1 Hd2]; subst.
           destruct (Hframe m Hm Hd2) as [? ?]. split; [assumption|].
           constructor; [|assumption]. apply disj_set_length; [lia|assumption].
      * exists st, (c' :: cur). split; [reflexivity|]. split; [reflexivity|].
        split; [constructor; assumption|]. split; [split; assumption|]. split.
        -- rewrite !contents_cons, Hwc'.
           rewrite (delete_tail (window st c) (contents st cur) lo to_delete)
             by lia.
           f_equal. replace (lo + to_delete - Z.of_nat (List.length (window st c)))
             with 0 by (unfold td' in *; lia).
           reflexivity.
        -- intros m Hm Hdm. inversion Hdm as [|? ? Hd1 Hd2]; subst.
           split; [reflexivity|].
           constructor; [|assumption]. apply disj_set_length; [lia|assumption].
Qed.

Lemma Exists_iff_Forall {A} (P Q : A -> Prop) l :
  Forall (fun x => P x <-> Q x) l -> (Exists P l <-> Exists Q l).
Proof.
  induction 1 as [|x l Hx _ IH]; [split; inversion 1|].
  rewrite !Exists_cons. tauto.
Qed.

Lemma indexed_lower (st : store) base l :
  Forall (node_ok st) l -> indexed_from base l ->
  Forall (fun n => base <= global_start n) l.
Proof.
  intros Hok. revert base.
  induction Hok as [|n l Hn _ IH]; intros base Hidx; [constructor|].
  destruct Hidx as [Hg Hidx]. destruct Hn as (Hl & _).
  constructor; [lia|].
  eapply Forall_impl; [|apply (IH _ Hidx)]. simpl. intros. lia.
Qed.

Lemma indexed_upper (st : store) base l :
  Forall (node_ok st) l -> indexed_from base l ->
  Forall (fun n => global_start n + length n <= base + sum_lengths l) l.
Proof.
  intros Hok. revert base.
  induction Hok as [|n l Hn Hok IH]; intros base Hidx; [constructor|].
  destruct Hidx as [Hg Hidx]. destruct Hn as (Hl & _).
  pose proof (sum_lengths_nonneg _ _ Hok).
  constructor; [simpl; lia|].
  eapply Forall_impl; [|apply (IH _ Hidx)]. simpl. intros. lia.
Qed.

(** The first pass refuses exactly when a touched node has a live child. *)
Lemma check_children_spec (st : store) cur base to_check lo :
  Forall (node_ok st) cur -> indexed_from base cur ->
  0 <= base -> base + sum_lengths cur <= SIZE_MAX ->
  0 <= to_check <= SIZE_MAX ->
  match cur with c :: _ => 0 <= lo < length c | [] => True end ->
  check_children cur to_check lo = true
  <-> Exists (blocks (base + lo) to_check) cur.
Proof.
  intros Hok. revert base to_check lo.
  induction Hok as [|c cur Hc Hok IH]; intros base to_check lo Hidx Hb Hs Htc Hlo;
    simpl.
  { split; [discriminate|inversion 1]. }
  destruct Hidx as [Hg Hidx]. pose proof Hc as (Hl & _).
  pose proof (sum_lengths_nonneg _ _ Hok) as Hnn. simpl in Hs.
  pose proof (indexed_lower _ _ _ Hok Hidx) as Hlow.
  destruct (Z.ltb_spec 0 to_check) as [Hpos|Hzero].
  2:{ split; [discriminate|]. intros H. apply Exists_exists in H.
      destruct H as (n & _ & (? & _) & _). lia. }
  destruct (hasActiveChildren c) eqn:Hact.
  { split; [intros _|reflexivity]. apply Exists_cons_hd.
    split; [|assumption]. unfold touched. lia. }
  rewrite (sub_sz_small (length c)) by zlia.
  assert (Hnotc : ¬ blocks (base + lo) to_check c)
    by (intros [_ H]; congruence).
  destruct (Z.ltb_spec (length c - lo) to_check) as [Hmore|Hdone].
  - rewrite (sub_sz_small to_check) by zlia.
    rewrite (IH (base + length c)); try assumption; try lia.
    2:{ destruct cur as [|c0 cur0]; [exact I|].
        inversion Hok as [|? ? (? & _) _]; subst. lia. }
    rewrite Exists_cons.
    rewrite (Exists_iff_Forall (blocks (base + lo) to_check)
               (blocks (base + length c + 0) (to_check - (length c - lo)))).
    { tauto. }
    rewrite Forall_forall in Hlow, Hok |- *. intros n Hn.
    specialize (Hlow n Hn). destruct (Hok n Hn) as (Hln & _).
    unfold blocks, touched. split; intros [(? & ? & ?) ?]; repeat split;
      try assumption; lia.
  - split; [discriminate|]. rewrite Exists_cons. intros [H|H]; [tauto|].
    apply Exists_exists in H. destruct H as (n & Hn & (_ & ? & _) & _).
    rewrite Forall_forall in Hlow. specialize (Hlow n Hn). lia.
Qed.

Lemma contents_ext (st st' : store) l :
  Forall (fun m => window st' m = window st m) l ->
  contents st' l = contents st l.
Proof.
  induction 1 as [|m l Hm _ IH]; [reflexivity|].
  rewrite !contents_cons, Hm, IH. reflexivity.
Qed.

Lemma take_drop_app_shift (F1 F2 : buffer) lo td :
  0 <= lo -> 0 <= td ->
  take (Z.to_nat (Z.of_nat (List.length F1) + lo)) (F1 ++ F2)
  ++ drop (Z.to_nat (Z.of_nat (List.length F1) + lo + td)) (F1 ++ F2)
  = F1 ++ take (Z.to_nat lo) F2 ++ drop (Z.to_nat (lo + td)) F2.
Proof.
  intros Hlo Htd.
  rewrite take_app, drop_app.
  rewrite take_ge by lia. rewrite drop_ge by lia. simpl.
  rewrite <- app_assoc. do 2 f_equal; f_equal; lia.
Qed.

Lemma deleteRange_spec tr pos len :
  wf tr -> is_size_t pos -> is_size_t len ->
  match deleteRange tr pos len with
  | Ok (true, tr') =>
      wf tr' ∧ pos ⊕ len <= total_length tr
      ∧ ¬ Exists (blocks pos len) (head tr)
      ∧ contents (heap tr') (head tr')
        = take (Z.to_nat pos) (contents (heap tr) (head tr))
          ++ drop (Z.to_nat (pos + len)) (contents (heap tr) (head tr))
  | Ok (false, tr') =>
      tr' = tr
      ∧ (total_length tr < pos ⊕ len ∨ Exists (blocks pos len) (head tr))
  | Throw | Undefined => False
  end.
Proof.
  intros Hwf Hpos Hlen. pose proof Hwf as [Hok Hdis Hidx Htot Hfit Hmem].
  pose proof (sum_lengths_nonneg _ _ Hok) as Hnn.
  unfold deleteRange.
  destruct (Z.ltb_spec (total_length tr) (pos ⊕ len)) as [Hout|Hin].
  { split; [reflexivity|]. left. assumption. }
  pose proof (findSegmentAt_from_spec (heap tr) [] (head tr) 0 pos Hok Hidx)
    as Hfind.
  unfold findSegmentAt.
  destruct (findSegmentAt_from [] (head tr) pos) as [[[[b c] nx] lo]|].
  - destruct Hfind as (mid & Hhead & -> & -> & Hlo); try zlia.
    simpl app. rewrite Hhead in *.
    apply Forall_app in Hok. destruct Hok as [Hokm Hokc].
    apply pairwise_disj_app in Hdis. destruct Hdis as (Hdm & Hdc & Hcross).
    apply indexed_from_app in Hidx. destruct Hidx as [Hidxm Hidxc].
    rewrite sum_lengths_app in *.
    pose proof (sum_lengths_nonneg _ _ Hokm) as Hnm.
    pose proof (sum_lengths_nonneg _ _ Hokc) as Hnc.
    pose proof (indexed_upper _ _ _ Hokm Hidxm) as Hup.
    assert (Hblocks : Exists (blocks pos len) (mid ++ c :: nx)
                      <-> Exists (blocks pos len) (c :: nx)).
    { rewrite Exists_app. split; [|tauto]. intros [H|H]; [|assumption].
      apply Exists_exists in H. destruct H as (n & Hn & (_ & _ & ?) & _).
      rewrite Forall_forall in Hup. specialize (Hup n Hn). lia. }
    pose proof (check_children_spec (heap tr) (c :: nx) (0 + sum_lengths mid)
                  len (pos - (0 + sum_lengths mid)) Hokc Hidxc) as Hchk.
    replace (0 + sum_lengths mid + (pos - (0 + sum_lengths mid))) with pos
      in Hchk by lia.
    specialize (Hchk ltac:(lia) ltac:(zlia) ltac:(zlia) Hlo).
    destruct (check_children (c :: nx) len (pos - (0 + sum_lengths mid))).
    { split; [reflexivity|]. right. apply Hblocks, Hchk. reflexivity. }
    destruct (delete_loop_spec (heap tr) (c :: nx) len
                (pos - (0 + sum_lengths mid)))
      as (st' & cur' & Hrun & Hsh & Hok' & Hdis' & Hcont & Hframe);
      try assumption; try zlia.
    rewrite Hrun, bind_ok. cbv beta iota.
    assert (Hmid : Forall (fun m => window st' m = window (heap tr) m
                                    ∧ Forall (disj m) cur') mid).
    { rewrite Forall_forall in Hokm, Hcross |- *. intros m Hm.
      apply Hframe; auto. }
    assert (Hcm : contents st' mid = contents (heap tr) mid).
    { apply contents_ext. eapply Forall_impl; [|exact Hmid]. simpl. tauto. }
    assert (Hsum : sum_lengths cur' <= sum_lengths (c :: nx)).
    { rewrite <- (contents_length _ _ Hok'), <- (contents_length _ _ Hokc).
      rewrite Hcont. rewrite length_app, length_take, length_drop. zlia. }
    destruct (updateGlobalIndices_wf st' (mid ++ cur') (total_length tr))
      as [-> Hwf'].
    + apply Forall_app. split; [|assumption].
      eapply Forall_node_ok_shape; eassumption.
    + apply pairwise_disj_app. split; [assumption|]. split; [assumption|].
      eapply Forall_impl; [|exact Hmid]. simpl. tauto.
    + rewrite sum_lengths_app, (shape_samples _ _ Hsh). lia.
    + rewrite (shape_samples _ _ Hsh). assumption.
    + split; [exact Hwf'|]. split; [lia|]. split.
      { intros H. apply Hblocks, Hchk in H. discriminate. }
      simpl. rewrite reindex_contents, !contents_app, Hcm, Hcont.
      pose proof (contents_length _ _ Hokm) as HLm.
      replace pos with (Z.of_nat (List.length (contents (heap tr) mid))
                        + (pos - (0 + sum_lengths mid))) at 3 4 by lia.
      rewrite take_drop_app_shift by zlia. reflexivity.
  - specialize (Hfind ltac:(lia) ltac:(zlia) ltac:(zlia)).
    simpl. rewrite app_nil_r.
    destruct (updateGlobalIndices_wf (heap tr) (head tr) (total_length tr))
      as [-> Hwf']; try assumption.
    split; [exact Hwf'|]. split; [lia|]. split.
    + intros H. apply Exists_exists in H.
      destruct H as (n & Hn & (_ & _ & ?) & _).
      pose proof (indexed_upper _ _ _ Hok Hidx) as Hup.
      rewrite Forall_forall in Hup. specialize (Hup n Hn). lia.
    + simpl. rewrite reindex_contents.
      pose proof (contents_length _ _ Hok) as HL.
      rewrite take_ge by lia. rewrite drop_ge by zlia.
      rewrite app_nil_r. reflexivity.
Qed.

(** ** Inserting *)

Lemma poke_fresh (st : store) z s :
  List.length s = List.length z ->
  poke (st ++ [z]) (List.length st) 0 s = st ++ [s].
Proof.
  intros H. unfold poke. rewrite list_lookup_middle by reflexivity.
  rewrite blit_full by assumption.
  replace (List.length st) with (List.length st + 0)%nat at 1 by lia.
  rewrite insert_app_r. reflexivity.
Qed.

Lemma sum_lengths_zero_nil (st : store) l :
  Forall (node_ok st) l -> sum_lengths l <= 0 -> l = [].
Proof.
  intros Hok H. destruct Hok as [|n l (Hl & _) Hok]; [reflexivity|].
  pose proof (sum_lengths_nonneg _ _ Hok). simpl in H. lia.
Qed.

Lemma slice_contents_node (st : store) mid c nx lo n :
  Forall (node_ok st) (mid ++ c :: nx) ->
  0 <= lo -> 0 <= n -> lo + n <= length c ->
  slice (contents st (mid ++ c :: nx)) (sum_lengths mid + lo) n
  = slice (window st c) lo n.
Proof.
  intros Hok Hlo Hn Hfit.
  apply Forall_app in Hok. destruct Hok as [Hokm Hokc].
  inversion Hokc as [|? ? Hc _]; subst.
  pose proof (contents_length _ _ Hokm) as HLm.
  pose proof (window_length _ _ Hc) as HW.
  rewrite contents_app, contents_cons.
  rewrite slice_app_r by lia.
  replace (sum_lengths mid + lo - Z.of_nat (List.length (contents st mid)))
    with lo by lia.
  apply slice_app_l; lia.
Qed.

Lemma build_insertion_spec fuel src (st : store) insertion remaining cg :
  wf src -> store_samples st < MAX_SAMPLES ->
  0 <= remaining <= SIZE_MAX -> is_size_t cg ->
  (Z.to_nat remaining <= fuel)%nat ->
  let avail := Z.max 0 (Z.min remaining (total_length src - cg)) in
  match build_insertion fuel src st insertion remaining cg with
  | Ok (st', out) =>
      ∃ ext news, st' = st ++ ext ∧ out = insertion ++ news
        ∧ Forall (node_ok st') news ∧ pairwise_disj news
        ∧ Forall (fun n => (List.length st <= data n)%nat) news
        ∧ contents st' news
          = slice (contents (heap src) (head src)) cg avail
        ∧ store_samples st' = store_samples st + avail
        ∧ store_samples st' < MAX_SAMPLES
  | Throw => MAX_SAMPLES <= store_samples st + avail
  | Undefined => False
  end.
Proof.
  intros Hwf. pose proof Hwf as [Hok Hdis Hidx Htot Hfit Hmem].
  pose proof (sum_lengths_nonneg _ _ Hok) as Hnn.
  revert st insertion remaining cg.
  assert (Hstop : ∀ (st : store) insertion remaining cg,
    store_samples st < MAX_SAMPLES ->
    Z.max 0 (Z.min remaining (total_length src - cg)) = 0 ->
    ∃ ext news : list _, st = st ++ ext ∧ insertion = insertion ++ news
      ∧ Forall (node_ok st) news ∧ pairwise_disj news
      ∧ Forall (fun n => (List.length st <= data n)%nat) news
      ∧ contents st news
        = slice (contents (heap src) (head src)) cg
            (Z.max 0 (Z.min remaining (total_length src - cg)))
      ∧ store_samples st
        = store_samples st + Z.max 0 (Z.min remaining (total_length src - cg))
      ∧ store_samples st < MAX_SAMPLES).
  { intros st insertion remaining cg Hm Hz. exists [], [].
    rewrite !app_nil_r, Hz. repeat split; auto; try constructor. lia. }
  induction fuel as [|fuel IH]; intros st insertion remaining cg Hm Hrem Hcg Hfuel;
    simpl.
  { apply Hstop; [assumption|lia]. }
  destruct (Z.ltb_spec 0 remaining) as [Hpos|Hzero];
    [|apply Hstop; [assumption|lia]].
  pose proof (findSegmentAt_from_spec (heap src) [] (head src) 0 cg Hok Hidx)
    as Hfind.
  unfold findSegmentAt.
  destruct (findSegmentAt_from [] (head src) cg) as [[[[b c] nx] lo]|];
    [|apply Hstop; [assumption|zlia]].
  destruct Hfind as (mid & Hhead & _ & -> & Hlo); try zlia.
  assert (Hokc : node_ok (heap src) c).
  { rewrite Hhead in Hok. apply Forall_app in Hok. destruct Hok as [_ Hok].
    inversion Hok; assumption. }
  pose proof (node_ok_fits _ _ Hokc) as Hcfit.
  pose proof Hokc as (Hl & Ho & buf & Hbuf & Hw).
  assert (Hsum : sum_lengths (head src)
                 = sum_lengths mid + length c + sum_lengths nx).
  { rewrite Hhead, sum_lengths_app. simpl. lia. }
  assert (Hnm : 0 <= sum_lengths mid).
  { rewrite Hhead in Hok. apply Forall_app in Hok. destruct Hok as [Hokm _].
    apply (sum_lengths_nonneg _ _ Hokm). }
  assert (Hnx : 0 <= sum_lengths nx).
  { rewrite Hhead in Hok. apply Forall_app in Hok. destruct Hok as [_ Hokn].
    inversion Hokn; subst. eapply sum_lengths_nonneg; eassumption. }
  rewrite (sub_sz_small (length c)) by zlia.
  set (lo := cg - (0 + sum_lengths mid)) in *.
  set (tk := Z.min (length c - lo) remaining).
  assert (Htk : 0 < tk <= remaining ∧ tk <= length c - lo) by (unfold tk; lia).
  rewrite alloc_spec.
  destruct (Z.ltb_spec (store_samples st + tk) MAX_SAMPLES) as [Hroom|Hfull];
    [|simpl; lia].
  rewrite bind_ok. cbv beta iota. rewrite Hbuf.
  set (z := replicate (Z.to_nat tk) 0).
  set (s := slice buf (offset c + lo) tk).
  assert (Hs : Z.of_nat (List.length s) = tk) by (apply slice_length; lia).
  rewrite (store_memcpy_ok _ _ z);
    [| apply list_lookup_middle; reflexivity | lia | lia | lia
     | unfold z; rewrite length_replicate; lia | lia].
  fold s. rewrite bind_ok.
  rewrite poke_fresh by (unfold z; rewrite length_replicate; lia).
  rewrite (sub_sz_small remaining) by zlia.
  rewrite (add_sz_small cg) by zlia.
  set (clone := set_is_buffer_owner (createSegment (List.length st) 0 tk) true).
  assert (Hst2 : store_samples (st ++ [s]) = store_samples st + tk).
  { rewrite store_samples_app. simpl. lia. }
  specialize (IH (st ++ [s]) (insertion ++ [clone]) (remaining - tk) (cg + tk)).
  assert (Hav : Z.max 0 (Z.min remaining (total_length src - cg))
                = tk + Z.max 0 (Z.min (remaining - tk)
                                  (total_length src - (cg + tk))))
    by (unfold tk, lo in *; lia).
  destruct (build_insertion fuel src (st ++ [s]) (insertion ++ [clone])
              (remaining - tk) (cg + tk)) as [[st' out]| |].
  - destruct IH as (ext & news & -> & -> & Hokn & Hdn & Hfresh & Hcont
                    & Hsam & Hmem'); try zlia.
    rewrite <- (app_assoc st [s] ext) in *.
    exists ([s] ++ ext), (clone :: news).
    split; [reflexivity|].
    split; [rewrite <- app_assoc; reflexivity|].
    assert (Hclone : node_ok (st ++ [s] ++ ext) clone).
    { rewrite (app_assoc st [s] ext). apply node_ok_app.
      split; [simpl; lia|]. split; [simpl; lia|].
      exists s. simpl. split; [apply list_lookup_middle; reflexivity|lia]. }
    split; [constructor; assumption|].
    split.
    { split; [|assumption].
      eapply Forall_impl; [|exact Hfresh]. intros n Hn. left. simpl.
      rewrite length_app in Hn. simpl in Hn. lia. }
    split.
    { constructor; [simpl; lia|].
      eapply Forall_impl; [|exact Hfresh]. intros n Hn.
      rewrite length_app in Hn. simpl in Hn |- *. lia. }
    split.
    { rewrite contents_cons, Hcont, Hav.
      rewrite slice_split by lia. f_equal.
      replace (window (st ++ [s] ++ ext) clone) with s.
      2:{ symmetry. rewrite (app_assoc st [s] ext).
          rewrite window_app.
          - apply window_fresh; simpl; [reflexivity|reflexivity|lia].
          - split; [simpl; lia|]. split; [simpl; lia|].
            exists s. simpl. split; [apply list_lookup_middle; reflexivity|lia]. }
      unfold s. rewrite <- (window_sub_slice (heap src) c buf lo tk)
        by (try assumption; lia).
      rewrite Hhead. replace cg with (sum_lengths mid + lo) by (unfold lo; lia).
      symmetry. apply slice_contents_node; try lia.
      rewrite <- Hhead. assumption. }
    split; [lia|]. assumption.
  - specialize (IH ltac:(lia) ltac:(zlia) ltac:(zlia) ltac:(lia)).
    cbv zeta in IH. lia.
  - apply IH; zlia.
Qed.

Lemma disj_sub m c c' :
  data c' = data c -> offset c <= offset c' ->
  offset c' + length c' <= offset c + length c ->
  disj m c -> disj m c'.
Proof.
  unfold disj. intros -> ? ? [?|[?|?]]; [left; assumption|right; lia..].
Qed.

Lemma window_right (st : store) c lo :
  0 <= offset c -> 0 <= lo <= length c ->
  window st (set_global_start
               (make (data c) (offset c + lo) (length c - lo))
               (global_start c + lo))
  = drop (Z.to_nat lo) (window st c).
Proof.
  intros Ho Hlo. unfold window. simpl.
  destruct (st !! data c) as [buf|]; [|rewrite drop_nil; reflexivity].
  replace (Z.to_nat (length c))
    with (Z.to_nat lo + Z.to_nat (length c - lo))%nat by lia.
  rewrite <- take_drop_commute, drop_drop.
  do 2 f_equal. lia.
Qed.

Lemma take_app_shift (F1 F2 : buffer) lo :
  0 <= lo ->
  take (Z.to_nat (Z.of_nat (List.length F1) + lo)) (F1 ++ F2)
  = F1 ++ take (Z.to_nat lo) F2.
Proof.
  intros. rewrite take_app, take_ge by lia. do 2 f_equal. lia.
Qed.

Lemma drop_app_shift (F1 F2 : buffer) lo :
  0 <= lo ->
  drop (Z.to_nat (Z.of_nat (List.length F1) + lo)) (F1 ++ F2)
  = drop (Z.to_nat lo) F2.
Proof.
  intros. rewrite drop_app, drop_ge by lia. simpl. f_equal. lia.
Qed.

Lemma find_dest_spec tr dest_pos before dest_chain :
  wf tr -> is_size_t dest_pos ->
  find_dest tr dest_pos = (before, dest_chain) ->
  Forall (node_ok (heap tr)) (before ++ dest_chain)
  ∧ pairwise_disj (before ++ dest_chain)
  ∧ sum_lengths (before ++ dest_chain) = sum_lengths (head tr)
  ∧ contents (heap tr) before
    = take (Z.to_nat dest_pos) (contents (heap tr) (head tr))
  ∧ contents (heap tr) dest_chain
    = drop (Z.to_nat dest_pos) (contents (heap tr) (head tr))
  ∧ (dest_chain = [] <-> total_length tr <= dest_pos).
Proof.
  intros Hwf Hpos. pose proof Hwf as [Hok Hdis Hidx Htot Hfit Hmem].
  pose proof (sum_lengths_nonneg _ _ Hok) as Hnn.
  pose proof (contents_length _ _ Hok) as HL.
  unfold find_dest, findSegmentAt.
  pose proof (findSegmentAt_from_spec (heap tr) [] (head tr) 0 dest_pos Hok Hidx)
    as Hfind.
  destruct (findSegmentAt_from [] (head tr) dest_pos) as [[[[b c] nx] lo]|].
  2:{ specialize (Hfind ltac:(lia) ltac:(zlia) ltac:(zlia)).
      intros [= <- <-]. rewrite app_nil_r.
      split; [assumption|]. split; [assumption|]. split; [reflexivity|].
      split; [rewrite take_ge by lia; reflexivity|].
      split; [rewrite drop_ge by lia; reflexivity|].
      split; [lia|reflexivity]. }
  destruct Hfind as (mid & Hhead & -> & -> & Hlo); try zlia.
  simpl app. rewrite Hhead in *.
  pose proof Hok as Hok0.
  apply Forall_app in Hok. destruct Hok as [Hokm Hokc].
  inversion Hokc as [|? ? Hc Hokn]; subst.
  pose proof Hdis as Hdis0.
  apply pairwise_disj_app in Hdis. destruct Hdis as (Hdm & [Hdcn Hdn] & Hcross).
  rewrite sum_lengths_app in *. simpl in Htot, Hfit, Hnn.
  pose proof (sum_lengths_nonneg _ _ Hokm) as Hnm.
  pose proof (sum_lengths_nonneg _ _ Hokn) as Hnx.
  pose proof (contents_length _ _ Hokm) as HLm.
  pose proof (window_length _ _ Hc) as HW.
  pose proof (node_ok_fits _ _ Hc) as Hcfit.
  pose proof Hc as (Hl & Ho & buf & Hbuf & Hw).
  set (lo := dest_pos - (0 + sum_lengths mid)) in *.
  assert (Hdp : dest_pos = Z.of_nat (List.length (contents (heap tr) mid)) + lo)
    by (unfold lo; lia).
  assert (Hlo' : lo = dest_pos - sum_lengths mid) by (unfold lo; lia).
  clearbody lo.
  destruct (Z.ltb_spec 0 lo) as [Hin|Hat].
  - unfold splitNode.
    destruct (Z.leb_spec (length c) lo) as [?|_]; [lia|].
    rewrite (add_sz_small (offset c)) by zlia.
    rewrite (sub_sz_small (length c)) by zlia.
    assert (Hgs : global_start c = 0 + sum_lengths mid).
    { apply indexed_from_app in Hidx. destruct Hidx as [_ [Hg _]]. exact Hg. }
    rewrite (add_sz_small (global_start c)) by zlia.
    set (cl := set_length c lo).
    set (cr := set_global_start (make (data c) (offset c + lo) (length c - lo))
                 (global_start c + lo)).
    intros [= <- <-].
    assert (Hcl : node_ok (heap tr) cl)
      by (apply node_ok_set_length; [assumption|lia]).
    assert (Hcr : node_ok (heap tr) cr).
    { split; [simpl; lia|]. split; [simpl; lia|].
      exists buf. simpl. split; [assumption|lia]. }
    assert (Hsubl : ∀ m, disj m c -> disj m cl)
      by (intros m; apply disj_sub; simpl; lia).
    assert (Hsubr : ∀ m, disj m c -> disj m cr)
      by (intros m; apply disj_sub; simpl; lia).
    rewrite <- !app_assoc. simpl app.
    split.
    { apply Forall_app. split; [assumption|].
      constructor; [assumption|]. constructor; assumption. }
    split.
    { apply pairwise_disj_app. split; [assumption|]. split.
      - simpl. split.
        + constructor; [right; left; simpl; lia|].
          eapply Forall_impl; [|exact Hdcn]. intros m Hm.
          apply disj_sym, Hsubl, disj_sym, Hm.
        + split; [|assumption].
          eapply Forall_impl; [|exact Hdcn]. intros m Hm.
          apply disj_sym, Hsubr, disj_sym, Hm.
      - eapply Forall_impl; [|exact Hcross]. intros m Hm.
        pose proof (Forall_inv Hm) as Hmc.
        pose proof (Forall_inv_tail Hm) as Hmn.
        constructor; [auto|]. constructor; [auto|assumption]. }
    split; [rewrite !sum_lengths_app; simpl; lia|].
    rewrite !contents_app, !contents_cons. rewrite Hdp.
    rewrite take_app_shift, drop_app_shift by lia.
    unfold cl, cr. rewrite window_set_length, window_right by lia.
    split; [f_equal; unfold contents; simpl; rewrite app_nil_r;
            rewrite take_app_le by lia; reflexivity|].
    split; [rewrite drop_app_le by lia; reflexivity|].
    split; [discriminate|lia].
  - intros [= <- <-].
    split; [assumption|]. split; [assumption|].
    split; [rewrite sum_lengths_app; reflexivity|].
    rewrite !contents_app, !contents_cons.
    assert (Hdp0 : dest_pos = Z.of_nat (List.length (contents (heap tr) mid)))
      by lia.
    rewrite Hdp0, Nat2Z.id.
    rewrite take_app_length, drop_app_length.
    split; [reflexivity|]. split; [reflexivity|].
    split; [discriminate|lia].
Qed.

Lemma disj_old_new (st : store) a b :
  node_ok st a -> (List.length st <= data b)%nat -> disj a b ∧ disj b a.
Proof.
  intros Ha Hb. pose proof (node_ok_data_lt _ _ Ha).
  split; left; lia.
Qed.

Lemma pairwise_disj_insert (st : store) l1 l2 news :
  pairwise_disj (l1 ++ l2) -> Forall (node_ok st) (l1 ++ l2) ->
  pairwise_disj news ->
  Forall (fun n => (List.length st <= data n)%nat) news ->
  pairwise_disj (l1 ++ news ++ l2).
Proof.
  intros Hd Hok Hdn Hfresh.
  apply pairwise_disj_app in Hd. destruct Hd as (Hd1 & Hd2 & Hcross).
  apply Forall_app in Hok. destruct Hok as [Hok1 Hok2].
  apply pairwise_disj_app. split; [assumption|]. split.
  - apply pairwise_disj_app. split; [assumption|]. split; [assumption|].
    rewrite Forall_forall in Hfresh |- *. intros a Ha.
    rewrite Forall_forall in Hok2 |- *. intros b Hb.
    apply (disj_old_new st b a); auto.
  - rewrite Forall_forall in Hcross, Hok1 |- *. intros a Ha.
    apply Forall_app. split; [|auto].
    rewrite Forall_forall in Hfresh |- *. intros b Hb.
    apply (disj_old_new st a b); auto.
Qed.

(** What [insert] does to a well-formed destination: [avail] samples of
    the source are spliced in at [dest_pos] (at the end when [dest_pos] is
    past it); when the source supplies none and [dest_pos] lies inside the
    destination, the relinking goes through a null [insertion_tail]. *)
Lemma insert_spec tr src dest_pos src_pos len :
  wf tr -> wf src ->
  is_size_t dest_pos -> is_size_t src_pos -> is_size_t len ->
  let avail := Z.max 0 (Z.min len (total_length src - src_pos)) in
  match insert tr src dest_pos src_pos len with
  | Ok tr' =>
      wf tr'
      ∧ contents (heap tr') (head tr')
        = take (Z.to_nat dest_pos) (contents (heap tr) (head tr))
          ++ slice (contents (heap src) (head src)) src_pos avail
          ++ drop (Z.to_nat dest_pos) (contents (heap tr) (head tr))
      ∧ (len = 0 ∨ 0 < avail ∨ total_length tr <= dest_pos)
  | Throw => 0 < len ∧ MAX_SAMPLES <= store_samples (heap tr) + avail
  | Undefined => 0 < len ∧ avail = 0 ∧ dest_pos < total_length tr
  end.
Proof.
  intros Hwf Hwfs Hdp Hsp Hlen avail. unfold insert.
  pose proof Hwf as [Hok Hdis Hidx Htot Hfit Hmem].
  destruct (Z.eqb_spec len 0) as [Hz|Hnz].
  { split; [assumption|]. split; [|left; assumption].
    unfold avail. rewrite slice_nonpos by lia. simpl.
    symmetry. apply take_drop. }
  assert (Hpos : 0 < len) by zlia.
  pose proof (build_insertion_spec (Z.to_nat len) src (heap tr) [] len src_pos
                Hwfs Hmem ltac:(zlia) Hsp ltac:(lia)) as Hbuild.
  cbv zeta in Hbuild. fold avail in Hbuild.
  destruct (build_insertion (Z.to_nat len) src (heap tr) [] len src_pos)
    as [[st' out]| |]; [|simpl; auto|simpl; contradiction].
  destruct Hbuild as (ext & news & -> & -> & Hokn & Hdn & Hfresh & Hcont
                      & Hsam & Hmem').
  rewrite bind_ok. cbv beta iota. simpl app.
  destruct (find_dest tr dest_pos) as [before dest_chain] eqn:Hdest.
  destruct (find_dest_spec _ _ _ _ Hwf Hdp Hdest)
    as (Hokd & Hdisd & Hsumd & Hcb & Hcd & Hnil).
  pose proof Hwfs as [Hoks _ _ Htots _ _].
  pose proof (contents_length _ _ Hoks) as HLs.
  pose proof (sum_lengths_nonneg _ _ Hoks) as Hnns.
  pose proof (contents_length _ _ Hokn) as HLn.
  assert (Hsl : Z.of_nat (List.length (contents (heap tr ++ ext) news)) = avail).
  { rewrite Hcont. destruct (Z.le_gt_cases avail 0).
    - rewrite slice_nonpos by lia. simpl. unfold avail in *. lia.
    - apply slice_length; unfold avail in *; zlia. }
  assert (Hgood : ∃ tr',
    updateGlobalIndices
      (SoundSegment.mk (heap tr ++ ext) (before ++ news ++ dest_chain)
         (total_length tr)) = tr'
    ∧ wf tr'
    ∧ contents (heap tr') (head tr')
      = take (Z.to_nat dest_pos) (contents (heap tr) (head tr))
        ++ slice (contents (heap src) (head src)) src_pos avail
        ++ drop (Z.to_nat dest_pos) (contents (heap tr) (head tr))).
  { assert (Hokd' : Forall (node_ok (heap tr ++ ext)) (before ++ dest_chain)).
    { eapply Forall_impl; [|exact Hokd]. intros n. apply node_ok_app. }
    pose proof Hokd as Hokd0.
    apply Forall_app in Hokd. destruct Hokd as [Hokb Hokc].
    apply Forall_app in Hokd'. destruct Hokd' as [Hokb' Hokc'].
    destruct (updateGlobalIndices_wf (heap tr ++ ext)
                (before ++ news ++ dest_chain) (total_length tr))
      as [-> Hwf'].
    - apply Forall_app. split; [assumption|].
      apply Forall_app. split; assumption.
    - eapply pairwise_disj_insert; eassumption.
    - rewrite !sum_lengths_app. rewrite sum_lengths_app in Hsumd. lia.
    - assumption.
    - eexists. split; [reflexivity|]. split; [exact Hwf'|]. simpl.
      rewrite reindex_contents, !contents_app.
      rewrite (contents_app_store _ _ before) by assumption.
      rewrite (contents_app_store _ _ dest_chain) by assumption.
      rewrite Hcb, Hcd, Hcont. reflexivity. }
  destruct Hgood as (tr' & Hupd & Hwf' & Hcont').
  destruct dest_chain as [|d dc].
  - simpl splice. rewrite bind_ok. rewrite app_nil_r in Hupd. rewrite Hupd.
    split; [exact Hwf'|]. split; [exact Hcont'|].
    right. right. apply Hnil. reflexivity.
  - assert (Hin : dest_pos < total_length tr).
    { destruct (Z.lt_ge_cases dest_pos (total_length tr)); [assumption|].
      assert (d :: dc = []) by (apply Hnil; lia). discriminate. }
    destruct news as [|n ns].
    + simpl. split; [assumption|]. split; [|assumption].
      simpl in Hsl. lia.
    + unfold splice. rewrite bind_ok. rewrite Hupd.
      split; [exact Hwf'|]. split; [exact Hcont'|].
      right. left. inversion Hokn as [|? ? (Hl & _) Hokns]; subst.
      pose proof (sum_lengths_nonneg _ _ Hokns).
      rewrite contents_cons, length_app in Hsl.
      pose proof (window_length _ _ (Forall_inv Hokn)). lia.
Qed.

(** ** Every reachable track is well formed *)

Lemma wf_create : wf create.
Proof.
  constructor; simpl; try constructor; unfold MAX_SAMPLES; lia.
Qed.

Lemma write_wf tr src pos tr' :
  wf tr -> is_size_t pos -> is_size_t (size src) ->
  write tr src pos = Ok tr' -> wf tr'.
Proof.
  intros Hwf Hpos Hsz Hrun.
  pose proof (write_spec tr src pos Hwf Hpos Hsz) as H.
  rewrite Hrun in H. apply H.
Qed.

Lemma deleteRange_wf tr pos len b tr' :
  wf tr -> is_size_t pos -> is_size_t len ->
  deleteRange tr pos len = Ok (b, tr') -> wf tr'.
Proof.
  intros Hwf Hpos Hlen Hrun.
  pose proof (deleteRange_spec tr pos len Hwf Hpos Hlen) as H.
  rewrite Hrun in H. destruct b.
  - apply H.
  - destruct H as [-> _]. assumption.
Qed.

Lemma insert_wf tr src dest_pos src_pos len tr' :
  wf tr -> wf src ->
  is_size_t dest_pos -> is_size_t src_pos -> is_size_t len ->
  insert tr src dest_pos src_pos len = Ok tr' -> wf tr'.
Proof.
  intros Hwf Hwfs Hdp Hsp Hlen Hrun.
  pose proof (insert_spec tr src dest_pos src_pos len Hwf Hwfs Hdp Hsp Hlen)
    as H.
  rewrite Hrun in H. apply H.
Qed.

Lemma reachable_wf tr : reachable tr -> wf tr.
Proof.
  induction 1 as [ | tr src pos tr' _ IH Hpos Hsz Hrun
                   | tr samples tr' _ IH Hsz Hrun
                   | tr pos len b tr' _ IH Hpos Hlen Hrun
                   | tr src dp sp len tr' _ IH _ IHs Hdp Hsp Hlen Hrun ].
  - apply wf_create.
  - exact (write_wf _ _ _ _ IH Hpos Hsz Hrun).
  - refine (write_wf tr samples 0 _ IH _ Hsz Hrun).
    unfold is_size_t, SIZE_MAX. lia.
  - exact (deleteRange_wf _ _ _ _ _ IH Hpos Hlen Hrun).
  - exact (insert_wf _ _ _ _ _ _ IH IHs Hdp Hsp Hlen Hrun).
Qed.

(** ** Reading a range back *)




(** ** Concrete tracks *)

Lemma track_of_reachable samples :
  is_size_t (size samples) -> size samples < MAX_SAMPLES ->
  write create samples 0 = Ok (track_of samples)
  ∧ reachable (track_of samples).
Proof.
  intros Hsz Hroom.
  pose proof (write_spec create samples 0 wf_create
                ltac:(unfold is_size_t, SIZE_MAX; lia) Hsz) as H.
  unfold track_of.
  destruct (write create samples 0) as [tr| |] eqn:Hrun.
  - split; [reflexivity|].
    refine (reach_write create samples 0 tr reach_create _ Hsz Hrun).
    unfold is_size_t, SIZE_MAX. lia.
  - exfalso. cbv zeta in H. simpl in H. destruct H as [Hpos H].
    rewrite add_sz_small in H by zlia. lia.
  - contradiction.
Qed.

Lemma flat_eq tr T :
  wf tr -> getAllSamples tr = Ok T -> T = contents (heap tr) (head tr).
Proof.
  intros Hwf H. rewrite (getAllSamples_contents _ Hwf) in H. congruence.
Qed.

Lemma wf_total_length tr :
  wf tr -> total_length tr
           = Z.of_nat (List.length (contents (heap tr) (head tr))).
Proof.
  intros [Hok _ _ Htot _ _]. rewrite (contents_length _ _ Hok). assumption.
Qed.

(** ** Deleting a range *)

(** C2: on a track whose samples are [T], [deleteRange(pos, len)] with
    [pos + len <= total_length] and no touched segment holding a live
    child returns [true], leaves [T] without its slice [[pos, pos + len)],
    and shortens [total_length] by [len]. Writing [10, 20, ..., 100] at 0
    and deleting [(3, 4)] leaves [10, 20, 30, 80, 90, 100]. *)
Theorem deleteRange_removes_range :
  (∀ tr T pos len,
     wf tr -> getAllSamples tr = Ok T ->
     0 <= pos -> 0 <= len -> pos + len <= total_length tr ->
     ¬ Exists (blocks pos len) (head tr) ->
     ∃ tr', deleteRange tr pos len = Ok (true, tr')
       ∧ getAllSamples tr'
         = Ok (take (Z.to_nat pos) T ++ drop (Z.to_nat (pos + len)) T)
       ∧ total_length tr' = total_length tr - len)
  ∧ (tr ← write create [10; 20; 30; 40; 50; 60; 70; 80; 90; 100] 0;
     '(success, tr') ← deleteRange tr 3 4;
     result ← getAllSamples tr';
     Ok (success, result)) = Ok (true, [10; 20; 30; 80; 90; 100]).
Proof.
  split.
  - intros tr T pos len Hwf HT Hpos Hlen Hin Hfree.
    pose proof (flat_eq _ _ Hwf HT) as ->.
    pose proof (wf_total_length _ Hwf) as HL.
    pose proof Hwf as [Hok _ _ Htot Hfit Hmem].
    assert (Hp : is_size_t pos) by zlia.
    assert (Hl : is_size_t len) by zlia.
    pose proof (deleteRange_spec tr pos len Hwf Hp Hl) as H.
    rewrite add_sz_small in H by zlia.
    destruct (deleteRange tr pos len) as [[[|] tr']| |]; try contradiction.
    + destruct H as (Hwf' & _ & _ & Hcont).
      exists tr'. split; [reflexivity|].
      split; [rewrite (getAllSamples_contents _ Hwf'), Hcont; reflexivity|].
      rewrite (wf_total_length _ Hwf'), Hcont, HL.
      rewrite length_app, length_take, length_drop. lia.
    + destruct H as [_ [H|H]]; [lia|contradiction].
  - vm_compute. reflexivity.
Qed.

Lemma deleteRange_removes_range_witness :
  ∃ tr', deleteRange (track_of [1; 2; 3; 4; 5]) 1 2 = Ok (true, tr')
    ∧ getAllSamples tr' = Ok (take (Z.to_nat 1) [1; 2; 3; 4; 5]
                              ++ drop (Z.to_nat (1 + 2)) [1; 2; 3; 4; 5])
    ∧ total_length tr' = total_length (track_of [1; 2; 3; 4; 5]) - 2.
Proof.
  apply (proj1 deleteRange_removes_range (track_of [1; 2; 3; 4; 5])
           [1; 2; 3; 4; 5] 1 2).
  - apply reachable_wf, track_of_reachable; vm_compute; split; congruence.
  - vm_compute. reflexivity.
  - lia.
  - lia.
  - vm_compute. congruence.
  - intros H. apply Exists_exists in H. destruct H as (n & Hn & _ & Hact).
    vm_compute in Hn. destruct Hn as [<-|[]].
    vm_compute in Hact. discriminate.
Defined.

(** * Further properties of the operations *)

Ltac by_computation := vm_compute; repeat split; congruence.

Lemma track_of_wf samples :
  is_size_t (size samples) -> size samples < MAX_SAMPLES ->
  wf (track_of samples).
Proof. intros ? ?. apply reachable_wf, track_of_reachable; assumption. Qed.

(** ** [updateGlobalIndices] *)

(** X1: on every track the public operations can build, recomputing the
    global indices changes nothing: the cached [global_start]s and
    [total_length] are already the running sums of the lengths. *)
Theorem updateGlobalIndices_reachable_fixpoint tr :
  reachable tr -> updateGlobalIndices tr = tr.
Proof.
  intros Hr. pose proof (reachable_wf _ Hr) as [Hok Hdis Hidx Htot Hfit Hmem].
  destruct tr as [st chain total]. simpl in *.
  destruct (updateGlobalIndices_wf st chain total Hok Hdis Hfit Hmem)
    as [-> _].
  rewrite (reindex_id 0 chain Hidx). rewrite Htot. reflexivity.
Qed.

Lemma updateGlobalIndices_reachable_fixpoint_witness :
  updateGlobalIndices (track_of [4; 5; 6]) = track_of [4; 5; 6].
Proof.
  apply updateGlobalIndices_reachable_fixpoint.
  apply track_of_reachable; by_computation.
Defined.

(** ** [findSegmentAt] *)

(** X2: on a well-formed track [findSegmentAt(pos)] returns [nullptr]
    exactly when [pos >= total_length]; otherwise it returns the one node
    whose range [[global_start, global_start + length)] holds [pos], with
    [local_offset = pos - global_start]. *)
Theorem findSegmentAt_locates tr pos :
  wf tr -> is_size_t pos ->
  match findSegmentAt tr pos with
  | Some (before, cur, next, local_offset) =>
      head tr = before ++ cur :: next
      ∧ pos < total_length tr
      ∧ global_start cur = sum_lengths before
      ∧ global_start cur <= pos < global_start cur + length cur
      ∧ local_offset = pos - global_start cur
  | None => total_length tr <= pos
  end.
Proof.
  intros [Hok Hdis Hidx Htot Hfit Hmem] Hpos.
  pose proof (sum_lengths_nonneg _ _ Hok) as Hnn.
  pose proof (findSegmentAt_from_spec (heap tr) [] (head tr) 0 pos Hok Hidx)
    as Hfind.
  unfold findSegmentAt.
  destruct (findSegmentAt_from [] (head tr) pos) as [[[[b c] nx] lo]|].
  - destruct Hfind as (mid & Hhead & -> & -> & Hlo); try zlia.
    simpl app. rewrite Hhead in Hidx, Hok, Htot.
    apply indexed_from_app in Hidx. destruct Hidx as [_ [Hg _]].
    apply Forall_app in Hok. destruct Hok as [Hokm Hokc].
    inversion Hokc as [|? ? _ Hokn]; subst.
    pose proof (sum_lengths_nonneg _ _ Hokn).
    rewrite sum_lengths_app in Htot. simpl in Htot.
    repeat split; try assumption; lia.
  - specialize (Hfind ltac:(lia) ltac:(zlia) ltac:(zlia)). lia.
Qed.

Lemma findSegmentAt_locates_witness :
  match findSegmentAt (track_of [4; 5; 6]) 2 with
  | Some (before, cur, next, local_offset) =>
      head (track_of [4; 5; 6]) = before ++ cur :: next
      ∧ 2 < total_length (track_of [4; 5; 6])
      ∧ global_start cur = sum_lengths before
      ∧ global_start cur <= 2 < global_start cur + length cur
      ∧ local_offset = 2 - global_start cur
  | None => total_length (track_of [4; 5; 6]) <= 2
  end.
Proof.
  apply findSegmentAt_locates.
  - apply track_of_wf; by_computation.
  - by_computation.
Defined.

(** ** [splitNode] *)

(** X3: [splitNode(node, local_offset)] returns [nullptr] when
    [local_offset >= length]; otherwise it cuts the node in two views of
    the same buffer, [local_offset] and [length - local_offset] samples
    long, whose samples side by side are the samples of the node: nothing
    is copied or lost. *)
Theorem splitNode_shares_buffer (st : store) nd local_offset :
  node_ok st nd -> store_samples st < MAX_SAMPLES ->
  0 <= global_start nd -> global_start nd + length nd <= SIZE_MAX ->
  0 <= local_offset ->
  (length nd <= local_offset -> splitNode nd local_offset = None)
  ∧ (0 < local_offset < length nd ->
     ∃ left_nd right_nd,
       splitNode nd local_offset = Some (left_nd, right_nd)
       ∧ data left_nd = data nd ∧ data right_nd = data nd
       ∧ offset left_nd = offset nd
       ∧ offset right_nd = offset nd + local_offset
       ∧ length left_nd = local_offset
       ∧ length right_nd = length nd - local_offset
       ∧ global_start right_nd = global_start nd + local_offset
       ∧ node_ok st left_nd ∧ node_ok st right_nd
       ∧ window st left_nd ++ window st right_nd = window st nd).
Proof.
  intros Hnd Hmem Hg Hgs Hlo.
  pose proof (node_ok_fits _ _ Hnd) as Hfit.
  pose proof Hnd as (Hl & Ho & buf & Hbuf & Hw).
  unfold splitNode. split.
  - intros Hge. destruct (Z.leb_spec (length nd) local_offset); [reflexivity|lia].
  - intros Hin. destruct (Z.leb_spec (length nd) local_offset); [lia|].
    rewrite (add_sz_small (offset nd)) by zlia.
    rewrite (sub_sz_small (length nd)) by zlia.
    rewrite (add_sz_small (global_start nd)) by zlia.
    eexists. eexists. split; [reflexivity|]. simpl.
    repeat (split; [reflexivity|]).
    split; [apply node_ok_set_length; [assumption|lia]|].
    split.
    { split; [simpl; lia|]. split; [simpl; lia|].
      exists buf. simpl. split; [assumption|lia]. }
    rewrite window_set_length by lia.
    rewrite window_right by lia. apply take_drop.
Qed.

Lemma splitNode_shares_buffer_witness :
  ∃ left_nd right_nd,
    splitNode (SegmentNode.mk 0 0 5 0 [] [] true) 2
    = Some (left_nd, right_nd)
    ∧ data left_nd = 0%nat ∧ data right_nd = 0%nat
    ∧ offset left_nd = 0
    ∧ offset right_nd = 0 + 2
    ∧ length left_nd = 2
    ∧ length right_nd = 5 - 2
    ∧ global_start right_nd = 0 + 2
    ∧ node_ok [[1; 2; 3; 4; 5]] left_nd
    ∧ node_ok [[1; 2; 3; 4; 5]] right_nd
    ∧ window [[1; 2; 3; 4; 5]] left_nd ++ window [[1; 2; 3; 4; 5]] right_nd
      = window [[1; 2; 3; 4; 5]] (SegmentNode.mk 0 0 5 0 [] [] true).
Proof.
  apply (proj2 (splitNode_shares_buffer [[1; 2; 3; 4; 5]]
                  (SegmentNode.mk 0 0 5 0 [] [] true) 2
                  (conj (ltac:(simpl; lia) : 0 < 5)
                     (conj (ltac:(simpl; lia) : 0 <= 0)
                        (ex_intro _ [1; 2; 3; 4; 5]
                           (conj eq_refl (ltac:(simpl; lia) : 0 + 5 <= 5)))))
                  ltac:(by_computation) ltac:(simpl; lia)
                  ltac:(by_computation) ltac:(lia))).
  simpl. lia.
Defined.

(** ** [read] and [getAllSamples] *)

Lemma slice_length_clamped l off n :
  0 <= off ->
  Z.of_nat (List.length (slice l off n))
  = Z.max 0 (Z.min n (Z.of_nat (List.length l) - off)).
Proof.
  intros. unfold slice. rewrite length_take, length_drop. lia.
Qed.




(** X5: on a well-formed track [getAllSamples] returns exactly
    [total_length] samples: the slices the nodes view, in chain order. *)
Theorem getAllSamples_flattens tr :
  wf tr ->
  getAllSamples tr = Ok (concat (map (window (heap tr)) (head tr)))
  ∧ size (concat (map (window (heap tr)) (head tr))) = SoundSegment.length tr.
Proof.
  intros Hwf. split.
  - apply (getAllSamples_contents _ Hwf).
  - unfold size, SoundSegment.length. symmetry. apply (wf_total_length _ Hwf).
Qed.

Lemma getAllSamples_flattens_witness :
  getAllSamples (track_of [4; 5; 6])
  = Ok (concat (map (window (heap (track_of [4; 5; 6])))
                  (head (track_of [4; 5; 6]))))
  ∧ size (concat (map (window (heap (track_of [4; 5; 6])))
                    (head (track_of [4; 5; 6]))))
    = SoundSegment.length (track_of [4; 5; 6]).
Proof.
  apply getAllSamples_flattens. apply track_of_wf; by_computation.
Defined.

(** ** [write] *)

Lemma blit_extend (F S : buffer) pos k :
  0 <= pos -> 0 <= k ->
  Z.of_nat (List.length F) + k
  = Z.max (Z.of_nat (List.length F)) (pos + Z.of_nat (List.length S)) ->
  blit (F ++ replicate (Z.to_nat k) 0) pos S
  = take (Z.to_nat pos)
      (F ++ replicate (Z.to_nat (pos - Z.of_nat (List.length F))) 0)
    ++ S ++ drop (Z.to_nat (pos + Z.of_nat (List.length S))) F.
Proof.
  intros Hpos Hk Hlen. unfold blit.
  replace (Z.to_nat pos + List.length S)%nat
    with (Z.to_nat (pos + Z.of_nat (List.length S))) by lia.
  f_equal; [|f_equal].
  - destruct (Z.le_gt_cases pos (Z.of_nat (List.length F))) as [Hin|Hout].
    + rewrite !take_app_le by lia. reflexivity.
    + rewrite take_app_ge by lia. rewrite take_replicate.
      rewrite (take_ge (F ++ _)) by (rewrite length_app, length_replicate; lia).
      do 2 f_equal. lia.
  - destruct (Z.le_gt_cases (pos + Z.of_nat (List.length S))
                (Z.of_nat (List.length F))) as [Hin|Hout].
    + replace (Z.to_nat k) with 0%nat by lia. simpl.
      rewrite app_nil_r. reflexivity.
    + rewrite !drop_ge; [reflexivity|lia|].
      rewrite length_app, length_replicate. lia.
Qed.

(** [write] when [pos + len] does not wrap and the store has room: with
    no sample to write nothing changes; otherwise the track reaches up to
    [pos + len], zero-filled where it was shorter, and holds [src] from
    [pos] on. *)
Lemma write_result tr src pos F :
  wf tr -> getAllSamples tr = Ok F ->
  0 <= pos -> pos + size src <= SIZE_MAX ->
  store_samples (heap tr) + Z.max 0 (pos + size src - total_length tr)
    < MAX_SAMPLES ->
  ∃ tr', write tr src pos = Ok tr' ∧ wf tr'
    ∧ (src = [] -> tr' = tr)
    ∧ (src ≠ [] ->
       total_length tr' = Z.max (total_length tr) (pos + size src)
       ∧ getAllSamples tr'
         = Ok (take (Z.to_nat pos)
                 (F ++ replicate (Z.to_nat (pos - total_length tr)) 0)
               ++ src ++ drop (Z.to_nat (pos + size src)) F)).
Proof.
  intros Hwf HF Hpos Hfit Hroom.
  pose proof (flat_eq _ _ Hwf HF) as ->.
  pose proof (wf_total_length _ Hwf) as HL.
  assert (Hp : is_size_t pos) by (unfold size in *; zlia).
  assert (Hs : is_size_t (size src)) by (unfold size in *; zlia).
  pose proof (write_spec tr src pos Hwf Hp Hs) as H. cbv zeta in H.
  rewrite add_sz_small in H by (unfold size in *; zlia).
  destruct (write tr src pos) as [tr'| |].
  - destruct H as (Hwf' & Hnil & Hgrow). exists tr'.
    split; [reflexivity|]. split; [assumption|].
    split; [intros ->; apply Hnil; reflexivity|].
    intros Hne.
    destruct Hgrow as (Htot & Hcont & _).
    { destruct src; [congruence|unfold size; simpl; lia]. }
    split; [exact Htot|].
    rewrite (getAllSamples_contents _ Hwf'), Hcont. f_equal.
    set (n := size src) in *.
    assert (Hn : 0 <= n) by (unfold n, size; lia).
    replace (Z.min n (Z.max (total_length tr) (pos + n) - pos)) with n by lia.
    unfold n, size at 2. rewrite slice_all.
    rewrite HL. apply blit_extend; unfold n, size in *; lia.
  - destruct H as [_ H]. lia.
  - contradiction.
Qed.





Lemma write_keeps_chain tr src pos tr' :
  pos ⊕ size src <= total_length tr ->
  write tr src pos = Ok tr' ->
  head tr' = head tr ∧ total_length tr' = total_length tr.
Proof.
  intros Hin. unfold write. fold (size src).
  destruct (size src =? 0); [intros [= <-]; auto|].
  destruct (Z.ltb_spec (total_length tr) (pos ⊕ size src)); [lia|].
  rewrite bind_ok.
  destruct (write_loop (heap tr) (head tr) src (size src) pos 0);
    simpl; intros [= <-]; auto.
Qed.

(** X8: a write that fits inside the track ([pos + len(S) <=
    total_length]) overwrites the samples [[pos, pos + len(S))] in place:
    the chain of nodes and [total_length] stay as they are and nothing is
    allocated. *)
Theorem write_inside_overwrites tr S pos F :
  wf tr -> getAllSamples tr = Ok F ->
  0 <= pos -> pos + size S <= total_length tr ->
  ∃ tr', write tr S pos = Ok tr'
    ∧ head tr' = head tr ∧ total_length tr' = total_length tr
    ∧ List.length (heap tr') = List.length (heap tr)
    ∧ getAllSamples tr'
      = Ok (take (Z.to_nat pos) F ++ S ++ drop (Z.to_nat (pos + size S)) F).
Proof.
  intros Hwf HF Hpos Hin.
  pose proof (flat_eq _ _ Hwf HF) as HFc.
  pose proof (wf_total_length _ Hwf) as HL. rewrite <- HFc in HL.
  pose proof Hwf as [_ _ _ Htot0 Hfit Hmem].
  assert (Hsz : 0 <= size S) by (unfold size; lia).
  assert (Hmax : total_length tr <= SIZE_MAX) by zlia.
  destruct (write_result tr S pos F Hwf HF Hpos ltac:(lia) ltac:(lia))
    as (tr' & Hrun & Hwf' & Hnil & Hcons).
  exists tr'. split; [assumption|].
  destruct (write_keeps_chain tr S pos tr') as [Hh Ht];
    [rewrite add_sz_small by lia; lia|assumption|].
  split; [assumption|]. split; [assumption|].
  destruct S as [|x S].
  - rewrite (Hnil eq_refl). split; [reflexivity|]. rewrite HF. f_equal.
    unfold size. simpl. rewrite Z.add_0_r. symmetry. apply take_drop.
  - destruct Hcons as [_ Hall]; [discriminate|]. split.
    + pose proof (write_spec tr (x :: S) pos Hwf ltac:(zlia)
                    ltac:(unfold size in *; zlia)) as Hspec.
      rewrite Hrun in Hspec. cbv zeta in Hspec.
      destruct Hspec as (_ & _ & Hgrow).
      destruct Hgrow as (_ & _ & Hsam); [unfold size; simpl; lia|].
      unfold write in Hrun. fold (size (x :: S)) in Hrun.
      destruct (size (x :: S) =? 0) eqn:E; [unfold size in E; simpl in E; lia|].
      destruct (Z.ltb_spec (total_length tr) (pos ⊕ size (x :: S)));
        [rewrite add_sz_small in * by lia; lia|].
      rewrite bind_ok in Hrun.
      pose proof Hwf as [Hok Hdis Hidx Htot _ _].
      destruct (write_loop_spec (heap tr) (head tr) 0 (x :: S)
                  (size (x :: S)) pos 0)
        as (st' & Hloop & Hsh & _); try assumption; try zlia.
      rewrite Hloop, bind_ok in Hrun. injection Hrun as <-. simpl.
      apply (shape_length _ _ Hsh).
    + rewrite Hall. f_equal. rewrite take_app_le by lia. reflexivity.
Qed.

Lemma write_inside_overwrites_witness :
  ∃ tr', write (track_of [4; 5; 6; 7]) [8; 9] 1 = Ok tr'
    ∧ head tr' = head (track_of [4; 5; 6; 7])
    ∧ total_length tr' = total_length (track_of [4; 5; 6; 7])
    ∧ List.length (heap tr') = List.length (heap (track_of [4; 5; 6; 7]))
    ∧ getAllSamples tr'
      = Ok (take (Z.to_nat 1) [4; 5; 6; 7] ++ [8; 9]
            ++ drop (Z.to_nat (1 + size [8; 9])) [4; 5; 6; 7]).
Proof.
  apply write_inside_overwrites.
  - apply track_of_wf; by_computation.
  - vm_compute. reflexivity.
  - lia.
  - by_computation.
Defined.





(** ** [loadFromWav] *)

(** X10: [loadFromWav] does not replace the track by the loaded samples:
    it writes them at position 0. On a track that already holds [F] the
    result is the loaded samples followed by whatever of [F] lies beyond
    them; only on an empty track is it the loaded samples alone. *)
Theorem loadFromWav_overwrites_prefix tr samples F :
  wf tr -> getAllSamples tr = Ok F ->
  size samples <= SIZE_MAX ->
  store_samples (heap tr) + size samples < MAX_SAMPLES ->
  ∃ tr', loadFromWav tr samples = Ok tr'
    ∧ getAllSamples tr'
      = Ok (samples ++ drop (Z.to_nat (size samples)) F)
    ∧ SoundSegment.length tr'
      = Z.max (SoundSegment.length tr) (size samples).
Proof.
  intros Hwf HF Hsz Hroom. unfold loadFromWav, SoundSegment.length.
  assert (Hn : 0 <= size samples) by (unfold size; lia).
  pose proof (wf_total_length _ Hwf) as HL.
  destruct (write_result tr samples 0 F Hwf HF ltac:(lia) ltac:(lia)
              ltac:(lia))
    as (tr' & Hrun & Hwf' & Hnil & Hcons).
  exists tr'. split; [assumption|].
  destruct samples as [|x samples].
  - rewrite (Hnil eq_refl). split; [assumption|]. unfold size. simpl. lia.
  - destruct Hcons as [Htot Hall]; [discriminate|].
    split; [|lia]. rewrite Hall. reflexivity.
Qed.

Lemma loadFromWav_overwrites_prefix_witness :
  ∃ tr', loadFromWav (track_of [4; 5; 6]) [7; 8] = Ok tr'
    ∧ getAllSamples tr'
      = Ok ([7; 8] ++ drop (Z.to_nat (size [7; 8])) [4; 5; 6])
    ∧ SoundSegment.length tr'
      = Z.max (SoundSegment.length (track_of [4; 5; 6])) (size [7; 8]).
Proof.
  apply loadFromWav_overwrites_prefix.
  - apply track_of_wf; by_computation.
  - vm_compute. reflexivity.
  - by_computation.
  - by_computation.
Defined.

(** ** Child references *)

Lemma updateGlobalIndices_from_children g l :
  Forall (fun n => children n = []) l ->
  Forall (fun n => children n = []) (updateGlobalIndices_from g l).1.
Proof.
  revert g. induction l as [|c l IH]; intros g Hl; simpl; [constructor|].
  pose proof (Forall_inv Hl) as Hc. apply Forall_inv_tail in Hl.
  specialize (IH (g ⊕ length c) Hl).
  destruct (updateGlobalIndices_from (g ⊕ length c) l) as [next' total].
  simpl in *. constructor; assumption.
Qed.

Lemma updateGlobalIndices_children tr :
  Forall (fun n => children n = []) (head tr) ->
  Forall (fun n => children n = []) (head (updateGlobalIndices tr)).
Proof.
  intros H. unfold updateGlobalIndices.
  pose proof (updateGlobalIndices_from_children 0 _ H) as H'.
  destruct (updateGlobalIndices_from 0 (head tr)). exact H'.
Qed.

Lemma findSegmentAt_from_chain before current pos b c nx lo :
  findSegmentAt_from before current pos = Some (b, c, nx, lo) ->
  before ++ current = b ++ c :: nx.
Proof.
  revert before. induction current as [|cur next IH]; intros before; simpl.
  - discriminate.
  - destruct ((global_start cur <=? pos)
              && (pos <? global_start cur ⊕ length cur)).
    + intros [= <- <- <- _]. reflexivity.
    + intros H. rewrite <- (IH _ H), <- app_assoc. reflexivity.
Qed.

Lemma extend_children tr end_pos tr' :
  Forall (fun n => children n = []) (head tr) ->
  extend tr end_pos = Ok tr' ->
  Forall (fun n => children n = []) (head tr').
Proof.
  intros H. unfold extend. destruct (head tr) as [|first rest] eqn:Hh.
  - rewrite alloc_spec.
    destruct (store_samples (heap tr) + end_pos <? MAX_SAMPLES);
      [|discriminate].
    rewrite bind_ok. intros [= <-]. apply updateGlobalIndices_children.
    simpl. constructor; [reflexivity|constructor].
  - destruct (_ <? end_pos).
    + rewrite alloc_spec. destruct (_ <? MAX_SAMPLES); [|discriminate].
      rewrite bind_ok. intros [= <-]. apply updateGlobalIndices_children.
      simpl head. apply (Forall_app _ (first :: rest)). split; [assumption|].
      constructor; [reflexivity|constructor].
    + intros [= <-]. apply updateGlobalIndices_children. rewrite Hh.
      assumption.
Qed.

Lemma write_children tr src pos tr' :
  Forall (fun n => children n = []) (head tr) ->
  write tr src pos = Ok tr' ->
  Forall (fun n => children n = []) (head tr').
Proof.
  intros H. unfold write. destruct (_ =? 0); [intros [= <-]; assumption|].
  destruct (total_length tr <? _).
  - destruct (extend tr _) as [tr1| |] eqn:He; try discriminate.
    rewrite bind_ok.
    destruct (write_loop _ _ _ _ _ _) as [st| |]; try discriminate.
    rewrite bind_ok. intros [= <-]. simpl.
    exact (extend_children _ _ _ H He).
  - rewrite bind_ok.
    destruct (write_loop _ _ _ _ _ _) as [st| |]; try discriminate.
    rewrite bind_ok. intros [= <-]. assumption.
Qed.

Lemma delete_loop_children (st : store) current to_delete local_off st' out :
  Forall (fun n => children n = []) current ->
  delete_loop st current to_delete local_off = Ok (st', out) ->
  Forall (fun n => children n = []) out.
Proof.
  intros H. revert st' out to_delete local_off.
  induction H as [|cur next Hc Hn IH]; intros st' out to_delete local_off;
    simpl.
  - intros [= _ <-]. constructor.
  - destruct (0 <? to_delete); [|intros [= _ <-]; constructor; assumption].
    destruct (to_delete <? _).
    + destruct (store_memmove _ _ _ _ _) as [s| |]; try discriminate.
      rewrite bind_ok. intros [= _ <-]. constructor; assumption.
    + destruct (local_off =? 0); [apply IH|].
      destruct (0 <? _); [|intros [= _ <-]; constructor; assumption].
      destruct (delete_loop st next _ 0) as [[s nx]| |] eqn:Hd;
        try discriminate.
      rewrite bind_ok. intros [= _ <-].
      constructor; [assumption|]. exact (IH _ _ _ _ Hd).
Qed.

Lemma deleteRange_children tr pos len b tr' :
  Forall (fun n => children n = []) (head tr) ->
  deleteRange tr pos len = Ok (b, tr') ->
  Forall (fun n => children n = []) (head tr').
Proof.
  intros H. unfold deleteRange.
  destruct (total_length tr <? _); [intros [= _ <-]; assumption|].
  unfold findSegmentAt.
  destruct (findSegmentAt_from [] (head tr) pos) as [[[[bf c] nx] lo]|] eqn:Hf.
  - apply findSegmentAt_from_chain in Hf. simpl in Hf. rewrite Hf in H.
    apply Forall_app in H. destruct H as [Hb Hc].
    destruct (check_children _ _ _); [intros [= _ <-]; rewrite Hf;
      apply Forall_app; split; assumption|].
    destruct (delete_loop _ _ _ _) as [[s cur']| |] eqn:Hd; try discriminate.
    rewrite bind_ok. intros [= _ <-]. apply updateGlobalIndices_children.
    simpl. apply Forall_app. split; [assumption|].
    exact (delete_loop_children _ _ _ _ _ _ Hc Hd).
  - simpl. intros [= _ <-].
    apply updateGlobalIndices_children. simpl. rewrite app_nil_r. assumption.
Qed.

Lemma build_insertion_children fuel src_track (st : store) insertion
    remaining current_global st' out :
  Forall (fun n => children n = []) insertion ->
  build_insertion fuel src_track st insertion remaining current_global
  = Ok (st', out) ->
  Forall (fun n => children n = []) out.
Proof.
  revert st insertion remaining current_global.
  induction fuel as [|fuel IH]; intros st insertion remaining current_global H;
    simpl.
  - intros [= _ <-]. assumption.
  - destruct (0 <? remaining); [|intros [= _ <-]; assumption].
    destruct (findSegmentAt src_track current_global)
      as [[[[bf c] nx] lo]|]; [|intros [= _ <-]; assumption].
    rewrite alloc_spec. destruct (_ <? MAX_SAMPLES); [|discriminate].
    rewrite bind_ok. cbv beta iota.
    destruct (heap src_track !! data c) as [from|]; [|discriminate].
    destruct (store_memcpy _ _ _ _ _ _) as [st2| |]; try discriminate.
    rewrite bind_ok. apply IH. apply Forall_app. split; [assumption|].
    constructor; [reflexivity|constructor].
Qed.

Lemma find_dest_children tr dest_pos before dest_chain :
  Forall (fun n => children n = []) (head tr) ->
  find_dest tr dest_pos = (before, dest_chain) ->
  Forall (fun n => children n = []) (before ++ dest_chain).
Proof.
  intros H. unfold find_dest, findSegmentAt.
  destruct (findSegmentAt_from [] (head tr) dest_pos)
    as [[[[bf c] nx] lo]|] eqn:Hf.
  - apply findSegmentAt_from_chain in Hf. simpl in Hf. rewrite Hf in H.
    destruct (0 <? lo).
    + unfold splitNode. destruct (length c <=? lo).
      * intros [= <- <-]. rewrite app_nil_r. assumption.
      * intros [= <- <-]. rewrite <- app_assoc. simpl.
        apply Forall_app in H. destruct H as [Hb Hc].
        pose proof (Forall_inv Hc) as Hc'. apply Forall_inv_tail in Hc.
        apply Forall_app. split; [assumption|].
        constructor; [assumption|]. constructor; [reflexivity|assumption].
    + intros [= <- <-]. assumption.
  - intros [= <- <-]. rewrite app_nil_r. assumption.
Qed.

Lemma insert_children tr src_track dest_pos src_pos len tr' :
  Forall (fun n => children n = []) (head tr) ->
  insert tr src_track dest_pos src_pos len = Ok tr' ->
  Forall (fun n => children n = []) (head tr').
Proof.
  intros H. unfold insert. destruct (len =? 0); [intros [= <-]; assumption|].
  destruct (build_insertion _ _ _ _ _ _) as [[st ins]| |] eqn:Hb;
    try discriminate.
  apply build_insertion_children in Hb; [|constructor].
  rewrite bind_ok. cbv beta iota.
  destruct (find_dest tr dest_pos) as [before dest_chain] eqn:Hd.
  apply (find_dest_children _ _ _ _ H) in Hd.
  apply Forall_app in Hd. destruct Hd as [Hbf Hdc].
  unfold splice. destruct dest_chain as [|d dc].
  - rewrite bind_ok. intros [= <-]. apply updateGlobalIndices_children.
    simpl. apply Forall_app. split; assumption.
  - destruct ins as [|i ins]; [discriminate|].
    rewrite bind_ok. intros [= <-]. apply updateGlobalIndices_children.
    simpl. apply Forall_app. split; [assumption|].
    apply (Forall_app _ (i :: ins)). split; assumption.
Qed.

Lemma reachable_childless tr :
  reachable tr -> Forall (fun n => children n = []) (head tr).
Proof.
  induction 1 as [ | tr src pos tr' _ IH _ _ Hrun
                   | tr samples tr' _ IH _ Hrun
                   | tr pos len b tr' _ IH _ _ Hrun
                   | tr src dp sp len tr' _ IH _ _ _ _ _ Hrun ].
  - constructor.
  - exact (write_children _ _ _ _ IH Hrun).
  - exact (write_children _ _ _ _ IH Hrun).
  - exact (deleteRange_children _ _ _ _ _ IH Hrun).
  - exact (insert_children _ _ _ _ _ _ IH Hrun).
Qed.

(** X11: no public operation ever registers a child: on every track built
    from an empty one by [write], [loadFromWav], [deleteRange] and
    [insert] (which copies the source samples into fresh buffers), every
    node has an empty [children] list, so [hasActiveChildren] is [false]
    for every node of the chain. *)
Theorem reachable_nodes_have_no_children tr :
  reachable tr ->
  Forall (fun n => children n = [] ∧ hasActiveChildren n = false) (head tr).
Proof.
  intros Hr. eapply Forall_impl; [|exact (reachable_childless _ Hr)].
  intros n Hn. split; [assumption|].
  unfold hasActiveChildren. rewrite Hn. reflexivity.
Qed.

Lemma reachable_nodes_have_no_children_witness :
  Forall (fun n => children n = [] ∧ hasActiveChildren n = false)
    (head (track_of [4; 5; 6])).
Proof.
  apply reachable_nodes_have_no_children.
  apply track_of_reachable; by_computation.
Defined.

Lemma no_children_no_blocks pos len (l : list node) :
  Forall (fun n => children n = []) l -> ¬ Exists (blocks pos len) l.
Proof.
  intros Hl Hex. apply Exists_exists in Hex.
  destruct Hex as (n & Hn & _ & Hact).
  rewrite Forall_forall in Hl. unfold hasActiveChildren in Hact.
  rewrite (Hl n Hn) in Hact. discriminate.
Qed.

(** ** More on [deleteRange] *)

(** X12: on every track built by the public operations, [deleteRange]
    always returns, and it refuses (returns [false]) exactly when the
    wrapped sum [pos + len] exceeds [total_length]; the check for live
    children never fires. A refused call leaves the track as it is. *)
Theorem deleteRange_reachable_refusal tr pos len :
  reachable tr -> is_size_t pos -> is_size_t len ->
  ∃ b tr', deleteRange tr pos len = Ok (b, tr')
    ∧ (b = false <-> total_length tr < pos ⊕ len)
    ∧ (b = false -> tr' = tr).
Proof.
  intros Hr Hpos Hlen.
  pose proof (deleteRange_spec tr pos len (reachable_wf _ Hr) Hpos Hlen) as H.
  pose proof (no_children_no_blocks pos len _
                (reachable_childless _ Hr)) as Hnb.
  destruct (deleteRange tr pos len) as [[[|] tr']| |]; try contradiction.
  - exists true, tr'. split; [reflexivity|].
    destruct H as (_ & Hin & _). split; [|discriminate].
    split; [discriminate|lia].
  - exists false, tr'. split; [reflexivity|].
    destruct H as (-> & [Hout|Hb]); [|contradiction].
    split; [|reflexivity]. split; auto.
Qed.

Lemma deleteRange_reachable_refusal_witness :
  ∃ b tr', deleteRange (track_of [4; 5; 6]) 2 2 = Ok (b, tr')
    ∧ (b = false <-> total_length (track_of [4; 5; 6]) < 2 ⊕ 2)
    ∧ (b = false -> tr' = track_of [4; 5; 6]).
Proof.
  apply deleteRange_reachable_refusal.
  - apply track_of_reachable; by_computation.
  - by_computation.
  - by_computation.
Defined.

(** X13: a live child blocks deletion. On a well-formed track, if a node
    that the in-range, non-empty range [[pos, pos + len)] touches has a
    child reference that has not expired, [deleteRange] returns [false]
    and changes nothing; expired references do not count. *)
Theorem deleteRange_blocked_by_live_child tr pos len n :
  wf tr -> is_size_t pos -> is_size_t len ->
  pos ⊕ len <= total_length tr ->
  n ∈ head tr -> touched pos len n ->
  Exists (fun c => expired c = false) (children n) ->
  deleteRange tr pos len = Ok (false, tr).
Proof.
  intros Hwf Hpos Hlen Hin Hn Ht Hlive.
  pose proof (deleteRange_spec tr pos len Hwf Hpos Hlen) as H.
  destruct (deleteRange tr pos len) as [[[|] tr']| |]; try contradiction.
  - exfalso. destruct H as (_ & _ & Hnb & _). apply Hnb.
    apply Exists_exists. exists n.
    split; [apply list_elem_of_In; assumption|].
    split; [assumption|]. unfold hasActiveChildren.
    apply existsb_exists. apply Exists_exists in Hlive.
    destruct Hlive as (c & Hc & He). exists c.
    split; [assumption|]. rewrite He. reflexivity.
  - destruct H as [-> _]. reflexivity.
Qed.

Lemma deleteRange_blocked_by_live_child_witness :
  deleteRange
    (SoundSegment.mk [[1; 2; 3]]
       [addChild (set_is_buffer_owner (make 0 0 3) true)
          {| expired := false |}] 3) 1 1
  = Ok (false,
        SoundSegment.mk [[1; 2; 3]]
          [addChild (set_is_buffer_owner (make 0 0 3) true)
             {| expired := false |}] 3).
Proof.
  apply (deleteRange_blocked_by_live_child _ 1 1
           (addChild (set_is_buffer_owner (make 0 0 3) true)
              {| expired := false |})).
  - constructor; simpl.
    + constructor; [|constructor]. split; [simpl; lia|].
      split; [simpl; lia|]. exists [1; 2; 3]. split; [reflexivity|].
      simpl. lia.
    + split; [constructor|exact I].
    + split; [reflexivity|exact I].
    + reflexivity.
    + by_computation.
    + by_computation.
  - by_computation.
  - by_computation.
  - vm_compute. congruence.
  - apply list_elem_of_singleton. reflexivity.
  - unfold touched. simpl. lia.
  - constructor. reflexivity.
Defined.

(** X14: the range check of [deleteRange] is made on the wrapped
    [size_t] sum. When [pos + len] exceeds [SIZE_MAX] and the wrapped sum
    is at most [total_length], the call is accepted, returns [true] and
    removes everything from [pos] to the end of the track. *)
Theorem deleteRange_wraparound_truncates tr pos len F :
  reachable tr -> getAllSamples tr = Ok F ->
  is_size_t pos -> is_size_t len ->
  SIZE_MAX < pos + len -> pos ⊕ len <= total_length tr ->
  ∃ tr', deleteRange tr pos len = Ok (true, tr')
    ∧ getAllSamples tr' = Ok (take (Z.to_nat pos) F).
Proof.
  intros Hr HF Hpos Hlen Hwrap Hin.
  pose proof (reachable_wf _ Hr) as Hwf.
  pose proof (flat_eq _ _ Hwf HF) as HFc.
  pose proof (wf_total_length _ Hwf) as HL. rewrite <- HFc in HL.
  pose proof Hwf as [_ _ _ Htot Hfit Hmem].
  pose proof (deleteRange_spec tr pos len Hwf Hpos Hlen) as H.
  destruct (deleteRange tr pos len) as [[[|] tr']| |]; try contradiction.
  - destruct H as (Hwf' & _ & _ & Hc). exists tr'. split; [reflexivity|].
    rewrite (getAllSamples_contents _ Hwf'), Hc, <- HFc.
    rewrite (drop_ge F) by zlia. rewrite app_nil_r. reflexivity.
  - exfalso. destruct H as (_ & [Hout|Hb]); [lia|].
    exact (no_children_no_blocks pos len _
             (reachable_childless _ Hr) Hb).
Qed.

Lemma deleteRange_wraparound_truncates_witness :
  ∃ tr', deleteRange (track_of [1; 2; 3; 4; 5; 6; 7; 8; 9; 10]) 3 SIZE_MAX
         = Ok (true, tr')
    ∧ getAllSamples tr'
      = Ok (take (Z.to_nat 3) [1; 2; 3; 4; 5; 6; 7; 8; 9; 10]).
Proof.
  apply deleteRange_wraparound_truncates.
  - apply track_of_reachable; by_computation.
  - vm_compute. reflexivity.
  - by_computation.
  - by_computation.
  - by_computation.
  - by_computation.
Defined.

Lemma sum_lengths_zero (st : store) (l : list node) :
  Forall (node_ok st) l -> sum_lengths l = 0 -> l = [].
Proof.
  intros Hok Hz. destruct l as [|n l]; [reflexivity|]. exfalso.
  pose proof (Forall_inv Hok) as (Hl & _).
  pose proof (sum_lengths_nonneg _ _ (Forall_inv_tail Hok)). simpl in Hz. lia.
Qed.

(** X15: deleting the whole of a track built by the public operations
    unlinks every node: [deleteRange(0, total_length)] returns [true] and
    leaves an empty chain ([head] null) with [total_length] 0. *)
Theorem deleteRange_everything_empties_chain tr :
  reachable tr ->
  ∃ tr', deleteRange tr 0 (total_length tr) = Ok (true, tr')
    ∧ head tr' = [] ∧ total_length tr' = 0.
Proof.
  intros Hr. pose proof (reachable_wf _ Hr) as Hwf.
  pose proof (wf_total_length _ Hwf) as HL.
  pose proof Hwf as [Hok _ _ Htot Hfit Hmem].
  pose proof (sum_lengths_nonneg _ _ Hok) as Hnn.
  assert (Hsz : is_size_t (total_length tr)) by zlia.
  pose proof (deleteRange_spec tr 0 (total_length tr) Hwf ltac:(zlia) Hsz)
    as H.
  destruct (deleteRange tr 0 (total_length tr)) as [[[|] tr']| |];
    try contradiction.
  - destruct H as (Hwf' & _ & _ & Hc). exists tr'. split; [reflexivity|].
    rewrite Z.add_0_l, drop_ge in Hc by lia. simpl in Hc.
    pose proof Hwf' as [Hok' _ _ Htot' _ _].
    pose proof (contents_length _ _ Hok') as Hlen'. rewrite Hc in Hlen'.
    simpl in Hlen'.
    assert (Hnil : head tr' = [])
      by (apply (sum_lengths_zero (heap tr')); [assumption|lia]).
    split; [assumption|]. rewrite Htot', Hnil. reflexivity.
  - exfalso. destruct H as (_ & [Hout|Hb]).
    + rewrite add_sz_small in Hout by zlia. lia.
    + exact (no_children_no_blocks 0 (total_length tr) _
               (reachable_childless _ Hr) Hb).
Qed.

Lemma deleteRange_everything_empties_chain_witness :
  ∃ tr', deleteRange (track_of [4; 5; 6]) 0 (total_length (track_of [4; 5; 6]))
         = Ok (true, tr')
    ∧ head tr' = [] ∧ total_length tr' = 0.
Proof.
  apply deleteRange_everything_empties_chain.
  apply track_of_reachable; by_computation.
Defined.

(** ** The chain invariant *)

Lemma indexed_from_lookup base (l : list node) i n :
  indexed_from base l -> l !! i = Some n ->
  global_start n = base + sum_lengths (take i l).
Proof.
  revert base i. induction l as [|c l IH]; intros base i Hidx Hl.
  - destruct i; discriminate.
  - destruct Hidx as [Hg Hidx]. destruct i as [|i]; simpl in *.
    + injection Hl as <-. lia.
    + rewrite (IH _ _ Hidx Hl). lia.
Qed.

(** X16: the invariant every public operation keeps. On a track built
    from an empty one by [write], [loadFromWav], [deleteRange] and
    [insert]: no node has length 0; every node views a range that lies
    inside its buffer; no two nodes of the chain view the same sample of
    a buffer; the cached [global_start] of the [i]-th node is the sum of
    the lengths of the nodes before it; and [total_length] is the sum of
    all lengths and stays below [2^63]. *)
Theorem reachable_chain_invariant tr :
  reachable tr ->
  (∀ n, n ∈ head tr ->
     0 < length n ∧ 0 <= offset n
     ∧ ∃ buf, heap tr !! data n = Some buf
              ∧ offset n + length n <= Z.of_nat (List.length buf))
  ∧ pairwise_disj (head tr)
  ∧ (∀ i n, head tr !! i = Some n ->
       global_start n = sum_lengths (take i (head tr)))
  ∧ total_length tr = sum_lengths (head tr)
  ∧ total_length tr < MAX_SAMPLES.
Proof.
  intros Hr. destruct (reachable_wf _ Hr) as [Hok Hdis Hidx Htot Hfit Hmem].
  split; [|split; [assumption|split; [|split; [assumption|lia]]]].
  - intros n Hn. rewrite Forall_forall in Hok.
    apply Hok, list_elem_of_In, Hn.
  - intros i n Hl. rewrite (indexed_from_lookup 0 _ _ _ Hidx Hl). lia.
Qed.

Lemma reachable_chain_invariant_witness :
  (∀ n, n ∈ head (track_of [4; 5; 6]) ->
     0 < length n ∧ 0 <= offset n
     ∧ ∃ buf, heap (track_of [4; 5; 6]) !! data n = Some buf
              ∧ offset n + length n <= Z.of_nat (List.length buf))
  ∧ pairwise_disj (head (track_of [4; 5; 6]))
  ∧ (∀ i n, head (track_of [4; 5; 6]) !! i = Some n ->
       global_start n = sum_lengths (take i (head (track_of [4; 5; 6]))))
  ∧ total_length (track_of [4; 5; 6])
    = sum_lengths (head (track_of [4; 5; 6]))
  ∧ total_length (track_of [4; 5; 6]) < MAX_SAMPLES.
Proof.
  apply reachable_chain_invariant.
  apply track_of_reachable; by_computation.
Defined.

(** ** More on [insert] *)

Lemma insert_result tr src dest_pos src_pos len d s :
  wf tr -> wf src ->
  getAllSamples tr = Ok d -> getAllSamples src = Ok s ->
  is_size_t dest_pos -> is_size_t src_pos -> is_size_t len ->
  let avail := Z.max 0 (Z.min len (total_length src - src_pos)) in
  store_samples (heap tr) + avail < MAX_SAMPLES ->
  len = 0 ∨ 0 < avail ∨ total_length tr <= dest_pos ->
  ∃ tr', insert tr src dest_pos src_pos len = Ok tr' ∧ wf tr'
    ∧ getAllSamples tr'
      = Ok (take (Z.to_nat dest_pos) d ++ slice s src_pos avail
            ++ drop (Z.to_nat dest_pos) d)
    ∧ total_length tr' = total_length tr + avail.
Proof.
  intros Hwf Hwfs Hd Hs Hdp Hsp Hlen avail Hroom Hcase.
  pose proof (flat_eq _ _ Hwf Hd) as Hdc.
  pose proof (flat_eq _ _ Hwfs Hs) as Hsc.
  pose proof (wf_total_length _ Hwf) as HL. rewrite <- Hdc in HL.
  pose proof (wf_total_length _ Hwfs) as HLs. rewrite <- Hsc in HLs.
  pose proof (insert_spec tr src dest_pos src_pos len Hwf Hwfs Hdp Hsp Hlen)
    as H.
  cbv zeta in H. fold avail in H. rewrite <- Hdc, <- Hsc in H.
  destruct (insert tr src dest_pos src_pos len) as [tr'| |].
  - destruct H as (Hwf' & Hc & _). exists tr'.
    split; [reflexivity|]. split; [assumption|].
    split; [rewrite (getAllSamples_contents _ Hwf'), Hc; reflexivity|].
    rewrite (wf_total_length _ Hwf'), Hc, !length_app, !Nat2Z.inj_add.
    rewrite (slice_length_clamped s src_pos avail) by zlia.
    rewrite length_take, length_drop. unfold avail. lia.
  - exfalso. lia.
  - exfalso. lia.
Qed.

(** X17: [insert] splices in the samples the source has in
    [[src_pos, src_pos + len)], cut at the end of the source, and nothing
    else. If the source supplies at least one sample ([0 < len] and
    [src_pos] inside the source) and the store has room, the destination
    becomes its first [dest_pos] samples, then those source samples, then
    its remaining samples, and its length grows by their number. The
    source may be the destination itself. *)
Theorem insert_splices_source_range tr src dest_pos src_pos len d s :
  wf tr -> wf src ->
  getAllSamples tr = Ok d -> getAllSamples src = Ok s ->
  is_size_t dest_pos -> is_size_t src_pos -> is_size_t len ->
  0 < len -> src_pos < total_length src ->
  store_samples (heap tr) + Z.min len (total_length src - src_pos)
    < MAX_SAMPLES ->
  ∃ tr', insert tr src dest_pos src_pos len = Ok tr'
    ∧ getAllSamples tr'
      = Ok (take (Z.to_nat dest_pos) d
            ++ slice s src_pos (Z.min len (total_length src - src_pos))
            ++ drop (Z.to_nat dest_pos) d)
    ∧ total_length tr'
      = total_length tr + Z.min len (total_length src - src_pos).
Proof.
  intros Hwf Hwfs Hd Hs Hdp Hsp Hlen Hpos Hin Hroom.
  destruct (insert_result tr src dest_pos src_pos len d s Hwf Hwfs Hd Hs
              Hdp Hsp Hlen ltac:(lia) ltac:(lia))
    as (tr' & Hrun & _ & Hall & Htot).
  exists tr'. split; [assumption|].
  rewrite Z.max_r in Hall, Htot by lia. split; assumption.
Qed.

Lemma insert_splices_source_range_witness :
  ∃ tr', insert (track_of [1; 2; 3; 4; 5; 6; 7; 8; 9; 10])
           (track_of [100; 101; 102; 103; 104]) 5 3 4 = Ok tr'
    ∧ getAllSamples tr'
      = Ok (take (Z.to_nat 5) [1; 2; 3; 4; 5; 6; 7; 8; 9; 10]
            ++ slice [100; 101; 102; 103; 104] 3
                 (Z.min 4
                    (total_length (track_of [100; 101; 102; 103; 104]) - 3))
            ++ drop (Z.to_nat 5) [1; 2; 3; 4; 5; 6; 7; 8; 9; 10])
    ∧ total_length tr'
      = total_length (track_of [1; 2; 3; 4; 5; 6; 7; 8; 9; 10])
        + Z.min 4 (total_length (track_of [100; 101; 102; 103; 104]) - 3).
Proof.
  apply insert_splices_source_range.
  - apply track_of_wf; by_computation.
  - apply track_of_wf; by_computation.
  - vm_compute. reflexivity.
  - vm_compute. reflexivity.
  - by_computation.
  - by_computation.
  - by_computation.
  - lia.
  - by_computation.
  - by_computation.
Defined.

(** X18: unlike [write], [insert] at a position at or beyond the end of
    the destination leaves no gap: the source samples are appended
    directly after the last sample, whatever [dest_pos] is. *)
Theorem insert_past_end_appends tr src dest_pos src_pos len d s :
  wf tr -> wf src ->
  getAllSamples tr = Ok d -> getAllSamples src = Ok s ->
  is_size_t dest_pos -> is_size_t src_pos -> is_size_t len ->
  total_length tr <= dest_pos ->
  store_samples (heap tr) + Z.max 0 (Z.min len (total_length src - src_pos))
    < MAX_SAMPLES ->
  ∃ tr', insert tr src dest_pos src_pos len = Ok tr'
    ∧ getAllSamples tr'
      = Ok (d ++ slice s src_pos (Z.min len (total_length src - src_pos))).
Proof.
  intros Hwf Hwfs Hd Hs Hdp Hsp Hlen Hpast Hroom.
  pose proof (flat_eq _ _ Hwf Hd) as Hdc.
  pose proof (wf_total_length _ Hwf) as HL. rewrite <- Hdc in HL.
  destruct (insert_result tr src dest_pos src_pos len d s Hwf Hwfs Hd Hs
              Hdp Hsp Hlen Hroom ltac:(lia))
    as (tr' & Hrun & _ & Hall & _).
  exists tr'. split; [assumption|]. rewrite Hall.
  rewrite take_ge, drop_ge, app_nil_r by lia. do 2 f_equal.
  destruct (Z.le_gt_cases 0 (Z.min len (total_length src - src_pos))).
  - rewrite Z.max_r by lia. reflexivity.
  - rewrite Z.max_l by lia. rewrite !slice_nonpos by lia. reflexivity.
Qed.

Lemma insert_past_end_appends_witness :
  ∃ tr', insert (track_of [1; 2; 3]) (track_of [7; 8; 9]) 50 1 2 = Ok tr'
    ∧ getAllSamples tr'
      = Ok ([1; 2; 3]
            ++ slice [7; 8; 9] 1
                 (Z.min 2 (total_length (track_of [7; 8; 9]) - 1))).
Proof.
  apply insert_past_end_appends.
  - apply track_of_wf; by_computation.
  - apply track_of_wf; by_computation.
  - vm_compute. reflexivity.
  - vm_compute. reflexivity.
  - by_computation.
  - by_computation.
  - by_computation.
  - by_computation.
  - by_computation.
Defined.

(** X19: when the source supplies no sample ([len > 0] but [src_pos] at
    or beyond the end of the source) and [dest_pos] lies inside the
    destination, [insert] does not return: no clone was built, so
    [insertion_tail] is still null when [insertion_tail->next] is
    assigned, which is undefined behaviour. *)
Theorem insert_without_source_samples_is_undefined
    tr src dest_pos src_pos len :
  wf tr -> wf src ->
  is_size_t dest_pos -> is_size_t src_pos -> is_size_t len ->
  0 < len -> total_length src <= src_pos -> dest_pos < total_length tr ->
  insert tr src dest_pos src_pos len = Undefined.
Proof.
  intros Hwf Hwfs Hdp Hsp Hlen Hpos Hout Hin.
  pose proof Hwf as [_ _ _ _ _ Hmem].
  pose proof (insert_spec tr src dest_pos src_pos len Hwf Hwfs Hdp Hsp Hlen)
    as H.
  cbv zeta in H.
  destruct (insert tr src dest_pos src_pos len) as [tr'| |].
  - exfalso. destruct H as (_ & _ & Hcase). lia.
  - exfalso. lia.
  - reflexivity.
Qed.

Lemma insert_without_source_samples_is_undefined_witness :
  insert (track_of [1; 2; 3]) (track_of [9]) 1 5 2 = Undefined.
Proof.
  apply insert_without_source_samples_is_undefined.
  - apply track_of_wf; by_computation.
  - apply track_of_wf; by_computation.
  - by_computation.
  - by_computation.
  - by_computation.
  - lia.
  - by_computation.
  - by_computation.
Defined.

(** ** [identify] *)

Lemma spaced_weaken m lo hi hi' occ :
  spaced m lo hi occ -> hi <= hi' -> spaced m lo hi' occ.
Proof.
  revert lo. induction occ as [|[s e] occ IH]; intros lo; simpl.
  - lia.
  - intros (? & ? & H) Hle. repeat split; try assumption. apply IH; assumption.
Qed.

Lemma spaced_snoc m lo hi occ s :
  1 <= m -> spaced m lo hi occ -> hi <= s ->
  spaced m lo (s + m) (occ ++ [(s, s + m - 1)]).
Proof.
  intros Hm. revert lo. induction occ as [|[s0 e0] occ IH]; intros lo; simpl.
  - intros ? ?. repeat split; lia.
  - intros (? & ? & H) Hle. repeat split; try assumption. apply IH; assumption.
Qed.

Lemma identify_loop_spaced fuel T A th i occ :
  1 <= size A -> size A <= size T -> size T <= SIZE_MAX ->
  0 <= i <= size T -> spaced (size A) 0 i occ ->
  Forall (fun se => PrimFloat.leb th (corr T A se.1) = true) occ ->
  spaced (size A) 0 (size T) (identify_loop fuel T A th i occ)
  ∧ Forall (fun se => PrimFloat.leb th (corr T A se.1) = true)
      (identify_loop fuel T A th i occ).
Proof.
  intros Hm Hmn Hn. revert i occ.
  induction fuel as [|fuel IH]; intros i occ Hi Hsp Hth; simpl.
  - split; [|assumption]. apply (spaced_weaken _ _ i); [assumption|lia].
  - rewrite (sub_sz_small (size T)) by lia.
    destruct (Z.leb_spec i (size T - size A)) as [Hin|Hout].
    + destruct (PrimFloat.leb th (corr T A i)) eqn:Hc.
      * rewrite (add_sz_small i (size A)) by lia.
        rewrite sub_sz_small by lia. apply IH; [lia| |].
        -- apply (spaced_snoc _ _ i); [assumption|assumption|lia].
        -- apply Forall_app. split; [assumption|].
           constructor; [exact Hc|constructor].
      * rewrite add_sz_small by lia. apply IH; [lia| |assumption].
        apply (spaced_weaken _ _ i); [assumption|lia].
    + split; [|assumption]. apply (spaced_weaken _ _ i); [assumption|lia].
Qed.

Lemma identify_loop_fuel fuel extra T A th i occ :
  1 <= size A -> size A <= size T -> size T <= SIZE_MAX ->
  0 <= i -> size T - size A - i < Z.of_nat fuel ->
  identify_loop (fuel + extra) T A th i occ = identify_loop fuel T A th i occ.
Proof.
  intros Hm Hmn Hn. revert i occ.
  induction fuel as [|fuel IH]; intros i occ Hi Hf.
  - destruct extra as [|extra]; [reflexivity|]. simpl.
    rewrite (sub_sz_small (size T)) by lia.
    destruct (Z.leb_spec i (size T - size A)); [lia|reflexivity].
  - simpl. rewrite (sub_sz_small (size T)) by lia.
    destruct (Z.leb_spec i (size T - size A)) as [Hin|Hout]; [|reflexivity].
    destruct (PrimFloat.leb th (corr T A i)).
    + rewrite (add_sz_small i (size A)) by lia. apply IH; lia.
    + rewrite add_sz_small by lia. apply IH; lia.
Qed.

(** X20: the matches [identify] collects. For well-formed tracks, a
    non-empty pattern [A] and a target [T] at least as long, the scan
    returns matches [(s, s + len(A) - 1)] that lie inside the target, are
    listed in ascending order and never overlap, and at each of them the
    correlation reaches the threshold [0.95 * auto_ref]. The scan ends
    within [len(T) + 1] turns of the loop: allowing more turns gives the
    same list. *)
Theorem occurrences_ascending_without_overlap tr ad T A :
  wf tr -> wf ad ->
  getAllSamples tr = Ok T -> getAllSamples ad = Ok A ->
  0 < total_length ad <= total_length tr ->
  ∃ occ, occurrences tr ad = Ok occ
    ∧ spaced (size A) 0 (size T) occ
    ∧ Forall (fun se =>
                PrimFloat.leb
                  (PrimFloat.mul CORRELATION_THRESHOLD (auto_ref A))
                  (corr T A se.1) = true) occ
    ∧ ∀ extra,
        identify_loop (S (List.length T) + extra) T A
          (PrimFloat.mul CORRELATION_THRESHOLD (auto_ref A)) 0 [] = occ.
Proof.
  intros Hwf Hwfa HT HA Hlen.
  pose proof (flat_eq _ _ Hwf HT) as HTc.
  pose proof (flat_eq _ _ Hwfa HA) as HAc.
  pose proof (wf_total_length _ Hwf) as HL. rewrite <- HTc in HL.
  pose proof (wf_total_length _ Hwfa) as HLa. rewrite <- HAc in HLa.
  pose proof Hwf as [_ _ _ Htot Hfit Hmem].
  assert (Hn : size T <= SIZE_MAX) by (unfold size; zlia).
  unfold occurrences.
  destruct (Z.eqb_spec (total_length tr) 0) as [?|_]; [lia|].
  destruct (Z.eqb_spec (total_length ad) 0) as [?|_]; [lia|].
  destruct (Z.ltb_spec (total_length tr) (total_length ad)) as [?|_]; [lia|].
  simpl orb. cbv iota. rewrite HT, bind_ok, HA, bind_ok.
  eexists. split; [reflexivity|].
  assert (H0 : spaced (size A) 0 0 []) by (simpl; lia).
  destruct (identify_loop_spaced (S (List.length T)) T A
              (PrimFloat.mul CORRELATION_THRESHOLD (auto_ref A)) 0 []
              ltac:(unfold size; lia) ltac:(unfold size; lia) Hn
              ltac:(unfold size; lia) H0 (Forall_nil _))
    as [Hsp Hth].
  split; [assumption|]. split; [assumption|].
  intros extra. apply identify_loop_fuel; unfold size in *; lia.
Qed.

Lemma occurrences_ascending_without_overlap_witness :
  ∃ occ,
    occurrences
      (track_of [1; 2; 3; 10; 20; 30; 4; 5; 6; 10; 20; 30; 7; 8; 9])
      (track_of [10; 20; 30]) = Ok occ
    ∧ spaced (size [10; 20; 30]) 0
        (size [1; 2; 3; 10; 20; 30; 4; 5; 6; 10; 20; 30; 7; 8; 9]) occ
    ∧ Forall (fun se =>
                PrimFloat.leb
                  (PrimFloat.mul CORRELATION_THRESHOLD
                     (auto_ref [10; 20; 30]))
                  (corr [1; 2; 3; 10; 20; 30; 4; 5; 6; 10; 20; 30; 7; 8; 9]
                     [10; 20; 30] se.1) = true) occ
    ∧ ∀ extra,
        identify_loop
          (S (List.length
                [1; 2; 3; 10; 20; 30; 4; 5; 6; 10; 20; 30; 7; 8; 9]) + extra)
          [1; 2; 3; 10; 20; 30; 4; 5; 6; 10; 20; 30; 7; 8; 9] [10; 20; 30]
          (PrimFloat.mul CORRELATION_THRESHOLD (auto_ref [10; 20; 30])) 0 []
        = occ.
Proof.
  apply occurrences_ascending_without_overlap.
  - apply track_of_wf; by_computation.
  - apply track_of_wf; by_computation.
  - vm_compute. reflexivity.
  - vm_compute. reflexivity.
  - by_computation.
Defined.

(** * The second implementation *)

(** X21: [insert] of the second implementation. With a source range that
    does not wrap, it returns the track untouched when [src_pos] is at or
    beyond the end of the source (where the main implementation
    dereferences a null pointer); otherwise it rebuilds the track from
    the flattened samples: the first [dest_pos] samples, the source
    samples [[src_pos, src_pos + len)] cut at the end of the source, then
    the remaining samples. *)
Theorem Simple_insert_rebuilds_track tr src dest_pos src_pos len d s :
  wf tr -> wf src ->
  Simple.getAllSamples tr = Ok d -> Simple.getAllSamples src = Ok s ->
  is_size_t dest_pos -> is_size_t src_pos -> is_size_t len ->
  src_pos + len <= SIZE_MAX ->
  total_length tr + Z.min len (total_length src - src_pos) < MAX_SAMPLES ->
  (total_length src <= src_pos ->
   Simple.insert tr src dest_pos src_pos len = Ok tr)
  ∧ (src_pos < total_length src ->
     ∃ tr', Simple.insert tr src dest_pos src_pos len = Ok tr'
       ∧ Simple.getAllSamples tr'
         = Ok (take (Z.to_nat dest_pos) d
               ++ slice s src_pos (Z.min len (total_length src - src_pos))
               ++ drop (Z.to_nat dest_pos) d)).
Proof.
  unfold Simple.getAllSamples.
  intros Hwf Hwfs Hd Hs Hdp Hsp Hlen Hnowrap Hroom.
  pose proof (flat_eq _ _ Hwf Hd) as Hdc.
  pose proof (flat_eq _ _ Hwfs Hs) as Hsc.
  pose proof (wf_total_length _ Hwf) as HL. rewrite <- Hdc in HL.
  pose proof (wf_total_length _ Hwfs) as HLs. rewrite <- Hsc in HLs.
  pose proof Hwf as [_ _ _ Htot Hfit Hmem].
  pose proof Hwfs as [_ _ _ Htots Hfits Hmems].
  unfold Simple.insert, Simple.getAllSamples, Simple.write.
  rewrite Hs, bind_ok. fold (size s) in HLs. rewrite HLs in Hroom |- *.
  split.
  - intros Hout. destruct (Z.leb_spec (size s) src_pos); [reflexivity|lia].
  - intros Hin. destruct (Z.leb_spec (size s) src_pos) as [?|_]; [lia|].
    rewrite add_sz_small by zlia.
    set (actual_len := if size s <? src_pos + len
                       then size s ⊖ src_pos else len).
    assert (Hact : actual_len = Z.min len (size s - src_pos)).
    { unfold actual_len.
      destruct (Z.ltb_spec (size s) (src_pos + len)).
      - rewrite sub_sz_small by zlia. lia.
      - lia. }
    rewrite Hact.
    destruct (Z.ltb_spec (size s) (src_pos + Z.min len (size s - src_pos)))
      as [?|_]; [lia|].
    rewrite Hd, bind_ok.
    fold (slice s src_pos (Z.min len (size s - src_pos))).
    set (new_data := take (Z.to_nat dest_pos) d
                     ++ slice s src_pos (Z.min len (size s - src_pos))
                     ++ drop (Z.to_nat dest_pos) d).
    assert (Hnew : size new_data
                   <= size d + Z.min len (size s - src_pos)).
    { unfold new_data, size. rewrite !length_app, length_take, length_drop.
      pose proof (slice_length_le s src_pos (Z.min len (size s - src_pos))).
      unfold size in *. zlia. }
    assert (Hnn : 0 <= size new_data) by (unfold size; lia).
    fold (size d) in HL.
    destruct (write_result (SoundSegment.mk [] [] 0) new_data 0 []
                wf_create ltac:(vm_compute; reflexivity) ltac:(lia))
      as (tr' & Hrun & Hwf' & Hnil & Hcons).
    + zlia.
    + simpl. zlia.
    + exists tr'. split; [exact Hrun|].
      destruct new_data as [|x new_data].
      * rewrite (Hnil eq_refl). vm_compute. reflexivity.
      * destruct Hcons as [_ Hall]; [discriminate|]. rewrite Hall.
        simpl. rewrite drop_nil, app_nil_r. reflexivity.
Qed.

Lemma Simple_insert_rebuilds_track_witness :
  (total_length (track_of [100; 101; 102]) <= 1 ->
   Simple.insert (track_of [1; 2; 3; 4]) (track_of [100; 101; 102]) 2 1 5
   = Ok (track_of [1; 2; 3; 4]))
  ∧ (1 < total_length (track_of [100; 101; 102]) ->
     ∃ tr',
       Simple.insert (track_of [1; 2; 3; 4]) (track_of [100; 101; 102]) 2 1 5
       = Ok tr'
       ∧ Simple.getAllSamples tr'
         = Ok (take (Z.to_nat 2) [1; 2; 3; 4]
               ++ slice [100; 101; 102] 1
                    (Z.min 5 (total_length (track_of [100; 101; 102]) - 1))
               ++ drop (Z.to_nat 2) [1; 2; 3; 4])).
Proof.
  apply Simple_insert_rebuilds_track.
  - apply track_of_wf; by_computation.
  - apply track_of_wf; by_computation.
  - vm_compute. reflexivity.
  - vm_compute. reflexivity.
  - by_computation.
  - by_computation.
  - by_computation.
  - by_computation.
  - by_computation.
Defined.

Lemma check_children_none (l : list node) to_check local_off :
  Forall (fun n => children n = []) l ->
  check_children l to_check local_off = false.
Proof.
  intros H. revert to_check local_off.
  induction H as [|c l Hc _ IH]; intros to_check local_off; simpl;
    [reflexivity|].
  destruct (0 <? to_check); [|reflexivity].
  unfold hasActiveChildren. rewrite Hc. simpl.
  destruct (_ <? to_check); [apply IH|reflexivity].
Qed.

Lemma findSegmentAt_from_none before (l : list node) pos :
  Forall (fun n => (global_start n <=? pos)
                   && (pos <? global_start n ⊕ length n) = false) l ->
  findSegmentAt_from before l pos = None.
Proof.
  intros H. revert before.
  induction H as [|c l Hc _ IH]; intros before; simpl; [reflexivity|].
  rewrite Hc. apply IH.
Qed.

Lemma store_memmove_nothing (st : store) id buf doff soff :
  st !! id = Some buf ->
  0 <= doff <= Z.of_nat (List.length buf) ->
  0 <= soff <= Z.of_nat (List.length buf) ->
  store_memmove st id doff soff 0 = Ok st.
Proof.
  intros Hid Hd Hs. rewrite (store_memmove_ok _ _ buf) by (try assumption; lia).
  unfold poke. rewrite Hid, slice_nonpos by lia. rewrite blit_nil.
  rewrite list_insert_id by assumption. reflexivity.
Qed.

(** One turn of the loop of the second [deleteRange], which is also its
    last: the node found at [pos] loses what the range takes of it, and
    [pos] is then outside every node, as the global indices are stale. *)
Lemma Simple_deleteRange_turn tr pos len b c nx lo :
  wf tr -> is_size_t pos -> 0 < len -> pos + len <= total_length tr ->
  findSegmentAt tr pos = Some (b, c, nx, lo) ->
  ∃ buf,
    heap tr !! data c = Some buf
    ∧ head tr = b ++ c :: nx ∧ 0 <= lo < length c
    ∧ 0 <= offset c ∧ offset c + length c <= Z.of_nat (List.length buf)
    ∧ length c < MAX_SAMPLES
    ∧ Simple.deleteRange tr pos len
      = Ok (true,
            updateGlobalIndices
              (SoundSegment.mk
                 (poke (heap tr) (data c) (offset c + lo)
                    (slice buf (offset c + lo + Z.min len (length c - lo))
                       (length c - lo - Z.min len (length c - lo))))
                 (b ++ set_length c (length c - Z.min len (length c - lo))
                    :: nx)
                 (total_length tr))).
Proof.
  intros Hwf Hpos Hlen Hin Hfind.
  pose proof Hwf as [Hok Hdis Hidx Htot Hfit Hmem].
  pose proof (sum_lengths_nonneg _ _ Hok) as Hnn.
  assert (Hsmall : total_length tr < MAX_SAMPLES) by lia.
  unfold findSegmentAt in Hfind.
  pose proof (findSegmentAt_from_spec (heap tr) [] (head tr) 0 pos Hok Hidx
                ltac:(lia) ltac:(zlia) ltac:(zlia)) as Hspec.
  rewrite Hfind in Hspec. destruct Hspec as (mid & Hhead & Hb & Hlo & Hrange).
  simpl in Hb. subst b.
  rewrite Hhead in Hok, Hidx, Htot.
  apply Forall_app in Hok. destruct Hok as [Hokm Hokc].
  pose proof (Forall_inv Hokc) as Hc.
  pose proof (Forall_inv_tail Hokc) as Hokn.
  apply indexed_from_app in Hidx. destruct Hidx as [Hidxm [Hgc Hidxn]].
  rewrite sum_lengths_app in Htot. simpl in Htot.
  pose proof (sum_lengths_nonneg _ _ Hokm) as Hnm.
  pose proof (sum_lengths_nonneg _ _ Hokn) as Hnx.
  pose proof (indexed_lower _ _ _ Hokm Hidxm) as Hlowm.
  pose proof (indexed_upper _ _ _ Hokm Hidxm) as Hupm.
  pose proof (indexed_lower _ _ _ Hokn Hidxn) as Hlown.
  destruct Hc as (Hl & Ho & buf & Hbuf & Hfitc).
  set (td := Z.min len (length c - lo)).
  assert (Htd : 1 <= td <= length c - lo ∧ td <= len) by lia.
  exists buf. split; [assumption|]. split; [assumption|].
  split; [lia|]. split; [assumption|]. split; [assumption|].
  split; [lia|].
  unfold Simple.deleteRange.
  rewrite add_sz_small by zlia.
  destruct (Z.ltb_spec (total_length tr) (pos + len)) as [?|_]; [lia|].
  destruct (Z.to_nat len) as [|k] eqn:Hk; [lia|].
  cbn [Simple.deleteRange_loop].
  destruct (Z.ltb_spec 0 len) as [_|?]; [|lia].
  rewrite Hfind.
  rewrite (sub_sz_small (length c) lo) by zlia. fold td.
  rewrite (sub_sz_small (length c - lo) td) by zlia.
  rewrite (store_memmove_ok _ _ buf) by (try assumption; lia).
  rewrite bind_ok.
  rewrite (sub_sz_small (length c) td) by zlia.
  rewrite (sub_sz_small len td) by zlia.
  match goal with
  | |- context [Simple.deleteRange_loop k ?st1 ?chain1 _ _] =>
      assert (Hend : Simple.deleteRange_loop k st1 chain1 (len - td) pos
                     = Ok (st1, chain1))
  end.
  { destruct k as [|k]; [reflexivity|]. cbn [Simple.deleteRange_loop].
    destruct (Z.ltb_spec 0 (len - td)) as [Hmore|_]; [|reflexivity].
    rewrite findSegmentAt_from_none; [reflexivity|].
    apply Forall_app. split; [|constructor].
    - rewrite Forall_forall in Hlowm, Hupm, Hokm |- *. intros n Hn.
      specialize (Hlowm n Hn). specialize (Hupm n Hn). simpl in Hlowm, Hupm.
      destruct (Hokm n Hn) as (Hln & _).
      rewrite add_sz_small by zlia.
      apply andb_false_iff. right. apply Z.ltb_ge. lia.
    - simpl. rewrite add_sz_small by zlia.
      apply andb_false_iff. right. apply Z.ltb_ge. lia.
    - eapply Forall_impl; [|exact Hlown]. simpl. intros n Hn.
      apply andb_false_iff. left. apply Z.leb_gt. lia. }
  rewrite Hend, bind_ok. reflexivity.
Qed.

Lemma append_segments_reachable tr segs :
  reachable tr -> Forall (fun seg => is_size_t (size seg)) segs ->
  reachable (append_segments tr segs).
Proof.
  intros Hr Hs. revert tr Hr.
  induction Hs as [|seg segs Hseg _ IH]; intros tr Hr; simpl; [assumption|].
  destruct (write tr seg (total_length tr)) as [tr'| |] eqn:Hrun;
    try assumption.
  apply IH. apply (reach_write tr seg (total_length tr)); try assumption.
  pose proof (reachable_wf _ Hr) as [Hok _ _ Htot Hfit Hmem].
  pose proof (sum_lengths_nonneg _ _ Hok). zlia.
Qed.

Lemma updateGlobalIndices_from_lengths g (l : list node) :
  map length (updateGlobalIndices_from g l).1 = map length l.
Proof.
  revert g. induction l as [|c l IH]; intros g; simpl; [reflexivity|].
  specialize (IH (g ⊕ length c)).
  destruct (updateGlobalIndices_from (g ⊕ length c) l). simpl in *.
  rewrite IH. reflexivity.
Qed.

(** X22: [deleteRange] of the second implementation removes samples from
    one node only. On a well-formed track without child lists, for an
    in-range, non-empty range that starts at offset [lo] of the node [c],
    and as long as [c] is not emptied ([lo > 0], or the range ends before
    the end of [c]), the call does what the main [deleteRange] does for
    the length [min(len, length(c) - lo)]: what the range takes of the
    following nodes stays in the track, and the call still returns
    [true]. *)
Theorem Simple_deleteRange_stops_at_node_end tr pos len F b c nx lo :
  wf tr -> Forall (fun n => children n = []) (head tr) ->
  Simple.getAllSamples tr = Ok F ->
  is_size_t pos -> 0 < len -> pos + len <= total_length tr ->
  findSegmentAt tr pos = Some (b, c, nx, lo) ->
  0 < lo ∨ len < length c - lo ->
  Simple.deleteRange tr pos len
  = deleteRange tr pos (Z.min len (length c - lo))
  ∧ ∃ tr', Simple.deleteRange tr pos len = Ok (true, tr')
      ∧ Simple.getAllSamples tr'
        = Ok (take (Z.to_nat pos) F
              ++ drop (Z.to_nat (pos + Z.min len (length c - lo))) F).
Proof.
  unfold Simple.getAllSamples.
  intros Hwf Hch HF Hpos Hlen Hin Hfind Hkeep.
  destruct (Simple_deleteRange_turn tr pos len b c nx lo Hwf Hpos Hlen Hin
              Hfind) as (buf & Hbuf & Hhead & Hrange & Ho & Hfitc & Hcl & Hrun).
  pose proof (flat_eq _ _ Hwf HF) as HFc.
  pose proof Hwf as [_ _ _ Htot Hfit Hmem].
  set (td := Z.min len (length c - lo)) in *.
  assert (Htd : 1 <= td <= length c - lo ∧ td <= len) by lia.
  assert (Hmain : Simple.deleteRange tr pos len = deleteRange tr pos td).
  { rewrite Hrun. unfold deleteRange.
    rewrite add_sz_small by zlia.
    destruct (Z.ltb_spec (total_length tr) (pos + td)) as [?|_]; [lia|].
    rewrite Hfind. cbv beta iota.
    rewrite check_children_none.
    2:{ rewrite Hhead in Hch. apply Forall_app in Hch. apply Hch. }
    cbn [delete_loop].
    destruct (Z.ltb_spec 0 td) as [_|?]; [|lia].
    rewrite (sub_sz_small (length c) lo) by zlia.
    destruct (Z.ltb_spec td (length c - lo)) as [Hlt|Hge].
    - rewrite (sub_sz_small (length c - lo) td) by zlia.
      rewrite (store_memmove_ok _ _ buf) by (try assumption; lia).
      rewrite bind_ok. rewrite (sub_sz_small (length c) td) by zlia.
      reflexivity.
    - assert (Heq : td = length c - lo) by lia.
      rewrite (sub_sz_small td) by zlia.
      cbn [SegmentNode.length set_length].
      destruct (Z.eqb_spec lo 0) as [?|_]; [lia|].
      destruct (Z.ltb_spec 0 (td - (length c - lo))) as [?|_]; [lia|].
      rewrite slice_nonpos by lia. unfold poke. rewrite Hbuf, blit_nil.
      rewrite list_insert_id by assumption.
      replace (length c - td) with lo by lia. reflexivity. }
  split; [assumption|].
  pose proof (deleteRange_spec tr pos td Hwf Hpos ltac:(zlia)) as Hspec.
  rewrite <- Hmain, Hrun in Hspec. destruct Hspec as (Hwf' & _ & _ & Hc).
  eexists. split; [exact Hrun|].
  rewrite (getAllSamples_contents _ Hwf'), Hc, <- HFc. reflexivity.
Qed.

Lemma Simple_deleteRange_stops_at_node_end_witness :
  Simple.deleteRange
    (track_of_segments [[1; 2; 3; 4; 5]; [6; 7; 8; 9; 10]]) 3 4
  = deleteRange (track_of_segments [[1; 2; 3; 4; 5]; [6; 7; 8; 9; 10]]) 3 2
  ∧ ∃ tr',
      Simple.deleteRange
        (track_of_segments [[1; 2; 3; 4; 5]; [6; 7; 8; 9; 10]]) 3 4
      = Ok (true, tr')
      ∧ Simple.getAllSamples tr' = Ok [1; 2; 3; 6; 7; 8; 9; 10].
Proof.
  refine (Simple_deleteRange_stops_at_node_end
            (track_of_segments [[1; 2; 3; 4; 5]; [6; 7; 8; 9; 10]]) 3 4
            [1; 2; 3; 4; 5; 6; 7; 8; 9; 10] []
            (SegmentNode.mk 0 0 5 0 [] [] true)
            [SegmentNode.mk 1 0 5 5 [] [] true] 3 _ _ _ _ _ _ _ _).
  - apply reachable_wf, append_segments_reachable; [constructor|].
    repeat constructor; by_computation.
  - apply reachable_childless, append_segments_reachable; [constructor|].
    repeat constructor; by_computation.
  - vm_compute. reflexivity.
  - by_computation.
  - lia.
  - by_computation.
  - vm_compute. reflexivity.
  - left. lia.
Defined.

(** X23: the second [deleteRange] never unlinks a node. When the range
    starts at the first sample of a node and covers all of it, the node
    stays in the chain with length 0 (the main implementation removes
    it), and the call returns [true]. *)
Theorem Simple_deleteRange_keeps_emptied_node tr pos len b c nx :
  wf tr -> is_size_t pos -> pos + len <= total_length tr ->
  findSegmentAt tr pos = Some (b, c, nx, 0) -> length c <= len ->
  ∃ tr' n, Simple.deleteRange tr pos len = Ok (true, tr')
    ∧ n ∈ head tr' ∧ length n = 0
    ∧ List.length (head tr') = List.length (head tr).
Proof.
  intros Hwf Hpos Hin Hfind Hall.
  assert (Hlen : 0 < len).
  { pose proof Hwf as [Hok _ Hidx _ _ _].
    pose proof (sum_lengths_nonneg _ _ Hok).
    pose proof (findSegmentAt_from_spec (heap tr) [] (head tr) 0 pos Hok Hidx
                  ltac:(lia) ltac:(destruct Hwf; zlia) ltac:(zlia)) as Hs.
    unfold findSegmentAt in Hfind. rewrite Hfind in Hs.
    destruct Hs as (_ & _ & _ & _ & ?). lia. }
  destruct (Simple_deleteRange_turn tr pos len b c nx 0 Hwf Hpos Hlen Hin
              Hfind) as (buf & Hbuf & Hhead & Hrange & Ho & Hfitc & Hcl & Hrun).
  rewrite Hrun. eexists. 
  assert (Hmap :
    map length
      (head (updateGlobalIndices
               (SoundSegment.mk
                  (poke (heap tr) (data c) (offset c + 0)
                     (slice buf (offset c + 0 + Z.min len (length c - 0))
                        (length c - 0 - Z.min len (length c - 0))))
                  (b ++ set_length c (length c - Z.min len (length c - 0))
                     :: nx)
                  (total_length tr))))
    = map length b ++ 0 :: map length nx).
  { unfold updateGlobalIndices. cbn [head].
    pose proof (updateGlobalIndices_from_lengths 0
                  (b ++ set_length c (length c - Z.min len (length c - 0))
                     :: nx)) as Hl.
    destruct (updateGlobalIndices_from 0 _) as [h t]. cbn [head fst] in *.
    rewrite Hl, map_app. cbn [map SegmentNode.length set_length].
    do 2 f_equal. lia. }
  assert (H0 : 0 ∈ map length b ++ 0 :: map length nx).
  { apply elem_of_app. right. apply elem_of_cons. left. reflexivity. }
  rewrite <- Hmap in H0. apply list_elem_of_fmap in H0.
  destruct H0 as (n & Hn0 & Hn).
  exists n. split; [reflexivity|]. split; [assumption|].
  split; [symmetry; assumption|].
  apply (f_equal (@List.length Z)) in Hmap.
  rewrite length_map in Hmap. rewrite Hmap, Hhead.
  rewrite !length_app. simpl. rewrite !length_map. reflexivity.
Qed.

Lemma Simple_deleteRange_keeps_emptied_node_witness :
  ∃ tr' n, Simple.deleteRange (track_of [4; 5; 6]) 0 3 = Ok (true, tr')
    ∧ n ∈ head tr' ∧ length n = 0
    ∧ List.length (head tr') = List.length (head (track_of [4; 5; 6])).
Proof.
  refine (Simple_deleteRange_keeps_emptied_node (track_of [4; 5; 6]) 0 3
            [] (SegmentNode.mk 0 0 3 0 [] [] true) [] _ _ _ _ _).
  - apply track_of_wf; by_computation.
  - by_computation.
  - by_computation.
  - vm_compute. reflexivity.
  - simpl. lia.
Defined.

(** * Wrap-around in [write], and a round trip *)

(** X24: [write] computes [end_pos = pos + len] in [size_t]. When that
    sum wraps for a write at or beyond the end of the track, none of the
    samples of [src] is stored: the track is only zero-extended up to the
    wrapped [end_pos] (or left as it is when that lies inside the
    track), and the call still returns normally. *)
Theorem write_wraparound_stores_nothing tr src pos F :
  wf tr -> getAllSamples tr = Ok F ->
  is_size_t pos -> is_size_t (size src) ->
  total_length tr <= pos -> SIZE_MAX < pos + size src ->
  store_samples (heap tr) + (pos ⊕ size src) < MAX_SAMPLES ->
  ∃ tr', write tr src pos = Ok tr'
    ∧ getAllSamples tr'
      = Ok (F ++ replicate
                   (Z.to_nat (pos ⊕ size src - total_length tr)) 0)
    ∧ total_length tr' = Z.max (total_length tr) (pos ⊕ size src).
Proof.
  intros Hwf HF Hpos Hsz Hpast Hwrap Hroom.
  pose proof (flat_eq _ _ Hwf HF) as HFc.
  pose proof (wf_total_length _ Hwf) as HL. rewrite <- HFc in HL.
  pose proof Hwf as [_ _ _ Htot Hfit Hmem].
  pose proof (write_spec tr src pos Hwf Hpos Hsz) as H. cbv zeta in H.
  rewrite <- HFc in H.
  assert (He : pos ⊕ size src = pos + size src - (SIZE_MAX + 1))
    by (apply add_sz_wrap; zlia).
  assert (Hn : 0 < size src) by zlia.
  destruct (write tr src pos) as [tr'| |]; [|exfalso; lia|contradiction].
  destruct H as (Hwf' & _ & Hrun). destruct (Hrun Hn) as (Htot' & Hc & _).
  exists tr'. split; [reflexivity|]. split; [|assumption].
  rewrite (getAllSamples_contents _ Hwf'), Hc.
  rewrite slice_nonpos by zlia. rewrite blit_nil. do 3 f_equal. lia.
Qed.

Lemma write_wraparound_stores_nothing_witness :
  ∃ tr', write create [7; 8] SIZE_MAX = Ok tr'
    ∧ getAllSamples tr'
      = Ok ([] ++ replicate
                    (Z.to_nat (SIZE_MAX ⊕ size [7; 8] - total_length create))
                    0)
    ∧ total_length tr'
      = Z.max (total_length create) (SIZE_MAX ⊕ size [7; 8]).
Proof.
  apply write_wraparound_stores_nothing.
  - apply wf_create.
  - vm_compute. reflexivity.
  - by_computation.
  - by_computation.
  - by_computation.
  - by_computation.
  - by_computation.
Defined.

(** X25: [insert] followed by [deleteRange] of the inserted range gives
    the original samples back. For tracks built by the public
    operations, a [dest_pos] inside the destination and a source range
    that supplies [k = min(len, source length - src_pos) > 0] samples,
    [insert(src, dest_pos, src_pos, len)] and then
    [deleteRange(dest_pos, k)] both succeed and the destination reads as
    before. *)
Theorem insert_then_deleteRange_restores tr src dest_pos src_pos len d :
  reachable tr -> reachable src ->
  getAllSamples tr = Ok d ->
  is_size_t dest_pos -> is_size_t src_pos -> is_size_t len ->
  0 < len -> src_pos < total_length src -> dest_pos <= total_length tr ->
  store_samples (heap tr) + Z.min len (total_length src - src_pos)
    < MAX_SAMPLES ->
  ∃ tr1 tr2,
    insert tr src dest_pos src_pos len = Ok tr1
    ∧ deleteRange tr1 dest_pos (Z.min len (total_length src - src_pos))
      = Ok (true, tr2)
    ∧ getAllSamples tr2 = Ok d.
Proof.
  intros Hr Hrs Hd Hdp Hsp Hlen Hpos Hin Hdin Hroom.
  pose proof (reachable_wf _ Hr) as Hwf.
  pose proof (reachable_wf _ Hrs) as Hwfs.
  pose proof (getAllSamples_contents _ Hwfs) as Hs.
  pose proof (flat_eq _ _ Hwf Hd) as Hdc.
  pose proof (wf_total_length _ Hwf) as HL. rewrite <- Hdc in HL.
  pose proof (wf_total_length _ Hwfs) as HLs.
  pose proof Hwf as [_ _ _ Htot Hfit Hmem].
  pose proof Hwfs as [_ _ _ Htots Hfits Hmems].
  set (s := contents (heap src) (head src)) in *.
  set (k := Z.min len (total_length src - src_pos)) in *.
  destruct (insert_result tr src dest_pos src_pos len d s Hwf Hwfs Hd Hs
              Hdp Hsp Hlen ltac:(lia) ltac:(lia))
    as (tr1 & Hrun & Hwf1 & Hall & Htot1).
  rewrite Z.max_r in Hall, Htot1 by lia. fold k in Hall, Htot1.
  assert (Hr1 : reachable tr1)
    by exact (reach_insert _ _ _ _ _ _ Hr Hrs Hdp Hsp Hlen Hrun).
  assert (Hk : is_size_t k) by zlia.
  pose proof (deleteRange_spec tr1 dest_pos k Hwf1 Hdp Hk) as H.
  pose proof (flat_eq _ _ Hwf1 Hall) as Hc1. rewrite <- Hc1 in H.
  exists tr1.
  destruct (deleteRange tr1 dest_pos k) as [[[|] tr2]| |];
    try contradiction.
  - destruct H as (Hwf2 & _ & _ & Hc2). exists tr2.
    split; [assumption|]. split; [reflexivity|].
    rewrite (getAllSamples_contents _ Hwf2), Hc2. f_equal.
    assert (Hsl : Z.of_nat (List.length (slice s src_pos k)) = k)
      by (apply slice_length; zlia).
    rewrite take_app_le by (rewrite length_take; zlia).
    rewrite take_take, Nat.min_id.
    rewrite drop_app_ge by (rewrite length_take; zlia).
    rewrite length_take.
    rewrite drop_app_ge by zlia.
    replace (Z.to_nat (dest_pos + k)
             - Z.to_nat dest_pos `min` List.length d
             - List.length (slice s src_pos k))%nat with 0%nat by zlia.
    rewrite drop_0. apply take_drop.
  - exfalso. destruct H as (_ & [Hout|Hb]).
    + rewrite add_sz_small in Hout by zlia. lia.
    + exact (no_children_no_blocks dest_pos k _
               (reachable_childless _ Hr1) Hb).
Qed.

Lemma insert_then_deleteRange_restores_witness :
  ∃ tr1 tr2,
    insert (track_of [1; 2; 3; 4; 5]) (track_of [7; 8; 9]) 2 1 5 = Ok tr1
    ∧ deleteRange tr1 2 (Z.min 5 (total_length (track_of [7; 8; 9]) - 1))
      = Ok (true, tr2)
    ∧ getAllSamples tr2 = Ok [1; 2; 3; 4; 5].
Proof.
  apply insert_then_deleteRange_restores.
  - apply track_of_reachable; by_computation.
  - apply track_of_reachable; by_computation.
  - vm_compute. reflexivity.
  - by_computation.
  - by_computation.
  - by_computation.
  - lia.
  - by_computation.
  - by_computation.
  - by_computation.
Defined.
